(** * OrganInsight3D: the client-side diagnosis cache

    A shallow embedding of [src/utils/diagnosis-cache.ts]: the image
    fingerprint, the persisted index, size accounting, eviction, expiry and
    the public store / lookup / delete operations, over a model of the
    browser's [localStorage], clock and console. *)

From Stdlib Require Import ZArith NArith Lia Ascii String List.
From stdpp Require Import base decidable option list gmap strings fin_maps.

Local Open Scope Z_scope.

Set Default Proof Using "Type".

(** ** JavaScript numbers and strings

    A JS string is modelled as a Rocq [string] whose characters are code
    units below 256 (image data is a base64 data URL).  Numbers that the
    code keeps integral are [Z]. *)

Module JS.

(** [ToInt32]: the wrap-around every bitwise operator applies. *)
Definition toInt32 (z : Z) : Z := (z + 2 ^ 31) mod 2 ^ 32 - 2 ^ 31.

(** [a << n] on numbers. *)
Definition shl (a : Z) (n : Z) : Z := toInt32 (Z.shiftl (toInt32 a) n).

(** [a & b] on numbers. *)
Definition band (a b : Z) : Z := Z.land (toInt32 a) (toInt32 b).

(** [s.charCodeAt(i)] for each [i], in order. *)
Fixpoint charCodes (s : string) : list Z :=
  match s with
  | EmptyString => []
  | String c r => Z.of_nat (nat_of_ascii c) :: charCodes r
  end.

Definition length (s : string) : Z := Z.of_nat (String.length s).

(** [s.substring(a, b)]: both bounds are clamped to [0, s.length] and
    swapped when out of order. *)
Definition clamp (len i : Z) : Z := Z.min (Z.max i 0) len.

Definition substring (a b : Z) (s : string) : string :=
  let a' := clamp (length s) a in
  let b' := clamp (length s) b in
  let lo := Z.min a' b' in
  let hi := Z.max a' b' in
  String.substring (Z.to_nat lo) (Z.to_nat (hi - lo)) s.

(** One digit of [Number.prototype.toString(radix)]: 0-9 then a-z. *)
Definition digit (d : Z) : ascii :=
  if d <? 10 then ascii_of_nat (Z.to_nat (48 + d))
  else ascii_of_nat (Z.to_nat (87 + d)).

Fixpoint digits (fuel : nat) (radix n : Z) (acc : string) : string :=
  match fuel with
  | O => acc
  | S fuel' =>
      let acc' := String (digit (n mod radix)) acc in
      if n / radix =? 0 then acc' else digits fuel' radix (n / radix) acc'
  end.

(** [n.toString(radix)] for an integral [n]. *)
Definition toString (radix : Z) (n : Z) : string :=
  let body := digits (S (Z.to_nat (Z.log2 (Z.abs n)))) radix (Z.abs n) EmptyString in
  if n <? 0 then String "-"%char body else body.

(** [s.toLowerCase()] on code units below 256. *)
Definition lowerChar (c : ascii) : ascii :=
  let n := nat_of_ascii c in
  if ((65 <=? n) && (n <=? 90))%nat then ascii_of_nat (n + 32)
  else if ((192 <=? n) && (n <=? 222) && negb (n =? 215))%nat
       then ascii_of_nat (n + 32)
  else c.

Fixpoint toLowerCase (s : string) : string :=
  match s with
  | EmptyString => EmptyString
  | String c r => String (lowerChar c) (toLowerCase r)
  end.

End JS.

(** ** Fingerprint Generator *)

Definition sampleSize : Z := 5000.

(** The three samples of [generateImageHash]: beginning, middle, end. *)
Definition sections (imageData : string) : list string :=
  let dataLength := JS.length imageData in
  [ JS.substring 0 (Z.min sampleSize dataLength) imageData;
    JS.substring (dataLength / 2) (dataLength / 2 + Z.min sampleSize dataLength) imageData;
    JS.substring (Z.max 0 (dataLength - sampleSize)) dataLength imageData ].

(** The loop body: [hash = ((hash << 5) - hash) + char; hash = hash & hash]. *)
Definition hashStep (hash char : Z) : Z :=
  let hash := (JS.shl hash 5 - hash) + char in
  JS.band hash hash.

Definition generateImageHash (imageData : string) : string :=
  let dataLength := JS.length imageData in
  let str := String.concat "" (sections imageData) +:+ JS.toString 10 dataLength in
  let hash := fold_left hashStep (JS.charCodes str) 0 in
  JS.toString 36 (Z.abs hash).

(** [generateDiagnosisCacheKey]: the organ-prefixed key. *)
Definition generateDiagnosisCacheKey (organName imageHash : string) : string :=
  JS.toLowerCase organName +:+ "_" +:+ imageHash.


Example hash_empty : generateImageHash "" = "1c"%string.
Proof. reflexivity. Qed.

Example hash_abc : generateImageHash "abc" = "5jzy5w"%string.
Proof. vm_compute. reflexivity. Qed.

Example hash_hello : generateImageHash "hello world" = "guj5aq"%string.
Proof. vm_compute. reflexivity. Qed.

(** ** The environment: storage, clock, console

    [localStorage] maps string keys to texts.  A text is modelled by what it
    says: the JSON text of a cache record, the JSON text of an array of keys
    (both as this module writes them), or a text that [JSON.parse] rejects,
    of which only the byte length matters. *)

Inductive dom_error := QuotaExceededError | OtherDOMError.

Inductive exn := DOMException (name : dom_error) | TypeError | SyntaxError.

Inductive outcome (A : Type) :=
| Ret (a : A)
| Throw (e : exn)
| Hang.
Arguments Ret {A} a.
Arguments Throw {A} e.
Arguments Hang {A}.

Definition DIAGNOSIS_CACHE_PREFIX : string := "diagnosis_cache_".
Definition DIAGNOSIS_CACHE_INDEX_KEY : string := "diagnosis_cache_index".
Definition DIAGNOSIS_CACHE_EXPIRY_DAYS : Z := 30.
Definition MAX_DIAGNOSIS_CACHE_SIZE_MB : N := 10.

(** The names that every object inherits from [Object.prototype]. *)
Definition inheritedNames : list string :=
  [ "constructor"; "hasOwnProperty"; "isPrototypeOf"; "propertyIsEnumerable";
    "toLocaleString"; "toString"; "valueOf"; "__proto__";
    "__defineGetter__"; "__defineSetter__"; "__lookupGetter__"; "__lookupSetter__" ]%string.

Section Cache.

(** The payload type ([OrganDiagnosis] in the source); the cache never
    looks inside it. *)
Variable OrganDiagnosis : Type.

Record CachedDiagnosis := mkCached {
  organName : string;
  imageHash : string;
  diagnosis : OrganDiagnosis;
  timestamp : Z;
  expiresAt : Z
}.

Inductive item :=
| Corrupt (bytes : N)
| Entry (c : CachedDiagnosis)
| Keys (ks : list string).

(** What [JSON.parse] returns on a text it accepts. *)
Inductive json :=
| JRecord (c : CachedDiagnosis)
| JArray (ks : list string).

Inductive message :=
| FailedToGetIndex
| FailedToUpdateIndex (error : exn)
| FailedToCalculateSize (key : string)
| FailedToCheck (key : string)
| EvictingOldest (key : string)
| CachedOk (key organ : string)
| FailedToCache (error : exn)
| QuotaExceededClearing
| FailedAfterCleanup (error : exn)
| CacheExpired (key : string)
| FoundCached (key : string)
| FailedToGet (error : exn)
| Deleted (key : string)
| FailedToDelete (error : exn)
| Cleared (count : nat)
| FailedToLoad (key : string)
| ClearedAll
| FailedToClear (error : exn).

Inductive event :=
| Console (m : message)
| SetItem (key : string) (value : item) (rejected : option dom_error)
| RemoveItem (key : string).

(** [faults] is what the storage will answer to the coming [setItem]
    calls, one element per call ([None]: accepted); past its end every
    write is accepted.  [trace] lists writes and console output, most
    recent first.  [window] is [typeof window !== 'undefined']. *)
Record World := mkWorld {
  window : bool;
  storage : gmap string item;
  clock : Z;
  faults : list (option dom_error);
  trace : list event
}.

Definition emit (e : event) (w : World) : World :=
  mkWorld (window w) (storage w) (clock w) (faults w) (e :: trace w).

Definition with_storage (s : gmap string item) (w : World) : World :=
  mkWorld (window w) s (clock w) (faults w) (trace w).

Definition with_faults (f : list (option dom_error)) (w : World) : World :=
  mkWorld (window w) (storage w) (clock w) f (trace w).

(** The environment lets time pass between two calls. *)
Definition advance (t : Z) (w : World) : World :=
  mkWorld (window w) (storage w) t (faults w) (trace w).

(** *** Computations: state, exceptions, and a loop that may not end *)

Definition M (A : Type) : Type := World -> outcome A * World.

Definition ret {A} (a : A) : M A := fun w => (Ret a, w).

Definition bind {A B} (m : M A) (k : A -> M B) : M B := fun w =>
  match m w with
  | (Ret a, w') => k a w'
  | (Throw e, w') => (Throw e, w')
  | (Hang, w') => (Hang, w')
  end.

Definition throw {A} (e : exn) : M A := fun w => (Throw e, w).

Definition hang {A} : M A := fun w => (Hang, w).

Definition try_catch {A} (body : M A) (handler : exn -> M A) : M A := fun w =>
  match body w with
  | (Throw e, w') => handler e w'
  | r => r
  end.

Fixpoint foldM {A B} (f : B -> A -> M B) (l : list A) (b : B) : M B :=
  match l with
  | [] => ret b
  | a :: l' => bind (f b a) (foldM f l')
  end.

Notation "x <- m ;; k" := (bind m (fun x => k))
  (at level 100, m at next level, k at level 200, right associativity).
Notation "m ;;; k" := (bind m (fun _ => k))
  (at level 100, k at level 200, right associativity).

(** *** Primitives of the environment *)

Definition hasWindow : M bool := fun w => (Ret (window w), w).

Definition Date_now : M Z := fun w => (Ret (clock w), w).

Definition console (m : message) : M unit := fun w => (Ret tt, emit (Console m) w).

Definition getItem (key : string) : M (option item) := fun w =>
  (Ret (storage w !! key), w).

Definition setItem (key : string) (value : item) : M unit := fun w =>
  match faults w with
  | Some name :: rest =>
      (Throw (DOMException name),
       emit (SetItem key value (Some name)) (with_faults rest w))
  | None :: rest =>
      (Ret tt,
       emit (SetItem key value None)
         (with_faults rest (with_storage (<[key := value]> (storage w)) w)))
  | [] =>
      (Ret tt,
       emit (SetItem key value None)
         (with_storage (<[key := value]> (storage w)) w))
  end.

Definition removeItem (key : string) : M unit := fun w =>
  (Ret tt, emit (RemoveItem key) (with_storage (delete key (storage w)) w)).

(** A text is truthy unless it is the empty string. *)
Definition truthy (text : item) : bool :=
  match text with
  | Corrupt bytes => negb (bytes =? 0)%N
  | _ => true
  end.

Definition JSON_parse (text : item) : M json :=
  match text with
  | Corrupt _ => throw SyntaxError
  | Entry c => ret (JRecord c)
  | Keys ks => ret (JArray ks)
  end.

(** Using a parsed value as an array ([for ... of], [includes], [filter])
    throws a [TypeError] when it is a plain object. *)
Definition asArray (v : json) : M (list string) :=
  match v with
  | JArray ks => ret ks
  | JRecord _ => throw TypeError
  end.

(** Field reads; a missing field reads [undefined] ([None]). *)
Definition timestampOf (v : json) : option Z :=
  match v with JRecord c => Some (timestamp c) | JArray _ => None end.

Definition expiresAtOf (v : json) : option Z :=
  match v with JRecord c => Some (expiresAt c) | JArray _ => None end.

Definition diagnosisOf (v : json) : option OrganDiagnosis :=
  match v with JRecord c => Some (diagnosis c) | JArray _ => None end.

(** [a > b] and [a <= b] where [b] may be [undefined]: both false then. *)
Definition gtField (a : Z) (b : option Z) : bool :=
  match b with Some b => b <? a | None => false end.

Definition leField (a : Z) (b : option Z) : bool :=
  match b with Some b => a <=? b | None => false end.

(** [oldestTime] of the eviction scan starts at [Infinity]. *)
Inductive bound := Infinity | Finite (t : Z).

Definition ltBound (a : option Z) (b : bound) : bool :=
  match a, b with
  | Some a, Finite b => a <? b
  | Some _, Infinity => true
  | None, _ => false
  end.

(** *** Size of a text: [new Blob([data]).size]

    The byte length of a record's or a key array's JSON text is left to
    the serialiser, a parameter of the model. *)
Variable recordBytes : CachedDiagnosis -> N.
Variable keysBytes : list string -> N.

Definition blobSize (text : item) : N :=
  match text with
  | Corrupt bytes => bytes
  | Entry c => recordBytes c
  | Keys ks => keysBytes ks
  end.

(** The budget in bytes, [MAX_DIAGNOSIS_CACHE_SIZE_MB * 1024 * 1024] in the
    source, and the time to live in milliseconds. *)
Variable MAX_BYTES : N.
Variable EXPIRY_MS : Z.

Definition slot (key : string) : string := DIAGNOSIS_CACHE_PREFIX +:+ key.

(** *** Index Manager *)

Definition getDiagnosisCacheIndex : M json :=
  win <- hasWindow ;;
  if negb win then ret (JArray []) else
  try_catch
    (index <- getItem DIAGNOSIS_CACHE_INDEX_KEY ;;
     match index with
     | Some text => if truthy text then JSON_parse text else ret (JArray [])
     | None => ret (JArray [])
     end)
    (fun error => console FailedToGetIndex ;;; ret (JArray [])).

Definition updateDiagnosisCacheIndex (keys : list string) : M unit :=
  win <- hasWindow ;;
  if negb win then ret tt else
  try_catch
    (setItem DIAGNOSIS_CACHE_INDEX_KEY (Keys keys))
    (fun error => console (FailedToUpdateIndex error)).

Definition addToDiagnosisCacheIndex (key : string) : M unit :=
  index <- getDiagnosisCacheIndex ;;
  ks <- asArray index ;;
  if negb (bool_decide (key ∈ ks))
  then updateDiagnosisCacheIndex (ks ++ [key])
  else ret tt.

Definition removeFromDiagnosisCacheIndex (key : string) : M unit :=
  index <- getDiagnosisCacheIndex ;;
  ks <- asArray index ;;
  updateDiagnosisCacheIndex (filter (fun k => k ≠ key) ks).

(** *** Size accounting

    [getDiagnosisCacheSize] returns megabytes; the model keeps the byte
    count it divides by 1024 * 1024 (an exact division, so comparing
    megabytes with the budget is comparing bytes). *)
(** The body of the [for (const key of index)] loop. *)
Definition sizeStep (totalSize : N) (key : string) : M N :=
  try_catch
    (data <- getItem (slot key) ;;
     match data with
     | Some text =>
         if truthy text then ret (totalSize + blobSize text)%N
         else ret totalSize
     | None => ret totalSize
     end)
    (fun error => console (FailedToCalculateSize key) ;;; ret totalSize).

Definition getDiagnosisCacheSize : M N :=
  win <- hasWindow ;;
  if negb win then ret 0%N else
  index <- getDiagnosisCacheIndex ;;
  ks <- asArray index ;;
  foldM sizeStep ks 0%N.

Definition isDiagnosisCacheFull : M bool :=
  size <- getDiagnosisCacheSize ;;
  ret (MAX_BYTES <=? size)%N.

(** *** Entry Store: delete *)

Definition deleteCachedDiagnosis (cacheKey : string) : M bool :=
  win <- hasWindow ;;
  if negb win then ret false else
  try_catch
    (removeItem (slot cacheKey) ;;;
     removeFromDiagnosisCacheIndex cacheKey ;;;
     console (Deleted cacheKey) ;;;
     ret true)
    (fun error => console (FailedToDelete error) ;;; ret false).

(** *** Eviction Policy *)

(** The body of the scan, on the pair ([oldestKey], [oldestTime]). *)
Definition oldestStep (acc : option string * bound) (key : string)
  : M (option string * bound) :=
  try_catch
    (data <- getItem (slot key) ;;
     match data with
     | Some text =>
         if truthy text then
           cached <- JSON_parse text ;;
           if ltBound (timestampOf cached) (snd acc)
           then ret (Some key,
                     match timestampOf cached with
                     | Some t => Finite t
                     | None => snd acc
                     end)
           else ret acc
         else ret acc
     | None => ret acc
     end)
    (fun error => console (FailedToCheck key) ;;; ret acc).

Definition evictOldestDiagnosis : M unit :=
  index <- getDiagnosisCacheIndex ;;
  ks <- asArray index ;;
  oldest <- foldM oldestStep ks (None, Infinity) ;;
  match fst oldest with
  | Some oldestKey =>
      if bool_decide (oldestKey = EmptyString) then ret tt
      else console (EvictingOldest oldestKey) ;;;
           deleteCachedDiagnosis oldestKey ;;;
           ret tt
  | None => ret tt
  end.

(** [while (isDiagnosisCacheFull()) evictOldestDiagnosis();] run for at
    most [fuel] rounds; a loop still full after that is reported as
    [Hang]. *)
Fixpoint evictWhileFull (fuel : nat) : M unit :=
  full <- isDiagnosisCacheFull ;;
  if full then
    match fuel with
    | O => hang
    | S fuel' => evictOldestDiagnosis ;;; evictWhileFull fuel'
    end
  else ret tt.

(** A round that evicts nothing leaves the storage as it was, so the loop
    ends within one round per indexed key or never ends. *)
Definition indexLength (s : gmap string item) : nat :=
  match s !! DIAGNOSIS_CACHE_INDEX_KEY with
  | Some (Keys ks) => length ks
  | _ => O
  end.

Definition loopBound : M nat := fun w => (Ret (S (indexLength (storage w))), w).

(** *** Expiry Sweeper *)

(** The body of the sweep. *)
Definition sweepStep (clearedCount : nat) (key : string) : M nat :=
  try_catch
    (data <- getItem (slot key) ;;
     match data with
     | Some text =>
         if truthy text then
           cached <- JSON_parse text ;;
           now <- Date_now ;;
           if gtField now (expiresAtOf cached) then
             deleteCachedDiagnosis key ;;;
             ret (S clearedCount)
           else ret clearedCount
         else ret clearedCount
     | None => ret clearedCount
     end)
    (fun error => console (FailedToCheck key) ;;; ret clearedCount).

Definition clearExpiredDiagnoses : M nat :=
  win <- hasWindow ;;
  if negb win then ret O else
  index <- getDiagnosisCacheIndex ;;
  ks <- asArray index ;;
  clearedCount <- foldM sweepStep ks O ;;
  console (Cleared clearedCount) ;;;
  ret clearedCount.

(** *** Entry Store: put *)

(** The statements that the first attempt and the retry both run: read the
    clock, build the record, write it, register the key. *)
Definition writeEntry (organ imageHash cacheKey : string) (d : OrganDiagnosis) : M unit :=
  now <- Date_now ;;
  let expires := now + EXPIRY_MS in
  let cachedDiagnosis := mkCached organ imageHash d now expires in
  setItem (slot cacheKey) (Entry cachedDiagnosis) ;;;
  addToDiagnosisCacheIndex cacheKey.

Definition cacheDiagnosis (organ imageData : string) (d : OrganDiagnosis) : M bool :=
  win <- hasWindow ;;
  if negb win then ret false else
  let imageHash := generateImageHash imageData in
  let cacheKey := imageHash in
  try_catch
    (fuel <- loopBound ;;
     evictWhileFull fuel ;;;
     writeEntry organ imageHash cacheKey d ;;;
     console (CachedOk cacheKey organ) ;;;
     ret true)
    (fun error =>
       console (FailedToCache error) ;;;
       match error with
       | DOMException QuotaExceededError =>
           console QuotaExceededClearing ;;;
           clearExpiredDiagnoses ;;;
           try_catch
             (writeEntry organ imageHash cacheKey d ;;;
              ret true)
             (fun retryError => console (FailedAfterCleanup retryError) ;;; ret false)
       | _ => ret false
       end).

(** *** Entry Store: get

    The declared result is [OrganDiagnosis | null]; a parsed value without
    a [diagnosis] field makes the function return [undefined]. *)
Inductive lookup :=
| Hit (d : OrganDiagnosis)
| Null
| Undefined.

Definition getCachedDiagnosis (imageData : string) : M lookup :=
  win <- hasWindow ;;
  if negb win then ret Null else
  let imageHash := generateImageHash imageData in
  let cacheKey := imageHash in
  try_catch
    (data <- getItem (slot cacheKey) ;;
     match data with
     | None => ret Null
     | Some text =>
         if negb (truthy text) then ret Null else
         cached <- JSON_parse text ;;
         now <- Date_now ;;
         if gtField now (expiresAtOf cached) then
           console (CacheExpired cacheKey) ;;;
           deleteCachedDiagnosis cacheKey ;;;
           ret Null
         else
           console (FoundCached cacheKey) ;;;
           ret (match diagnosisOf cached with
                | Some d => Hit d
                | None => Undefined
                end)
     end)
    (fun error => console (FailedToGet error) ;;; ret Null).

(** *** Listing

    An element of the listing is a record with its [cacheKey]. *)
Definition listed : Type := CachedDiagnosis * string.

(** The body of the loop of [getAllCachedDiagnoses].  A parsed value that
    has no [expiresAt] fails the test [Date.now() <= cached.expiresAt], so
    it is deleted like an expired record. *)
Definition loadStep (diagnoses : list listed) (key : string) : M (list listed) :=
  try_catch
    (data <- getItem (slot key) ;;
     match data with
     | Some text =>
         if truthy text then
           cached <- JSON_parse text ;;
           now <- Date_now ;;
           match cached with
           | JRecord c =>
               if now <=? expiresAt c then ret (diagnoses ++ [(c, key)])
               else deleteCachedDiagnosis key ;;; ret diagnoses
           | JArray _ => deleteCachedDiagnosis key ;;; ret diagnoses
           end
         else ret diagnoses
     | None => ret diagnoses
     end)
    (fun error => console (FailedToLoad key) ;;; ret diagnoses).

(** [diagnoses.sort((a, b) => b.timestamp - a.timestamp)]: a stable sort,
    greatest timestamp first. *)
Fixpoint insertNewest (x : listed) (l : list listed) : list listed :=
  match l with
  | [] => [x]
  | y :: l' =>
      if timestamp (fst y) <=? timestamp (fst x) then x :: l
      else y :: insertNewest x l'
  end.

Definition sortNewestFirst (l : list listed) : list listed :=
  foldr insertNewest [] l.

Definition getAllCachedDiagnoses : M (list listed) :=
  win <- hasWindow ;;
  if negb win then ret [] else
  index <- getDiagnosisCacheIndex ;;
  ks <- asArray index ;;
  diagnoses <- foldM loadStep ks [] ;;
  ret (sortNewestFirst diagnoses).

(** *** Clearing everything *)

Definition clearAllDiagnosisCache : M bool :=
  win <- hasWindow ;;
  if negb win then ret false else
  try_catch
    (index <- getDiagnosisCacheIndex ;;
     ks <- asArray index ;;
     foldM (fun _ key => removeItem (slot key)) ks tt ;;;
     removeItem DIAGNOSIS_CACHE_INDEX_KEY ;;;
     console ClearedAll ;;;
     ret true)
    (fun error => console (FailedToClear error) ;;; ret false).

(** *** Statistics

    [totalSizeMB] and [utilizationPercent] are floating-point roundings of
    the size: [Math.round(sizeMB * 100) / 100] and
    [Math.round((sizeMB / MAX_DIAGNOSIS_CACHE_SIZE_MB) * 100)].  Each is a
    function of the byte count, left to the arithmetic of the host. *)
Variable Number : Type.
Variable roundedMB : N -> Number.
Variable roundedPercent : N -> Number.

(** A value of the object [diagnosisCountByOrgan]: a number, or the text
    that [+ 1] makes of a value that is not one. *)
Inductive count :=
| Count (n : nat)
| NotANumber.

Record DiagnosisCacheStats := mkStats {
  totalDiagnoses : nat;
  totalSizeMB : Number;
  maxSizeMB : N;
  utilizationPercent : Number;
  oldestDiagnosisDate : option Z;
  newestDiagnosisDate : option Z;
  diagnosisCountByOrgan : gmap string count
}.

(** [stats.diagnosisCountByOrgan[organ] =
     (stats.diagnosisCountByOrgan[organ] || 0) + 1] on an object literal:
    a name that the object has not been given reads [undefined], unless
    [Object.prototype] defines it, and then it reads a function or an
    object; assigning a text to [__proto__] has no effect. *)
Definition countOrgan (counts : gmap string count) (organ : string) : gmap string count :=
  let old :=
    match counts !! organ with
    | Some v => v
    | None => if bool_decide (organ ∈ inheritedNames) then NotANumber else Count 0
    end in
  let new :=
    match old with
    | Count n => Count (S n)
    | NotANumber => NotANumber
    end in
  if bool_decide (organ = "__proto__"%string) then counts
  else <[organ := new]> counts.

Definition getDiagnosisCacheStats : M DiagnosisCacheStats :=
  diagnoses <- getAllCachedDiagnoses ;;
  sizeBytes <- getDiagnosisCacheSize ;;
  let empty :=
    mkStats (length diagnoses) (roundedMB sizeBytes) MAX_DIAGNOSIS_CACHE_SIZE_MB
      (roundedPercent sizeBytes) None None ∅ in
  match diagnoses with
  | [] => ret empty
  | first :: _ =>
      ret (mkStats (length diagnoses) (roundedMB sizeBytes) MAX_DIAGNOSIS_CACHE_SIZE_MB
             (roundedPercent sizeBytes)
             (Some (timestamp (fst (List.last diagnoses first))))
             (Some (timestamp (fst first)))
             (fold_left countOrgan (map (fun d => organName (fst d)) diagnoses) ∅))
  end.

End Cache.

Arguments mkCached {OrganDiagnosis}.
Arguments organName {OrganDiagnosis}.
Arguments imageHash {OrganDiagnosis}.
Arguments diagnosis {OrganDiagnosis}.
Arguments timestamp {OrganDiagnosis}.
Arguments expiresAt {OrganDiagnosis}.
Arguments Corrupt {OrganDiagnosis}.
Arguments Entry {OrganDiagnosis}.
Arguments Keys {OrganDiagnosis}.
Arguments JRecord {OrganDiagnosis}.
Arguments JArray {OrganDiagnosis}.
Arguments Console {OrganDiagnosis}.
Arguments SetItem {OrganDiagnosis}.
Arguments RemoveItem {OrganDiagnosis}.
Arguments mkWorld {OrganDiagnosis}.
Arguments window {OrganDiagnosis}.
Arguments storage {OrganDiagnosis}.
Arguments clock {OrganDiagnosis}.
Arguments faults {OrganDiagnosis}.
Arguments trace {OrganDiagnosis}.
Arguments emit {OrganDiagnosis}.
Arguments with_storage {OrganDiagnosis}.
Arguments with_faults {OrganDiagnosis}.
Arguments advance {OrganDiagnosis}.
Arguments Hit {OrganDiagnosis}.
Arguments Null {OrganDiagnosis}.
Arguments Undefined {OrganDiagnosis}.
Arguments M OrganDiagnosis A : clear implicits.
Arguments ret {OrganDiagnosis A}.
Arguments bind {OrganDiagnosis A B}.
Arguments throw {OrganDiagnosis A}.
Arguments hang {OrganDiagnosis A}.
Arguments try_catch {OrganDiagnosis A}.
Arguments foldM {OrganDiagnosis A B}.
Arguments hasWindow {OrganDiagnosis}.
Arguments Date_now {OrganDiagnosis}.
Arguments console {OrganDiagnosis}.
Arguments getItem {OrganDiagnosis}.
Arguments setItem {OrganDiagnosis}.
Arguments removeItem {OrganDiagnosis}.
Arguments truthy {OrganDiagnosis}.
Arguments JSON_parse {OrganDiagnosis}.
Arguments asArray {OrganDiagnosis}.
Arguments timestampOf {OrganDiagnosis}.
Arguments expiresAtOf {OrganDiagnosis}.
Arguments diagnosisOf {OrganDiagnosis}.
Arguments blobSize {OrganDiagnosis}.
Arguments getDiagnosisCacheIndex {OrganDiagnosis}.
Arguments updateDiagnosisCacheIndex {OrganDiagnosis}.
Arguments addToDiagnosisCacheIndex {OrganDiagnosis}.
Arguments removeFromDiagnosisCacheIndex {OrganDiagnosis}.
Arguments sizeStep {OrganDiagnosis}.
Arguments getDiagnosisCacheSize {OrganDiagnosis}.
Arguments isDiagnosisCacheFull {OrganDiagnosis}.
Arguments deleteCachedDiagnosis {OrganDiagnosis}.
Arguments oldestStep {OrganDiagnosis}.
Arguments evictOldestDiagnosis {OrganDiagnosis}.
Arguments evictWhileFull {OrganDiagnosis}.
Arguments indexLength {OrganDiagnosis}.
Arguments loopBound {OrganDiagnosis}.
Arguments sweepStep {OrganDiagnosis}.
Arguments clearExpiredDiagnoses {OrganDiagnosis}.
Arguments writeEntry {OrganDiagnosis}.
Arguments cacheDiagnosis {OrganDiagnosis}.
Arguments getCachedDiagnosis {OrganDiagnosis}.
Arguments listed OrganDiagnosis : clear implicits.
Arguments loadStep {OrganDiagnosis}.
Arguments insertNewest {OrganDiagnosis}.
Arguments sortNewestFirst {OrganDiagnosis}.
Arguments getAllCachedDiagnoses {OrganDiagnosis}.
Arguments clearAllDiagnosisCache {OrganDiagnosis}.
Arguments mkStats {Number}.
Arguments totalDiagnoses {Number}.
Arguments totalSizeMB {Number}.
Arguments maxSizeMB {Number}.
Arguments utilizationPercent {Number}.
Arguments oldestDiagnosisDate {Number}.
Arguments newestDiagnosisDate {Number}.
Arguments diagnosisCountByOrgan {Number}.
Arguments getDiagnosisCacheStats {OrganDiagnosis} recordBytes keysBytes {Number}.

(** The diagnosis cache of the source: 10 MB, 30 days. *)
Definition MAX_DIAGNOSIS_CACHE_BYTES : N :=
  (MAX_DIAGNOSIS_CACHE_SIZE_MB * 1024 * 1024)%N.
Definition DIAGNOSIS_CACHE_EXPIRY_MS : Z :=
  DIAGNOSIS_CACHE_EXPIRY_DAYS * 24 * 60 * 60 * 1000.

(** ** Storage keys *)

Lemma slot_inj (k1 k2 : string) : slot k1 = slot k2 -> k1 = k2.
Proof. unfold slot. apply (inj (String.app DIAGNOSIS_CACHE_PREFIX)). Qed.

Lemma slot_index (k : string) :
  slot k = DIAGNOSIS_CACHE_INDEX_KEY <-> k = "index"%string.
Proof.
  change DIAGNOSIS_CACHE_INDEX_KEY with (slot "index").
  split; [apply slot_inj | by intros ->].
Qed.

Lemma slot_ne (k1 k2 : string) : k1 <> k2 -> slot k1 <> slot k2.
Proof. intros H E. by apply H, slot_inj. Qed.

Lemma slot_not_index (k : string) :
  k <> "index"%string -> slot k <> DIAGNOSIS_CACHE_INDEX_KEY.
Proof. intros H E. by apply H, slot_index. Qed.

(** ** Reasoning about computations *)

Section Invariants.

Context {D : Type}.

(** A property of the world that a computation never breaks, whatever its
    outcome. *)
Definition Inv {A} (P : World D -> Prop) (m : M D A) : Prop :=
  forall w, P w -> P (snd (m w)).

Lemma Inv_ret {A} P (a : A) : Inv P (ret a).
Proof. by intros w Hw. Qed.

Lemma Inv_throw {A} P e : Inv P (throw (A := A) e).
Proof. by intros w Hw. Qed.

Lemma Inv_hang {A} P : Inv P (hang (A := A)).
Proof. by intros w Hw. Qed.

Lemma Inv_bind {A B} P (m : M D A) (k : A -> M D B) :
  Inv P m -> (forall a, Inv P (k a)) -> Inv P (bind m k).
Proof.
  intros Hm Hk w Hw. unfold bind. specialize (Hm w Hw).
  destruct (m w) as [[a|e|] w']; simpl in *; auto. by apply Hk.
Qed.

Lemma Inv_try_catch {A} P (m : M D A) (h : exn -> M D A) :
  Inv P m -> (forall e, Inv P (h e)) -> Inv P (try_catch m h).
Proof.
  intros Hm Hh w Hw. unfold try_catch. specialize (Hm w Hw).
  destruct (m w) as [[a|e|] w']; simpl in *; auto. by apply Hh.
Qed.

Lemma Inv_foldM {A B} P (f : B -> A -> M D B) (l : list A) (b : B) :
  (forall b a, Inv P (f b a)) -> Inv P (foldM f l b).
Proof.
  intros Hf. revert b. induction l as [|a l IH]; intros b; simpl.
  - apply Inv_ret.
  - apply Inv_bind; [apply Hf | apply IH].
Qed.

Lemma Inv_hasWindow P : Inv P hasWindow.
Proof. by intros w Hw. Qed.

Lemma Inv_Date_now P : Inv P Date_now.
Proof. by intros w Hw. Qed.

Lemma Inv_getItem P key : Inv P (getItem key).
Proof. by intros w Hw. Qed.

Lemma Inv_JSON_parse P (text : item D) : Inv P (JSON_parse text).
Proof. destruct text; by intros w Hw. Qed.

Lemma Inv_asArray P (v : json D) : Inv P (asArray v).
Proof. destruct v; by intros w Hw. Qed.

Lemma Inv_loopBound P : Inv P loopBound.
Proof. by intros w Hw. Qed.

Lemma Inv_console P m :
  (forall w, P w -> P (emit (Console m) w)) -> Inv P (console m).
Proof. intros H w Hw. by apply H. Qed.

Lemma Inv_setItem P key value :
  (forall w r, P w ->
     P (emit (SetItem key value (Some r)) (with_faults (tail (faults w)) w))) ->
  (forall w, P w ->
     P (emit (SetItem key value None)
          (with_faults (tail (faults w))
             (with_storage (<[key := value]> (storage w)) w)))) ->
  Inv P (setItem key value).
Proof.
  intros Hrej Hacc w Hw. unfold setItem.
  specialize (Hrej w). specialize (Hacc w Hw).
  destruct (faults w) as [|[r|] rest] eqn:E; simpl in *; auto.
  destruct w; simpl in *. by subst.
Qed.

Lemma Inv_removeItem P key :
  (forall w, P w ->
     P (emit (RemoveItem key) (with_storage (delete key (storage w)) w))) ->
  Inv P (removeItem key).
Proof. intros H w Hw. by apply H. Qed.

End Invariants.

(** Syntax-directed decomposition of an [Inv] goal. *)
Ltac inv_step :=
  match goal with
  | |- Inv _ (bind _ _) => apply Inv_bind; [| intros ?]
  | |- Inv _ (try_catch _ _) => apply Inv_try_catch; [| intros ?]
  | |- Inv _ (foldM _ _ _) => apply Inv_foldM; intros ? ?
  | |- Inv _ (ret _) => apply Inv_ret
  | |- Inv _ (throw _) => apply Inv_throw
  | |- Inv _ hang => apply Inv_hang
  | |- Inv _ hasWindow => apply Inv_hasWindow
  | |- Inv _ Date_now => apply Inv_Date_now
  | |- Inv _ (getItem _) => apply Inv_getItem
  | |- Inv _ (JSON_parse _) => apply Inv_JSON_parse
  | |- Inv _ (asArray _) => apply Inv_asArray
  | |- Inv _ loopBound => apply Inv_loopBound
  | |- Inv _ (if ?b then _ else _) => destruct b
  | |- Inv _ (match ?x with _ => _ end) => destruct x
  end.

Section Frame.

Context {D : Type}.
Variable recordBytes : CachedDiagnosis D -> N.
Variable keysBytes : list string -> N.
Variable MAX_BYTES : N.
Variable EXPIRY_MS : Z.

(** No operation touches [window] or the clock. *)
Definition frame (b : bool) (t : Z) (w : World D) : Prop :=
  window w = b /\ clock w = t.

Ltac frame_prim :=
  first [ apply Inv_console | apply Inv_setItem | apply Inv_removeItem ];
  intros; assumption.

Ltac frame_auto := repeat inv_step; try frame_prim.

Lemma frame_getDiagnosisCacheIndex b t : Inv (frame b t) (getDiagnosisCacheIndex (OrganDiagnosis := D)).
Proof. unfold getDiagnosisCacheIndex. frame_auto. Qed.

Lemma frame_updateDiagnosisCacheIndex b t ks :
  Inv (frame b t) (updateDiagnosisCacheIndex (OrganDiagnosis := D) ks).
Proof. unfold updateDiagnosisCacheIndex. frame_auto. Qed.

Lemma frame_addToDiagnosisCacheIndex b t key :
  Inv (frame b t) (addToDiagnosisCacheIndex (OrganDiagnosis := D) key).
Proof.
  unfold addToDiagnosisCacheIndex. frame_auto;
    auto using frame_getDiagnosisCacheIndex, frame_updateDiagnosisCacheIndex.
Qed.

Lemma frame_removeFromDiagnosisCacheIndex b t key :
  Inv (frame b t) (removeFromDiagnosisCacheIndex (OrganDiagnosis := D) key).
Proof.
  unfold removeFromDiagnosisCacheIndex. frame_auto;
    auto using frame_getDiagnosisCacheIndex, frame_updateDiagnosisCacheIndex.
Qed.

Lemma frame_getDiagnosisCacheSize b t :
  Inv (frame b t) (getDiagnosisCacheSize recordBytes keysBytes).
Proof.
  unfold getDiagnosisCacheSize. frame_auto; auto using frame_getDiagnosisCacheIndex.
  unfold sizeStep. frame_auto.
Qed.

Lemma frame_isDiagnosisCacheFull b t :
  Inv (frame b t) (isDiagnosisCacheFull recordBytes keysBytes MAX_BYTES).
Proof.
  unfold isDiagnosisCacheFull. frame_auto; auto using frame_getDiagnosisCacheSize.
Qed.

Lemma frame_deleteCachedDiagnosis b t key :
  Inv (frame b t) (deleteCachedDiagnosis (OrganDiagnosis := D) key).
Proof.
  unfold deleteCachedDiagnosis. frame_auto;
    auto using frame_removeFromDiagnosisCacheIndex.
Qed.

Lemma frame_evictOldestDiagnosis b t :
  Inv (frame b t) (evictOldestDiagnosis (OrganDiagnosis := D)).
Proof.
  unfold evictOldestDiagnosis. frame_auto;
    auto using frame_getDiagnosisCacheIndex, frame_deleteCachedDiagnosis.
  unfold oldestStep. frame_auto.
Qed.

Lemma frame_evictWhileFull b t fuel :
  Inv (frame b t) (evictWhileFull recordBytes keysBytes MAX_BYTES fuel).
Proof.
  induction fuel as [|fuel IH]; simpl; frame_auto;
    auto using frame_isDiagnosisCacheFull, frame_evictOldestDiagnosis.
Qed.

Lemma frame_sweepStep b t n key :
  Inv (frame b t) (sweepStep (OrganDiagnosis := D) n key).
Proof. unfold sweepStep. frame_auto; auto using frame_deleteCachedDiagnosis. Qed.

Lemma frame_clearExpiredDiagnoses b t :
  Inv (frame b t) (clearExpiredDiagnoses (OrganDiagnosis := D)).
Proof.
  unfold clearExpiredDiagnoses. frame_auto;
    auto using frame_getDiagnosisCacheIndex, frame_sweepStep.
Qed.

Lemma frame_writeEntry b t organ hash key d :
  Inv (frame b t) (writeEntry EXPIRY_MS organ hash key d).
Proof.
  unfold writeEntry. frame_auto; auto using frame_addToDiagnosisCacheIndex.
Qed.

Lemma frame_cacheDiagnosis b t organ image d :
  Inv (frame b t)
    (cacheDiagnosis recordBytes keysBytes MAX_BYTES EXPIRY_MS organ image d).
Proof.
  unfold cacheDiagnosis. frame_auto;
    auto using frame_evictWhileFull, frame_writeEntry, frame_clearExpiredDiagnoses.
Qed.

Lemma frame_getCachedDiagnosis b t image :
  Inv (frame b t) (getCachedDiagnosis (OrganDiagnosis := D) image).
Proof.
  unfold getCachedDiagnosis. frame_auto; auto using frame_deleteCachedDiagnosis.
Qed.

End Frame.


(** ** What the operations do to the storage *)

Section Effects.

Context {D : Type}.
Variable recordBytes : CachedDiagnosis D -> N.
Variable keysBytes : list string -> N.
Variable MAX_BYTES : N.
Variable EXPIRY_MS : Z.

Implicit Types (w : World D) (s : gmap string (item D)).

(** [w'] differs from [w] by console output at most. *)
Definition same (w w' : World D) : Prop :=
  window w' = window w /\ clock w' = clock w /\
  storage w' = storage w /\ faults w' = faults w.

Lemma same_refl w : same w w.
Proof. by repeat split. Qed.

Lemma same_emit w w' e : same w w' -> same w (emit e w').
Proof. by intros (?&?&?&?). Qed.

(** Inversion of a computation that returned. *)
Lemma bind_Ret {A B} (m : M D A) (k : A -> M D B) w b w' :
  bind m k w = (Ret b, w') ->
  exists a w1, m w = (Ret a, w1) /\ k a w1 = (Ret b, w').
Proof.
  unfold bind. destruct (m w) as [[a|e|] w1]; intros H; try discriminate.
  by exists a, w1.
Qed.

Lemma bind_Throw {A B} (m : M D A) (k : A -> M D B) w e w' :
  bind m k w = (Throw e, w') ->
  m w = (Throw e, w') \/ exists a w1, m w = (Ret a, w1) /\ k a w1 = (Throw e, w').
Proof.
  unfold bind. destruct (m w) as [[a|e1|] w1]; intros H; try discriminate.
  - right. by exists a, w1.
  - left. by simplify_eq.
Qed.

Lemma try_catch_Ret {A} (m : M D A) (h : exn -> M D A) w a w' :
  try_catch m h w = (Ret a, w') ->
  m w = (Ret a, w') \/ exists e w1, m w = (Throw e, w1) /\ h e w1 = (Ret a, w').
Proof.
  unfold try_catch. destruct (m w) as [[a1|e|] w1]; intros H; try discriminate.
  - left. by simplify_eq.
  - right. by exists e, w1.
Qed.

(** Forward steps. *)
Lemma bind_eq {A B} (m : M D A) (k : A -> M D B) w a w1 :
  m w = (Ret a, w1) -> bind m k w = k a w1.
Proof. unfold bind. by intros ->. Qed.

Lemma bind_Throw_eq {A B} (m : M D A) (k : A -> M D B) w e w1 :
  m w = (Throw e, w1) -> bind m k w = (Throw e, w1).
Proof. unfold bind. by intros ->. Qed.

Lemma bind_Hang_eq {A B} (m : M D A) (k : A -> M D B) w w1 :
  m w = (Hang, w1) -> bind m k w = (Hang, w1).
Proof. unfold bind. by intros ->. Qed.

Lemma try_catch_eq {A} (m : M D A) (h : exn -> M D A) w a w1 :
  m w = (Ret a, w1) -> try_catch m h w = (Ret a, w1).
Proof. unfold try_catch. by intros ->. Qed.

Lemma try_catch_Throw_eq {A} (m : M D A) (h : exn -> M D A) w e w1 :
  m w = (Throw e, w1) -> try_catch m h w = h e w1.
Proof. unfold try_catch. by intros ->. Qed.

Lemma try_catch_Hang_eq {A} (m : M D A) (h : exn -> M D A) w w1 :
  m w = (Hang, w1) -> try_catch m h w = (Hang, w1).
Proof. unfold try_catch. by intros ->. Qed.

Lemma Inv_at {A} P (m : M D A) w r w' : Inv P m -> P w -> m w = (r, w') -> P w'.
Proof. intros H Hw E. specialize (H w Hw). by rewrite E in H. Qed.

(** The value the index reads as. *)
Definition indexValue s : json D :=
  match s !! DIAGNOSIS_CACHE_INDEX_KEY with
  | Some (Entry c) => JRecord c
  | Some (Keys ks) => JArray ks
  | _ => JArray []
  end.

Definition indexKeys s : list string :=
  match s !! DIAGNOSIS_CACHE_INDEX_KEY with
  | Some (Keys ks) => ks
  | _ => []
  end.

(** The index slot does not hold a record (which it does once an image
    whose fingerprint reads "index" has been stored). *)
Definition readable s : Prop :=
  forall c, s !! DIAGNOSIS_CACHE_INDEX_KEY <> Some (Entry c).

Lemma indexValue_readable s : readable s -> indexValue s = JArray (indexKeys s).
Proof.
  unfold readable, indexValue, indexKeys. intros H.
  destruct (s !! DIAGNOSIS_CACHE_INDEX_KEY) as [[| c |]|] eqn:E; try done.
  by destruct (H c).
Qed.

Lemma getDiagnosisCacheIndex_spec w :
  window w = true ->
  exists w', getDiagnosisCacheIndex w = (Ret (indexValue (storage w)), w') /\ same w w'.
Proof.
  intros Hwin. unfold getDiagnosisCacheIndex, indexValue, bind, hasWindow, try_catch, getItem.
  rewrite Hwin. simpl.
  destruct (storage w !! DIAGNOSIS_CACHE_INDEX_KEY) as [[n | c | ks]|] eqn:E; simpl.
  - destruct (negb (n =? 0)%N); simpl; (eexists; split; [done|]);
      first [apply same_refl | apply same_emit, same_refl].
  - eexists; split; [done | apply same_refl].
  - eexists; split; [done | apply same_refl].
  - eexists; split; [done | apply same_refl].
Qed.

Lemma getDiagnosisCacheIndex_nowindow w :
  window w = false -> getDiagnosisCacheIndex w = (Ret (JArray []), w).
Proof. intros H. unfold getDiagnosisCacheIndex, bind, hasWindow. by rewrite H. Qed.

(** Writing the index: the write is accepted or the rejection is
    swallowed. *)
Lemma updateDiagnosisCacheIndex_spec ks w :
  window w = true ->
  exists w', updateDiagnosisCacheIndex ks w = (Ret tt, w') /\
    window w' = true /\ clock w' = clock w /\ faults w' = tail (faults w) /\
    (storage w' = <[DIAGNOSIS_CACHE_INDEX_KEY := Keys ks]> (storage w) /\
       (forall r, head (faults w) <> Some (Some r))
     \/ storage w' = storage w /\ exists r, head (faults w) = Some (Some r)).
Proof.
  intros Hwin. unfold updateDiagnosisCacheIndex, bind, hasWindow, try_catch, setItem.
  rewrite Hwin. simpl.
  destruct (faults w) as [|[r|] rest] eqn:E; simpl;
    (eexists; split; [done|]); simpl; rewrite ?E; simpl.
  - split_and!; try done. left. split; [done|]. by intros r.
  - split_and!; try done. right. split; [done|]. by exists r.
  - split_and!; try done. left. split; [done|]. by intros r.
Qed.

Lemma updateDiagnosisCacheIndex_nowindow ks w :
  window w = false -> updateDiagnosisCacheIndex ks w = (Ret tt, w).
Proof. intros H. unfold updateDiagnosisCacheIndex, bind, hasWindow. by rewrite H. Qed.

(** *** Properties that survive index maintenance

    Index maintenance, eviction and the steps of the sweep log no write of
    a record and no end of sweep: their events are [quiet].  [Stable P]:
    [P] does not look at quiet events, the pending faults or the index
    slot when that slot receives a key array. *)
Definition quiet (e : event D) : bool :=
  match e with
  | Console (Cleared _) => false
  | SetItem _ (Entry _) _ => false
  | _ => true
  end.

Record Stable (P : World D -> Prop) : Prop := mkStable {
  stable_emit : forall w e, quiet e = true -> P w -> P (emit e w);
  stable_faults : forall w f, P w -> P (with_faults f w);
  stable_index : forall w ks, P w ->
    P (with_storage (<[DIAGNOSIS_CACHE_INDEX_KEY := Keys ks]> (storage w)) w)
}.

(** [P] survives the removal of the record of [key]. *)
Definition SurvivesDelete (P : World D -> Prop) (key : string) : Prop :=
  forall w, P w -> P (with_storage (delete (slot key) (storage w)) w).

Section StableOps.

Variable P : World D -> Prop.
Hypothesis HP : Stable P.

Lemma Stable_console m : quiet (Console m) = true -> Inv P (console m).
Proof using HP. intros Hq. apply Inv_console. intros. by apply stable_emit. Qed.

Lemma Stable_setIndex ks : Inv P (setItem DIAGNOSIS_CACHE_INDEX_KEY (Keys ks)).
Proof using HP.
  apply Inv_setItem; intros.
  - by apply stable_emit, stable_faults.
  - apply stable_emit; [done | done |].
    apply (stable_faults P HP (with_storage _ w)). by apply stable_index.
Qed.

Lemma Stable_getDiagnosisCacheIndex : Inv P getDiagnosisCacheIndex.
Proof using HP. unfold getDiagnosisCacheIndex. repeat inv_step; by apply Stable_console. Qed.

Lemma Stable_updateDiagnosisCacheIndex ks : Inv P (updateDiagnosisCacheIndex ks).
Proof using HP.
  unfold updateDiagnosisCacheIndex. repeat inv_step;
    auto using Stable_console, Stable_setIndex.
Qed.

Lemma Stable_addToDiagnosisCacheIndex key : Inv P (addToDiagnosisCacheIndex key).
Proof using HP.
  unfold addToDiagnosisCacheIndex. repeat inv_step;
    auto using Stable_getDiagnosisCacheIndex, Stable_updateDiagnosisCacheIndex.
Qed.

Lemma Stable_removeFromDiagnosisCacheIndex key :
  Inv P (removeFromDiagnosisCacheIndex key).
Proof using HP.
  unfold removeFromDiagnosisCacheIndex. repeat inv_step;
    auto using Stable_getDiagnosisCacheIndex, Stable_updateDiagnosisCacheIndex.
Qed.

Lemma Stable_sizeStep n key : Inv P (sizeStep recordBytes keysBytes n key).
Proof using HP. unfold sizeStep. repeat inv_step; auto using Stable_console. Qed.

Lemma Stable_getDiagnosisCacheSize : Inv P (getDiagnosisCacheSize recordBytes keysBytes).
Proof using HP.
  unfold getDiagnosisCacheSize. repeat inv_step;
    auto using Stable_getDiagnosisCacheIndex, Stable_sizeStep.
Qed.

Lemma Stable_isDiagnosisCacheFull :
  Inv P (isDiagnosisCacheFull recordBytes keysBytes MAX_BYTES).
Proof using HP.
  unfold isDiagnosisCacheFull. repeat inv_step; auto using Stable_getDiagnosisCacheSize.
Qed.

Lemma Stable_deleteCachedDiagnosis key :
  SurvivesDelete P key -> Inv P (deleteCachedDiagnosis key).
Proof using HP.
  intros Hdel. unfold deleteCachedDiagnosis. repeat inv_step;
    auto using Stable_console, Stable_removeFromDiagnosisCacheIndex.
  apply Inv_removeItem. intros w Hw. apply stable_emit; [done | done |]. by apply Hdel.
Qed.

Lemma Stable_sweepStep n key : SurvivesDelete P key -> Inv P (sweepStep n key).
Proof using HP.
  intros Hdel. unfold sweepStep. repeat inv_step;
    auto using Stable_console, Stable_deleteCachedDiagnosis.
Qed.

Hypothesis HPdel : forall key, SurvivesDelete P key.

Lemma Stable_oldestStep acc key : Inv P (oldestStep acc key).
Proof using HP. unfold oldestStep. repeat inv_step; auto using Stable_console. Qed.

Lemma Stable_evictOldestDiagnosis : Inv P evictOldestDiagnosis.
Proof using HP HPdel.
  unfold evictOldestDiagnosis. repeat inv_step;
    auto using Stable_console, Stable_getDiagnosisCacheIndex,
      Stable_deleteCachedDiagnosis, Stable_oldestStep.
Qed.

Lemma Stable_evictWhileFull fuel :
  Inv P (evictWhileFull recordBytes keysBytes MAX_BYTES fuel).
Proof using HP HPdel.
  induction fuel as [|fuel IH]; simpl; repeat inv_step;
    auto using Stable_isDiagnosisCacheFull, Stable_evictOldestDiagnosis.
Qed.

(** The sweep ends with its own event, which [P] must not look at
    either. *)
Lemma Stable_clearExpiredDiagnoses :
  (forall w n, P w -> P (emit (Console (Cleared n)) w)) ->
  Inv P clearExpiredDiagnoses.
Proof using HP HPdel.
  intros Hcleared. unfold clearExpiredDiagnoses. repeat inv_step;
    auto using Stable_getDiagnosisCacheIndex, Stable_sweepStep.
  apply Inv_console. auto.
Qed.

End StableOps.

(** The slot [k] holds no record. *)
Definition noEntry (k : string) (w : World D) : Prop :=
  forall c, storage w !! k <> Some (Entry c).

Lemma noEntry_Stable k : Stable (noEntry k).
Proof.
  split; unfold noEntry; simpl; auto.
  intros w ks H c. destruct (decide (k = DIAGNOSIS_CACHE_INDEX_KEY)) as [->|Hne].
  - by rewrite lookup_insert_eq.
  - rewrite lookup_insert_ne; auto.
Qed.


(** The slot [k], which is not the index slot, holds [v]. *)
Definition holds (k : string) (v : item D) (w : World D) : Prop :=
  storage w !! k = Some v.

Lemma holds_Stable k v : k <> DIAGNOSIS_CACHE_INDEX_KEY -> Stable (holds k v).
Proof.
  intros Hne. split; unfold holds; simpl; auto.
  intros w ks H. rewrite lookup_insert_ne; auto.
Qed.


End Effects.


(** ** Store and lookup *)

Section StoreLookup.

Context {D : Type}.
Variable recordBytes : CachedDiagnosis D -> N.
Variable keysBytes : list string -> N.
Variable MAX_BYTES : N.
Variable EXPIRY_MS : Z.

Implicit Types (w : World D) (s : gmap string (item D)).

Abbreviation cacheDiagnosis' := (cacheDiagnosis recordBytes keysBytes MAX_BYTES EXPIRY_MS).

(** The record that a store of [d] under [organ] writes at time [t]. *)
Definition recordOf (organ image : string) (d : D) (t : Z) : CachedDiagnosis D :=
  mkCached organ (generateImageHash image) d t (t + EXPIRY_MS).

Lemma setItem_Ret key (v : item D) w w' :
  setItem key v w = (Ret tt, w') ->
  storage w' = <[key := v]> (storage w) /\ window w' = window w /\ clock w' = clock w.
Proof.
  unfold setItem. destruct (faults w) as [|[r|] rest]; intros H; by simplify_eq.
Qed.

Lemma setItem_Throw key (v : item D) w e w' :
  setItem key v w = (Throw e, w') ->
  storage w' = storage w /\ window w' = window w /\ clock w' = clock w /\
  exists r, e = DOMException r.
Proof.
  unfold setItem. destruct (faults w) as [|[r|] rest]; intros H; simplify_eq.
  simpl. eauto.
Qed.

(** Registering a key never disturbs a stored record: when the record
    sits in the index slot itself, reading the index as an array throws
    before anything is written. *)
Lemma addToDiagnosisCacheIndex_holds k (c : CachedDiagnosis D) key :
  Inv (holds k (Entry c)) (addToDiagnosisCacheIndex key).
Proof.
  destruct (decide (k = DIAGNOSIS_CACHE_INDEX_KEY)) as [->|Hne].
  - intros w H. unfold addToDiagnosisCacheIndex.
    destruct (window w) eqn:Hwin.
    + destruct (getDiagnosisCacheIndex_spec w Hwin) as (w1 & E1 & _ & _ & Hs & _).
      rewrite (bind_eq _ _ _ _ _ E1). unfold indexValue. rewrite H. simpl.
      unfold holds in *. by rewrite Hs.
    + rewrite (bind_eq _ _ _ _ _ (getDiagnosisCacheIndex_nowindow w Hwin)). simpl.
      unfold bind, ret. simpl. by rewrite updateDiagnosisCacheIndex_nowindow.
  - by apply Stable_addToDiagnosisCacheIndex, holds_Stable.
Qed.

Lemma writeEntry_Ret organ hash key d w w' :
  writeEntry EXPIRY_MS organ hash key d w = (Ret tt, w') ->
  holds (slot key) (Entry (mkCached organ hash d (clock w) (clock w + EXPIRY_MS))) w'.
Proof.
  unfold writeEntry. intros H.
  apply bind_Ret in H as (now & w1 & E1 & H). unfold Date_now in E1. simplify_eq.
  apply bind_Ret in H as ([] & w2 & E2 & H).
  apply setItem_Ret in E2 as (Hs & _ & _).
  eapply Inv_at; [apply addToDiagnosisCacheIndex_holds | | exact H].
  unfold holds. rewrite Hs. apply lookup_insert_eq.
Qed.

(** A store that reports success has written its record, stamped with the
    time of the call. *)
Lemma cacheDiagnosis_true organ image d w w' :
  cacheDiagnosis' organ image d w = (Ret true, w') ->
  window w = true /\ window w' = true /\ clock w' = clock w /\
  holds (slot (generateImageHash image)) (Entry (recordOf organ image d (clock w))) w'.
Proof.
  intros H.
  assert (Hfr : frame (window w) (clock w) w') .
  { eapply Inv_at; [apply frame_cacheDiagnosis | | exact H]. by split. }
  destruct Hfr as [Hw' Hc'].
  unfold cacheDiagnosis in H.
  apply bind_Ret in H as (win & w0 & E0 & H). unfold hasWindow in E0. simplify_eq.
  destruct (window w0) eqn:Hwin; simpl in H; [|discriminate].
  split_and!; try done.
  apply try_catch_Ret in H as [H | (e & w1 & Hbody & H)].
  - apply bind_Ret in H as (fuel & w1 & E1 & H). unfold loopBound in E1. simplify_eq.
    apply bind_Ret in H as ([] & w2 & E2 & H).
    apply bind_Ret in H as ([] & w3 & E3 & H).
    apply bind_Ret in H as ([] & w4 & E4 & H).
    unfold ret, console in *. simplify_eq.
    assert (Hc2 : clock w2 = clock w1).
    { eapply (Inv_at (frame (window w1) (clock w1))) in E2 as [_ ?];
        [done | apply frame_evictWhileFull | by split]. }
    apply writeEntry_Ret in E3. rewrite Hc2 in E3. exact E3.
  - assert (Hc1 : clock w1 = clock w0).
    { eapply (Inv_at (frame (window w0) (clock w0))) in Hbody as [_ ?]; [done| |by split].
      repeat inv_step; auto using frame_evictWhileFull, frame_writeEntry.
      apply Inv_console. by intros. }
    apply bind_Ret in H as ([] & w2 & E2 & H). unfold console in E2. simplify_eq.
    destruct e as [[|]| |]; try discriminate.
    apply bind_Ret in H as ([] & w3 & E3 & H). unfold console in E3. simplify_eq.
    apply bind_Ret in H as (n & w4 & E4 & H).
    assert (Hc4 : clock w4 = clock w0).
    { eapply (Inv_at (frame (window w1) (clock w1))) in E4 as [_ ?];
        [congruence | apply frame_clearExpiredDiagnoses | by split]. }
    apply try_catch_Ret in H as [H | (e & w5 & _ & H)].
    + apply bind_Ret in H as ([] & w5 & E5 & H). unfold ret in H. simplify_eq.
      apply writeEntry_Ret in E5. rewrite Hc4 in E5. exact E5.
    + apply bind_Ret in H as ([] & w6 & _ & H). discriminate.
Qed.

(** *** Lookup *)

Lemma deleteCachedDiagnosis_returns key w :
  exists b w', deleteCachedDiagnosis key w = (Ret b, w').
Proof.
  unfold deleteCachedDiagnosis, bind, hasWindow, try_catch. simpl.
  destruct (negb (window w)); simpl; [by eauto|].
  destruct (removeFromDiagnosisCacheIndex key _) as [[[]|e|] w1] eqn:E; simpl; eauto.
  exfalso. revert E. unfold removeFromDiagnosisCacheIndex, bind.
  destruct (getDiagnosisCacheIndex _) as [[v|e|] w2] eqn:E2; try discriminate.
  - destruct (asArray v w2) as [[ks|e|] w3] eqn:E3; try discriminate.
    + unfold updateDiagnosisCacheIndex, bind, hasWindow, try_catch. simpl.
      destruct (negb (window w3)); simpl; [discriminate|].
      unfold setItem. destruct (faults w3) as [|[r|] rest]; simpl; discriminate.
    + destruct v; simpl in E3; discriminate.
  - revert E2. unfold getDiagnosisCacheIndex, bind, hasWindow, try_catch, getItem. simpl.
    destruct (negb (window w)); simpl; [discriminate|].
    destruct (delete _ _ !! _) as [[n|c|ks]|]; simpl; try discriminate.
    destruct (negb (n =? 0)%N); discriminate.
Qed.

Lemma deleteCachedDiagnosis_after (P : World D -> Prop) key w :
  window w = true ->
  Stable P ->
  P (emit (RemoveItem (slot key)) (with_storage (delete (slot key) (storage w)) w)) ->
  P (snd (deleteCachedDiagnosis key w)).
Proof.
  intros Hwin HS H1. unfold deleteCachedDiagnosis.
  rewrite (bind_eq _ _ w (window w) w) by done. rewrite Hwin. simpl.
  set (w1 := emit _ _) in H1.
  set (rest := bind (removeFromDiagnosisCacheIndex key) _).
  set (h := fun error : exn => _).
  change (P (snd (try_catch rest h w1))).
  apply Inv_try_catch; [| |done].
  - unfold rest. repeat inv_step;
      auto using Stable_removeFromDiagnosisCacheIndex, Stable_console.
  - intros e. unfold h. repeat inv_step; auto using Stable_console.
Qed.

Lemma deleteCachedDiagnosis_noEntry key w :
  window w = true -> noEntry (slot key) (snd (deleteCachedDiagnosis key w)).
Proof.
  intros Hwin. apply deleteCachedDiagnosis_after; [done | apply noEntry_Stable |].
  intros c. simpl. by rewrite lookup_delete_eq.
Qed.

Lemma getCachedDiagnosis_fresh image (c : CachedDiagnosis D) w :
  window w = true ->
  holds (slot (generateImageHash image)) (Entry c) w ->
  clock w <= expiresAt c ->
  exists w', getCachedDiagnosis image w = (Ret (Hit (diagnosis c)), w') /\ same w w'.
Proof.
  intros Hwin Hc Ht. unfold getCachedDiagnosis.
  rewrite (bind_eq _ _ w (window w) w) by done. rewrite Hwin. simpl.
  unfold try_catch, bind, getItem, Date_now, console, ret. rewrite Hc. simpl.
  assert ((expiresAt c <? clock w) = false) as -> by lia.
  eexists. split; [done|]. apply same_emit, same_refl.
Qed.

Lemma getCachedDiagnosis_expired image (c : CachedDiagnosis D) w :
  window w = true ->
  holds (slot (generateImageHash image)) (Entry c) w ->
  expiresAt c < clock w ->
  exists w', getCachedDiagnosis image w = (Ret Null, w') /\
             noEntry (slot (generateImageHash image)) w'.
Proof.
  intros Hwin Hc Ht. unfold getCachedDiagnosis.
  rewrite (bind_eq _ _ w (window w) w) by done. rewrite Hwin. simpl.
  unfold try_catch, bind, getItem, Date_now, console, ret. rewrite Hc. simpl.
  assert ((expiresAt c <? clock w) = true) as -> by lia.
  set (w1 := emit _ w).
  pose proof (deleteCachedDiagnosis_noEntry (generateImageHash image) w1 Hwin) as Hno.
  destruct (deleteCachedDiagnosis_returns (generateImageHash image) w1) as (b & w2 & E).
  rewrite E in *. simpl in *. by exists w2.
Qed.

(** Store, then look up before the record expires. *)
Lemma cacheDiagnosis_then_getCachedDiagnosis organ image (d : D) w w1 t :
  cacheDiagnosis' organ image d w = (Ret true, w1) ->
  t <= clock w + EXPIRY_MS ->
  fst (getCachedDiagnosis image (advance t w1)) = Ret (Hit d).
Proof.
  intros Hstore Ht.
  apply cacheDiagnosis_true in Hstore as (_ & Hwin & _ & Hholds).
  destruct (getCachedDiagnosis_fresh image (recordOf organ image d (clock w))
              (advance t w1)) as (w2 & E & _); [done | done | simpl; lia |].
  by rewrite E.
Qed.

(** A hit is never stale: what lookup returns is the payload of the record
    in the slot, and that record has not expired. *)
Lemma getCachedDiagnosis_Hit image d w w' :
  getCachedDiagnosis image w = (Ret (Hit d), w') ->
  exists c, holds (slot (generateImageHash image)) (Entry c) w /\
            diagnosis c = d /\ clock w <= expiresAt c.
Proof.
  unfold getCachedDiagnosis. intros H.
  apply bind_Ret in H as (win & w0 & E0 & H). unfold hasWindow in E0. simplify_eq.
  destruct (negb (window w0)); [discriminate|].
  apply try_catch_Ret in H as [H | (e & w1 & _ & H)].
  - apply bind_Ret in H as (data & w1 & E1 & H). unfold getItem in E1. simplify_eq.
    destruct (storage w1 !! _) as [text|] eqn:Es; [|discriminate].
    destruct (negb (truthy text)); [discriminate|].
    apply bind_Ret in H as (cached & w2 & E2 & H).
    destruct text as [n|c|ks]; simpl in E2; try discriminate; unfold ret in E2; simplify_eq.
    apply bind_Ret in H as (now & w3 & E3 & H). unfold Date_now in E3. simplify_eq.
    simpl in H. destruct (expiresAt c <? clock w3) eqn:Ht.
    + apply bind_Ret in H as (? & ? & _ & H).
      apply bind_Ret in H as (? & ? & _ & H). discriminate.
    + apply bind_Ret in H as (? & ? & _ & H). unfold ret in H. simplify_eq.
      exists c. split_and!; [done | done | lia].
  - apply bind_Ret in H as (? & ? & _ & H). discriminate.
Qed.

(** *** A store writes records to its own slot only *)

(** Every record found in slot [k] was already there in [w0]. *)
Definition onlyOld (k : string) (w0 w : World D) : Prop :=
  forall c, holds k (Entry c) w -> holds k (Entry c) w0.

Lemma onlyOld_Stable k w0 : Stable (onlyOld k w0).
Proof.
  split; unfold onlyOld, holds; simpl; auto.
  intros w ks H c. destruct (decide (k = DIAGNOSIS_CACHE_INDEX_KEY)) as [->|Hne].
  - by rewrite lookup_insert_eq.
  - rewrite lookup_insert_ne; auto.
Qed.

Lemma onlyOld_SurvivesDelete k w0 key : SurvivesDelete (onlyOld k w0) key.
Proof.
  intros w H c. unfold holds. simpl. destruct (decide (k = slot key)) as [->|Hne].
  - by rewrite lookup_delete_eq.
  - rewrite lookup_delete_ne by done. apply H.
Qed.

Lemma onlyOld_writeEntry k w0 organ hash key d :
  k <> slot key -> Inv (onlyOld k w0) (writeEntry EXPIRY_MS organ hash key d).
Proof.
  intros Hne. pose proof (onlyOld_Stable k w0) as HS.
  unfold writeEntry. repeat inv_step; auto using Stable_addToDiagnosisCacheIndex.
  apply Inv_setItem; intros w.
  - intros r H. exact H.
  - intros H c. unfold holds. simpl. rewrite lookup_insert_ne by done. apply H.
Qed.

Lemma cacheDiagnosis_onlyOld k w0 organ image d :
  k <> slot (generateImageHash image) ->
  Inv (onlyOld k w0) (cacheDiagnosis' organ image d).
Proof.
  intros Hne. pose proof (onlyOld_Stable k w0) as HS.
  pose proof (onlyOld_SurvivesDelete k w0) as HD.
  unfold cacheDiagnosis. repeat inv_step;
    auto using Stable_console, Stable_evictWhileFull, Stable_clearExpiredDiagnoses,
      onlyOld_writeEntry.
Qed.

Lemma length_app (s1 s2 : string) :
  String.length (s1 +:+ s2) = (String.length s1 + String.length s2)%nat.
Proof.
  induction s1 as [|a s1 IH]; [done|].
  change (String a s1 +:+ s2) with (String a (s1 +:+ s2)). simpl. by rewrite IH.
Qed.

Lemma generateDiagnosisCacheKey_ne organ hash :
  generateDiagnosisCacheKey organ hash <> hash.
Proof.
  unfold generateDiagnosisCacheKey. intros E.
  apply (f_equal String.length) in E. rewrite !length_app in E. simpl in E. lia.
Qed.

End StoreLookup.


(** ** Delete and sweep *)

Section DeleteSweep.

Context {D : Type}.

Implicit Types (w : World D) (s : gmap string (item D)).

Lemma readable_delete s k : readable s -> readable (delete k s).
Proof.
  intros H c E. apply lookup_delete_Some in E as [_ E]. by apply (H c).
Qed.

Lemma readable_insert_Keys s ks :
  readable (<[DIAGNOSIS_CACHE_INDEX_KEY := Keys ks]> s).
Proof. intros c. by rewrite lookup_insert_eq. Qed.

Lemma indexKeys_insert s ks :
  indexKeys (<[DIAGNOSIS_CACHE_INDEX_KEY := Keys ks]> s) = ks.
Proof. unfold indexKeys. by rewrite lookup_insert_eq. Qed.


Lemma removeFromDiagnosisCacheIndex_spec key w :
  window w = true ->
  readable (storage w) ->
  exists w', removeFromDiagnosisCacheIndex key w = (Ret tt, w') /\
    window w' = true /\ clock w' = clock w /\ faults w' = tail (faults w) /\
    (storage w' = <[DIAGNOSIS_CACHE_INDEX_KEY :=
                      Keys (filter (fun k => k <> key) (indexKeys (storage w)))]> (storage w)
       /\ (forall r, head (faults w) <> Some (Some r))
     \/ storage w' = storage w /\ exists r, head (faults w) = Some (Some r)).
Proof.
  intros Hwin Hr. unfold removeFromDiagnosisCacheIndex.
  destruct (getDiagnosisCacheIndex_spec w Hwin) as (w1 & E1 & Hw1 & Hc1 & Hs1 & Hf1).
  rewrite (bind_eq _ _ _ _ _ E1), (indexValue_readable _ Hr). simpl.
  rewrite (bind_eq _ _ w1 (indexKeys (storage w)) w1) by done.
  destruct (updateDiagnosisCacheIndex_spec
              (filter (fun k => k <> key) (indexKeys (storage w))) w1)
    as (w2 & E2 & Hw2 & Hc2 & Hf2 & Hs2); [congruence|].
  exists w2. rewrite Hs1, Hf1 in *. split_and!; try done. congruence.
Qed.

Lemma deleteCachedDiagnosis_spec key w :
  window w = true ->
  readable (storage w) ->
  exists w', deleteCachedDiagnosis key w = (Ret true, w') /\
    window w' = true /\ clock w' = clock w /\ faults w' = tail (faults w) /\
    (storage w' = <[DIAGNOSIS_CACHE_INDEX_KEY :=
                      Keys (filter (fun k => k <> key)
                              (indexKeys (delete (slot key) (storage w))))]>
                    (delete (slot key) (storage w))
       /\ (forall r, head (faults w) <> Some (Some r))
     \/ storage w' = delete (slot key) (storage w)
        /\ exists r, head (faults w) = Some (Some r)).
Proof.
  intros Hwin Hr. unfold deleteCachedDiagnosis.
  rewrite (bind_eq _ _ w (window w) w) by done. rewrite Hwin. simpl.
  set (w1 := emit (RemoveItem (slot key)) (with_storage (delete (slot key) (storage w)) w)).
  destruct (removeFromDiagnosisCacheIndex_spec key w1)
    as (w2 & E2 & Hw2 & Hc2 & Hf2 & Hs2); [done | by apply readable_delete |].
  eexists. split.
  - apply try_catch_eq.
    rewrite (bind_eq _ _ w tt w1) by done.
    rewrite (bind_eq _ _ _ _ _ E2). reflexivity.
  - simpl. split_and!; try done.
Qed.


(** *** The sweep *)

Lemma sweepStep_returns n key w :
  exists n' w', sweepStep n key w = (Ret n', w').
Proof.
  unfold sweepStep, try_catch, bind, getItem, Date_now, console, ret. simpl.
  destruct (storage w !! slot key) as [[m|c|ks]|]; simpl; eauto.
  - destruct (negb (m =? 0)%N); simpl; eauto.
  - destruct (expiresAt c <? clock w); simpl; eauto.
    destruct (deleteCachedDiagnosis_returns key w) as (b & w' & ->). eauto.
Qed.

Lemma foldM_sweepStep_returns ks n w :
  exists n' w', foldM sweepStep ks n w = (Ret n', w').
Proof.
  revert n w. induction ks as [|k ks IH]; intros n w; simpl; [by eauto|].
  destruct (sweepStep_returns n k w) as (n1 & w1 & E1).
  rewrite (bind_eq _ _ _ _ _ E1). apply IH.
Qed.

Lemma clearExpiredDiagnoses_unfold w :
  window w = true ->
  readable (storage w) ->
  exists w1 n w2,
    getDiagnosisCacheIndex w = (Ret (JArray (indexKeys (storage w))), w1) /\
    same w w1 /\
    foldM sweepStep (indexKeys (storage w)) O w1 = (Ret n, w2) /\
    clearExpiredDiagnoses w = (Ret n, emit (Console (Cleared n)) w2).
Proof.
  intros Hwin Hr. unfold clearExpiredDiagnoses.
  rewrite (bind_eq _ _ w (window w) w) by done. rewrite Hwin. simpl.
  destruct (getDiagnosisCacheIndex_spec w Hwin) as (w1 & E1 & Hsame).
  rewrite (bind_eq _ _ _ _ _ E1), (indexValue_readable _ Hr). simpl.
  rewrite (bind_eq _ _ w1 (indexKeys (storage w)) w1) by done.
  destruct (foldM_sweepStep_returns (indexKeys (storage w)) O w1) as (n & w2 & E2).
  exists w1, n, w2. split_and!; try done.
  - by rewrite E1, (indexValue_readable _ Hr).
  - by rewrite (bind_eq _ _ _ _ _ E2).
Qed.








End DeleteSweep.


(** ** How a computation may end *)

Section Endings.

Context {D : Type}.

(** [Ends Q m]: when [m] does not return, it throws an [e] with
    [Q (Some e)], or hangs and [Q None]. *)
Definition Ends {A} (Q : option exn -> Prop) (m : M D A) : Prop :=
  forall w r w', m w = (r, w') ->
    match r with
    | Ret _ => True
    | Throw e => Q (Some e)
    | Hang => Q None
    end.

Definition never : option exn -> Prop := fun _ => False.
Definition noHang : option exn -> Prop := fun o => o <> None.
Definition typeErrorOnly : option exn -> Prop := fun o => o = Some TypeError.

Lemma Ends_weaken {A} (Q Q' : option exn -> Prop) (m : M D A) :
  Ends Q m -> (forall o, Q o -> Q' o) -> Ends Q' m.
Proof.
  intros H HQ w r w' E. specialize (H w r w' E). destruct r; auto.
Qed.

Lemma Ends_ret {A} Q (a : A) : Ends Q (ret (OrganDiagnosis := D) a).
Proof. intros w r w' E. unfold ret in E. by simplify_eq. Qed.

Lemma Ends_throw {A} (Q : option exn -> Prop) e :
  Q (Some e) -> Ends Q (throw (OrganDiagnosis := D) (A := A) e).
Proof. intros H w r w' E. unfold throw in E. by simplify_eq. Qed.

Lemma Ends_hang {A} (Q : option exn -> Prop) :
  Q None -> Ends Q (hang (OrganDiagnosis := D) (A := A)).
Proof. intros H w r w' E. unfold hang in E. by simplify_eq. Qed.

Lemma Ends_bind {A B} Q (m : M D A) (k : A -> M D B) :
  Ends Q m -> (forall a, Ends Q (k a)) -> Ends Q (bind m k).
Proof.
  intros Hm Hk w r w' E. unfold bind in E.
  destruct (m w) as [[a|e|] w1] eqn:Em.
  - by apply (Hk a w1 r w').
  - simplify_eq. apply (Hm w _ _ Em).
  - simplify_eq. apply (Hm w _ _ Em).
Qed.

(** A handler catches whatever the body throws; only a hang of the body
    passes through. *)
Lemma Ends_try_catch {A} Q (m : M D A) (h : exn -> M D A) :
  Ends noHang m -> (forall e, Ends Q (h e)) -> Ends Q (try_catch m h).
Proof.
  intros Hm Hh w r w' E. unfold try_catch in E.
  destruct (m w) as [[a|e|] w1] eqn:Em.
  - by simplify_eq.
  - by apply (Hh e w1 r w').
  - by destruct (Hm w _ _ Em).
Qed.

Lemma Ends_foldM {A B} Q (f : B -> A -> M D B) (l : list A) (b : B) :
  (forall b a, Ends Q (f b a)) -> Ends Q (foldM f l b).
Proof.
  intros Hf. revert b. induction l as [|a l IH]; intros b; simpl.
  - apply Ends_ret.
  - apply Ends_bind; [apply Hf | apply IH].
Qed.

Lemma Ends_hasWindow Q : Ends Q (hasWindow (OrganDiagnosis := D)).
Proof. intros w r w' E. unfold hasWindow in E. by simplify_eq. Qed.

Lemma Ends_Date_now Q : Ends Q (Date_now (OrganDiagnosis := D)).
Proof. intros w r w' E. unfold Date_now in E. by simplify_eq. Qed.

Lemma Ends_loopBound Q : Ends Q (loopBound (OrganDiagnosis := D)).
Proof. intros w r w' E. unfold loopBound in E. by simplify_eq. Qed.

Lemma Ends_getItem Q key : Ends Q (getItem (OrganDiagnosis := D) key).
Proof. intros w r w' E. unfold getItem in E. by simplify_eq. Qed.

Lemma Ends_console Q m : Ends Q (console (OrganDiagnosis := D) m).
Proof. intros w r w' E. unfold console in E. by simplify_eq. Qed.

Lemma Ends_removeItem Q key : Ends Q (removeItem (OrganDiagnosis := D) key).
Proof. intros w r w' E. unfold removeItem in E. by simplify_eq. Qed.

Lemma Ends_JSON_parse (Q : option exn -> Prop) (text : item D) :
  Q (Some SyntaxError) -> Ends Q (JSON_parse text).
Proof. intros H w r w' E. destruct text; simpl in E; unfold throw, ret in E; by simplify_eq. Qed.

Lemma Ends_asArray (Q : option exn -> Prop) (v : json D) :
  Q (Some TypeError) -> Ends Q (asArray v).
Proof. intros H w r w' E. destruct v; simpl in E; unfold throw, ret in E; by simplify_eq. Qed.

Lemma Ends_setItem (Q : option exn -> Prop) key (value : item D) :
  (forall name, Q (Some (DOMException name))) -> Ends Q (setItem key value).
Proof.
  intros H w r w' E. unfold setItem in E.
  destruct (faults w) as [|[name|] rest]; simplify_eq; auto.
Qed.

End Endings.

Ltac ends_step :=
  match goal with
  | |- Ends _ (bind _ _) => apply Ends_bind; [| intros ?]
  | |- Ends _ (try_catch _ _) => apply Ends_try_catch; [| intros ?]
  | |- Ends _ (foldM _ _ _) => apply Ends_foldM; intros ? ?
  | |- Ends _ (ret _) => apply Ends_ret
  | |- Ends _ hasWindow => apply Ends_hasWindow
  | |- Ends _ Date_now => apply Ends_Date_now
  | |- Ends _ loopBound => apply Ends_loopBound
  | |- Ends _ (getItem _) => apply Ends_getItem
  | |- Ends _ (console _) => apply Ends_console
  | |- Ends _ (removeItem _) => apply Ends_removeItem
  | |- Ends _ (JSON_parse _) => apply Ends_JSON_parse; try done
  | |- Ends _ (asArray _) => apply Ends_asArray; try done
  | |- Ends _ (setItem _ _) => apply Ends_setItem; try done
  | |- Ends _ (if ?b then _ else _) => destruct b
  | |- Ends _ (match ?x with _ => _ end) => destruct x
  end.

(** Use an ending already proved, weakened to the one asked for. *)
Ltac ends_by H :=
  eapply Ends_weaken; [apply H |
    let o := fresh "o" in let Ho := fresh "Ho" in
    unfold never, noHang, typeErrorOnly; intros o Ho;
    first [ contradiction | subst o; first [ discriminate | reflexivity | by left | by right ] ] ].

Section EndingsOfOperations.

Context {D : Type}.
Variable recordBytes : CachedDiagnosis D -> N.
Variable keysBytes : list string -> N.
Variable MAX_BYTES : N.
Variable EXPIRY_MS : Z.

Lemma Ends_getDiagnosisCacheIndex :
  Ends never (getDiagnosisCacheIndex (OrganDiagnosis := D)).
Proof. unfold getDiagnosisCacheIndex. repeat ends_step. Qed.

Lemma Ends_updateDiagnosisCacheIndex ks :
  Ends never (updateDiagnosisCacheIndex (OrganDiagnosis := D) ks).
Proof. unfold updateDiagnosisCacheIndex. repeat ends_step. Qed.

Lemma Ends_addToDiagnosisCacheIndex key :
  Ends typeErrorOnly (addToDiagnosisCacheIndex (OrganDiagnosis := D) key).
Proof.
  unfold addToDiagnosisCacheIndex. repeat ends_step;
    first [ends_by Ends_getDiagnosisCacheIndex | ends_by Ends_updateDiagnosisCacheIndex].
Qed.

Lemma Ends_removeFromDiagnosisCacheIndex key :
  Ends typeErrorOnly (removeFromDiagnosisCacheIndex (OrganDiagnosis := D) key).
Proof.
  unfold removeFromDiagnosisCacheIndex. repeat ends_step;
    first [ends_by Ends_getDiagnosisCacheIndex | ends_by Ends_updateDiagnosisCacheIndex].
Qed.

Lemma Ends_deleteCachedDiagnosis key :
  Ends never (deleteCachedDiagnosis (OrganDiagnosis := D) key).
Proof.
  unfold deleteCachedDiagnosis. repeat ends_step.
  ends_by Ends_removeFromDiagnosisCacheIndex.
Qed.

Lemma Ends_sizeStep n key : Ends never (sizeStep recordBytes keysBytes n key).
Proof. unfold sizeStep. repeat ends_step. Qed.

Lemma Ends_oldestStep acc key : Ends never (oldestStep (OrganDiagnosis := D) acc key).
Proof. unfold oldestStep. repeat ends_step. Qed.

Lemma Ends_sweepStep n key : Ends never (sweepStep (OrganDiagnosis := D) n key).
Proof. unfold sweepStep. repeat ends_step. ends_by Ends_deleteCachedDiagnosis. Qed.

Lemma Ends_getDiagnosisCacheSize :
  Ends typeErrorOnly (getDiagnosisCacheSize recordBytes keysBytes).
Proof.
  unfold getDiagnosisCacheSize. repeat ends_step;
    first [ends_by Ends_getDiagnosisCacheIndex | ends_by Ends_sizeStep].
Qed.

Lemma Ends_isDiagnosisCacheFull :
  Ends typeErrorOnly (isDiagnosisCacheFull recordBytes keysBytes MAX_BYTES).
Proof. unfold isDiagnosisCacheFull. repeat ends_step. apply Ends_getDiagnosisCacheSize. Qed.

Lemma Ends_evictOldestDiagnosis :
  Ends typeErrorOnly (evictOldestDiagnosis (OrganDiagnosis := D)).
Proof.
  unfold evictOldestDiagnosis. repeat ends_step;
    first [ends_by Ends_getDiagnosisCacheIndex | ends_by Ends_oldestStep
          | ends_by Ends_deleteCachedDiagnosis].
Qed.

(** The eviction loop returns, throws a [TypeError] (the index is not an
    array), or does not end. *)
Lemma Ends_evictWhileFull fuel :
  Ends (fun o => o = Some TypeError \/ o = None)
    (evictWhileFull recordBytes keysBytes MAX_BYTES fuel).
Proof.
  induction fuel as [|fuel IH]; simpl; repeat ends_step;
    first [ by apply Ends_hang; right
          | ends_by Ends_isDiagnosisCacheFull
          | ends_by Ends_evictOldestDiagnosis
          | apply IH ].
Qed.

Lemma Ends_clearExpiredDiagnoses :
  Ends typeErrorOnly (clearExpiredDiagnoses (OrganDiagnosis := D)).
Proof.
  unfold clearExpiredDiagnoses. repeat ends_step;
    first [ends_by Ends_getDiagnosisCacheIndex | ends_by Ends_sweepStep].
Qed.

(** Writing the record throws what the storage throws, or a [TypeError]
    from registering the key. *)
Lemma Ends_writeEntry organ hash key (d : D) :
  Ends (fun o => o = Some TypeError \/ exists name, o = Some (DOMException name))
    (writeEntry EXPIRY_MS organ hash key d).
Proof.
  unfold writeEntry. repeat ends_step; [by eauto|].
  ends_by Ends_addToDiagnosisCacheIndex.
Qed.

End EndingsOfOperations.


(** ** What a store does when a write is rejected *)

Section WriteFailure.

Context {D : Type}.
Variable recordBytes : CachedDiagnosis D -> N.
Variable keysBytes : list string -> N.
Variable MAX_BYTES : N.
Variable EXPIRY_MS : Z.

Implicit Types (w : World D) (tr : list (event D)).

(** The attempts to write the record of [key], most recent first, each
    with the storage's answer; the number of sweeps run to their end. *)
Definition isAttempt (key : string) (e : event D) : option (option dom_error) :=
  match e with
  | SetItem k (Entry _) rejected =>
      if decide (k = slot key) then Some rejected else None
  | _ => None
  end.

Definition attempts (key : string) tr : list (option dom_error) :=
  omap (isAttempt key) tr.

Definition isSweep (e : event D) : bool :=
  match e with Console (Cleared _) => true | _ => false end.

Fixpoint sweeps tr : nat :=
  match tr with
  | [] => O
  | e :: tr' => ((if isSweep e then 1 else 0) + sweeps tr')%nat
  end.

Definition seen (key : string) (a : list (option dom_error)) (n : nat) w : Prop :=
  attempts key (trace w) = a /\ sweeps (trace w) = n.

Lemma seen_emit_quiet key a n w e :
  quiet e = true -> seen key a n w -> seen key a n (emit e w).
Proof.
  intros Hq [Ha Hn]. unfold seen, attempts. simpl.
  destruct e as [[]| k [] r | k]; simpl in *; try done.
Qed.

Lemma seen_Stable key a n : Stable (seen key a n).
Proof. split; [apply seen_emit_quiet | done | done]. Qed.

Lemma seen_SurvivesDelete key a n k : SurvivesDelete (seen key a n) k.
Proof. by intros w H. Qed.

Lemma storage_getDiagnosisCacheSize s0 :
  Inv (fun w => storage w = s0) (getDiagnosisCacheSize recordBytes keysBytes).
Proof.
  unfold getDiagnosisCacheSize, getDiagnosisCacheIndex, sizeStep.
  repeat inv_step; apply Inv_console; by intros.
Qed.

(** When the size can be computed, the index reads as an array. *)
Lemma isDiagnosisCacheFull_Ret w b w' :
  window w = true ->
  isDiagnosisCacheFull recordBytes keysBytes MAX_BYTES w = (Ret b, w') ->
  readable (storage w) /\ storage w' = storage w.
Proof.
  intros Hwin H. unfold isDiagnosisCacheFull in H.
  apply bind_Ret in H as (n & w1 & E & H). unfold ret in H. simplify_eq.
  split.
  - unfold getDiagnosisCacheSize in E.
    apply bind_Ret in E as (win & w0 & E0 & E). unfold hasWindow in E0. simplify_eq.
    rewrite Hwin in E. simpl in E.
    apply bind_Ret in E as (v & w1 & E1 & E).
    destruct (getDiagnosisCacheIndex_spec w0 Hwin) as (w2 & E2 & _).
    rewrite E2 in E1. simplify_eq.
    apply bind_Ret in E as (ks & w3 & E3 & _).
    unfold indexValue in E3. intros c Hc. rewrite Hc in E3. discriminate.
  - by eapply (Inv_at _ _ _ _ _ (storage_getDiagnosisCacheSize (storage w))).
Qed.

Lemma evictWhileFull_readable fuel w w' :
  window w = true ->
  evictWhileFull recordBytes keysBytes MAX_BYTES fuel w = (Ret tt, w') ->
  readable (storage w').
Proof.
  revert w. induction fuel as [|fuel IH]; intros w Hwin H; simpl in H;
    apply bind_Ret in H as (full & w1 & E1 & H);
    pose proof (isDiagnosisCacheFull_Ret _ _ _ Hwin E1) as [Hr Hs];
    destruct full; try discriminate.
  - unfold ret in H. simplify_eq. by rewrite Hs.
  - apply bind_Ret in H as ([] & w2 & E2 & H).
    apply (IH w2); [|done].
    assert (Hfr : frame (window w) (clock w) w2).
    { eapply Inv_at; [apply frame_evictOldestDiagnosis | | exact E2].
      eapply Inv_at; [apply (frame_isDiagnosisCacheFull recordBytes keysBytes MAX_BYTES)
                     | | exact E1]. by split. }
    destruct Hfr as [-> _]. done.
  - unfold ret in H. simplify_eq. by rewrite Hs.
Qed.

(** One attempt to write the record. *)
Lemma writeEntry_cases organ hash key (d : D) a n w r w' :
  seen key a n w ->
  writeEntry EXPIRY_MS organ hash key d w = (r, w') ->
  (exists name, r = Throw (DOMException name) /\ seen key (Some name :: a) n w'
                /\ storage w' = storage w /\ window w' = window w)
  \/ ((r = Ret tt \/ r = Throw TypeError) /\ seen key (None :: a) n w').
Proof.
  intros [Ha Hn] H. unfold writeEntry in H.
  rewrite (bind_eq _ _ w (clock w) w) in H by done.
  unfold bind in H.
  destruct (setItem _ _ w) as [[[]|e|] w1] eqn:E1.
  - right.
    assert (Hseen : seen key (None :: a) n w1).
    { unfold setItem in E1. destruct (faults w) as [|[name|] rest]; simplify_eq;
        unfold seen, attempts; cbn [trace emit omap list_omap isAttempt sweeps isSweep];
        rewrite decide_True by done; split; by f_equal. }
    pose proof (Stable_addToDiagnosisCacheIndex _ (seen_Stable key (None :: a) n) key
                  w1 Hseen) as Hseen'.
    pose proof (Ends_addToDiagnosisCacheIndex key w1 _ _ H) as Hend.
    rewrite H in Hseen'. simpl in Hseen'. split; [|done].
    destruct r as [[]|e|]; auto; unfold typeErrorOnly in Hend; simplify_eq; auto.
  - left. simplify_eq. unfold setItem in E1.
    destruct (faults w) as [|[name|] rest]; simplify_eq.
    exists name. split_and!; try done.
    unfold seen, attempts; cbn [trace emit omap list_omap isAttempt sweeps isSweep].
    rewrite decide_True by done. split; by f_equal.
  - unfold setItem in E1. destruct (faults w) as [|[name|] rest]; simplify_eq.
Qed.

Lemma clearExpiredDiagnoses_sweeps key a n w :
  window w = true ->
  readable (storage w) ->
  seen key a n w ->
  exists count w', clearExpiredDiagnoses w = (Ret count, w') /\
                   seen key a (S n) w' /\ window w' = true.
Proof.
  intros Hwin Hr Hseen.
  destruct (clearExpiredDiagnoses_unfold w Hwin Hr)
    as (w1 & count & w2 & E1 & _ & E2 & E).
  exists count, (emit (Console (Cleared count)) w2). split; [done|].
  pose proof (seen_Stable key a n) as HS.
  assert (H1 : seen key a n w1).
  { eapply Inv_at; [by apply Stable_getDiagnosisCacheIndex | exact Hseen | exact E1]. }
  assert (H2 : seen key a n w2).
  { eapply Inv_at; [| exact H1 | exact E2]. apply Inv_foldM. intros.
    apply Stable_sweepStep; [done | apply seen_SurvivesDelete]. }
  split.
  - destruct H2 as [Ha Hn]. unfold seen, attempts. simpl. split; [done | by f_equal].
  - assert (Hfr : frame true (clock w) (emit (Console (Cleared count)) w2)).
    { eapply Inv_at; [apply frame_clearExpiredDiagnoses | | exact E]. by split. }
    apply Hfr.
Qed.

(** The ways a store can go, by the attempts to write the record (most
    recent first), the number of sweeps and the result. *)
Inductive Handling : list (option dom_error) -> nat -> outcome bool -> Prop :=
| NoAttempt r :
    r <> Ret true -> (forall e, r <> Throw e) -> Handling [] 0 r
| AcceptedAtOnce b :
    Handling [None] 0 (Ret b)
| RejectedNotQuota :
    Handling [Some OtherDOMError] 0 (Ret false)
| RetryAccepted b :
    Handling [None; Some QuotaExceededError] 1 (Ret b)
| RetryRejected name :
    Handling [Some name; Some QuotaExceededError] 1 (Ret false).

End WriteFailure.

Section WriteFailureMain.

Context {D : Type}.
Variable recordBytes : CachedDiagnosis D -> N.
Variable keysBytes : list string -> N.
Variable MAX_BYTES : N.
Variable EXPIRY_MS : Z.

Implicit Types (w : World D) (tr : list (event D)).

Lemma seen_console key a n m w :
  quiet (D := D) (Console m) = true -> seen key a n w -> seen key a n (emit (Console m) w).
Proof. apply seen_emit_quiet. Qed.

(** The retry: one more attempt, whose failure is reported as [false]. *)
Lemma retry_cases organ hash key (d : D) a n w :
  seen key a n w ->
  exists b w' ans,
    try_catch
      (bind (writeEntry EXPIRY_MS organ hash key d) (fun _ => ret true))
      (fun retryError => bind (console (FailedAfterCleanup retryError))
                           (fun _ => ret false)) w = (Ret b, w')
    /\ seen key (ans :: a) n w'
    /\ (ans <> None -> b = false).
Proof.
  intros Hseen.
  destruct (writeEntry EXPIRY_MS organ hash key d w) as [r w1] eqn:E.
  destruct (writeEntry_cases EXPIRY_MS organ hash key d a n w r w1 Hseen E)
    as [(name & -> & Hs & _) | ([-> | ->] & Hs)].
  - exists false, (emit (Console (FailedAfterCleanup (DOMException name))) w1), (Some name).
    split_and!; [| by apply seen_console | done].
    rewrite (try_catch_Throw_eq _ _ w (DOMException name) w1); [done|].
    by apply bind_Throw_eq.
  - exists true, w1, None. split_and!; [| done | done].
    apply try_catch_eq. by rewrite (bind_eq _ _ _ _ _ E).
  - exists false, (emit (Console (FailedAfterCleanup TypeError)) w1), None.
    split_and!; [| by apply seen_console | done].
    rewrite (try_catch_Throw_eq _ _ w TypeError w1); [done|].
    by apply bind_Throw_eq.
Qed.

Lemma cacheDiagnosis_handling organ image (d : D) w :
  exists r w' new n,
    cacheDiagnosis recordBytes keysBytes MAX_BYTES EXPIRY_MS organ image d w = (r, w')
    /\ attempts (generateImageHash image) (trace w')
       = new ++ attempts (generateImageHash image) (trace w)
    /\ sweeps (trace w') = (n + sweeps (trace w))%nat
    /\ Handling new n r.
Proof.
  set (key := generateImageHash image).
  set (a := attempts key (trace w)). set (n0 := sweeps (trace w)).
  assert (Hseen : seen key a n0 w) by done.
  unfold cacheDiagnosis. rewrite (bind_eq _ _ w (window w) w) by done.
  destruct (window w) eqn:Hwin; cbn [negb]; cycle 1.
  { exists (Ret false), w, [], O. split_and!; try done. by constructor. }
  fold key.
  set (fuel := S (indexLength (storage w))).
  destruct (evictWhileFull recordBytes keysBytes MAX_BYTES fuel w) as [r1 w1] eqn:E1.
  assert (Hseen1 : seen key a n0 w1).
  { eapply Inv_at; [| exact Hseen | exact E1].
    apply Stable_evictWhileFull; [apply seen_Stable | apply seen_SurvivesDelete]. }
  assert (Hwin1 : window w1 = true).
  { assert (Hfr : frame true (clock w) w1).
    { eapply Inv_at; [apply frame_evictWhileFull | | exact E1]. by split. }
    apply Hfr. }
  pose proof (Ends_evictWhileFull recordBytes keysBytes MAX_BYTES fuel w _ _ E1) as Hend1.
  destruct r1 as [[]|e|].
  - (* the loop is done *)
    pose proof (evictWhileFull_readable _ _ _ _ _ _ Hwin E1) as Hr1.
    destruct (writeEntry EXPIRY_MS organ key key d w1) as [r2 w2] eqn:E2.
    destruct (writeEntry_cases EXPIRY_MS organ key key d a n0 w1 r2 w2 Hseen1 E2)
      as [(name & -> & Hs2 & Hst2 & Hwin2) | ([-> | ->] & Hs2)].
    + (* the write is rejected *)
      set (w3 := emit (Console (FailedToCache (DOMException name))) w2).
      assert (Hs3 : seen key (Some name :: a) n0 w3) by by apply seen_console.
      destruct name.
      * set (w4 := emit (Console QuotaExceededClearing) w3).
        assert (Hs4 : seen key (Some QuotaExceededError :: a) n0 w4)
          by by apply seen_console.
        destruct (clearExpiredDiagnoses_sweeps key (Some QuotaExceededError :: a) n0 w4)
          as (count & w5 & E5 & Hs5 & Hwin5);
          [simpl; congruence | simpl; by rewrite Hst2 | done |].
        destruct (retry_cases organ key key d _ _ w5 Hs5) as (b & w6 & ans & E6 & Hs6 & Hb).
        exists (Ret b), w6, [ans; Some QuotaExceededError], 1%nat.
        split_and!; [| apply Hs6 | apply Hs6 |].
        -- rewrite (try_catch_Throw_eq _ _ w (DOMException QuotaExceededError) w2).
           ++ rewrite (bind_eq _ _ w2 tt w3) by done. cbn iota.
              rewrite (bind_eq _ _ w3 tt w4) by done.
              rewrite (bind_eq _ _ _ _ _ E5). exact E6.
           ++ rewrite (bind_eq _ _ w fuel w) by done.
              rewrite (bind_eq _ _ _ _ _ E1). by apply bind_Throw_eq.
        -- destruct ans as [name|]; [rewrite Hb by done|]; constructor.
      * exists (Ret false), w3, [Some OtherDOMError], O.
        split_and!; [| apply Hs3 | apply Hs3 | constructor].
        rewrite (try_catch_Throw_eq _ _ w (DOMException OtherDOMError) w2).
        -- by rewrite (bind_eq _ _ w2 tt w3) by done.
        -- rewrite (bind_eq _ _ w fuel w) by done.
           rewrite (bind_eq _ _ _ _ _ E1). by apply bind_Throw_eq.
    + (* accepted, and the key is registered *)
      assert (Hs3 : seen key (None :: a) n0 (emit (Console (CachedOk key organ)) w2))
        by by apply seen_console.
      exists (Ret true), (emit (Console (CachedOk key organ)) w2), [None], O.
      split_and!; [| apply Hs3 | apply Hs3 | constructor].
      apply try_catch_eq.
      rewrite (bind_eq _ _ w fuel w) by done.
      rewrite (bind_eq _ _ _ _ _ E1). by rewrite (bind_eq _ _ _ _ _ E2).
    + (* accepted, but the index cannot be read as an array *)
      assert (Hs3 : seen key (None :: a) n0 (emit (Console (FailedToCache TypeError)) w2))
        by by apply seen_console.
      exists (Ret false), (emit (Console (FailedToCache TypeError)) w2), [None], O.
      split_and!; [| apply Hs3 | apply Hs3 | constructor].
      rewrite (try_catch_Throw_eq _ _ w TypeError w2).
      * by rewrite (bind_eq _ _ w2 tt _) by done.
      * rewrite (bind_eq _ _ w fuel w) by done.
        rewrite (bind_eq _ _ _ _ _ E1). by apply bind_Throw_eq.
  - (* the loop throws: only a TypeError *)
    destruct Hend1 as [Hend1 | Hend1]; [|discriminate]. simplify_eq.
    assert (Hs3 : seen key a n0 (emit (Console (FailedToCache TypeError)) w1))
      by by apply seen_console.
    exists (Ret false), (emit (Console (FailedToCache TypeError)) w1), [], O.
    split_and!; [| apply Hs3 | apply Hs3 | by constructor].
    rewrite (try_catch_Throw_eq _ _ w TypeError w1).
    + by rewrite (bind_eq _ _ w1 tt _) by done.
    + rewrite (bind_eq _ _ w fuel w) by done. by apply bind_Throw_eq.
  - (* the loop does not end *)
    exists Hang, w1, [], O. split_and!; [| apply Hseen1 | apply Hseen1 | by constructor].
    apply try_catch_Hang_eq.
    rewrite (bind_eq _ _ w fuel w) by done. by apply bind_Hang_eq.
Qed.

End WriteFailureMain.


(** ** The consistent store: index, records, sizes *)

Section Consistency.

Context {D : Type}.
Variable recordBytes : CachedDiagnosis D -> N.
Variable keysBytes : list string -> N.

Implicit Types (w : World D) (s : gmap string (item D)) (ks : list string).

(** The index reads as a duplicate-free list of non-empty keys, and it
    lists exactly the keys whose slot holds a record. *)
Definition consistent s : Prop :=
  readable s
  /\ NoDup (indexKeys s)
  /\ (EmptyString ∉ indexKeys s)
  /\ forall k, k ∈ indexKeys s <-> exists c, s !! slot k = Some (Entry c).

(** A browser whose storage accepts every write and is consistent. *)
Definition Good w : Prop :=
  window w = true /\ faults w = [] /\ consistent (storage w).

Lemma consistent_empty : consistent (∅ : gmap string (item D)).
Proof.
  unfold consistent, readable, indexKeys. rewrite lookup_empty. split_and!.
  - done.
  - constructor.
  - apply not_elem_of_nil.
  - intros k. split; [by intros ?%elem_of_nil|].
    intros [c Hc]. by rewrite lookup_empty in Hc.
Qed.

Lemma consistent_index_not_member s : consistent s -> "index"%string ∉ indexKeys s.
Proof.
  intros (Hr & _ & _ & Hiff) Hin. apply Hiff in Hin as [c Hc].
  change (slot "index") with DIAGNOSIS_CACHE_INDEX_KEY in Hc. by apply (Hr c).
Qed.

Lemma indexKeys_delete_slot s key :
  key <> "index"%string -> indexKeys (delete (slot key) s) = indexKeys s.
Proof.
  intros Hne. unfold indexKeys. rewrite lookup_delete_ne; [done|].
  by apply slot_not_index.
Qed.

Lemma indexKeys_insert_slot s key v :
  key <> "index"%string -> indexKeys (<[slot key := v]> s) = indexKeys s.
Proof.
  intros Hne. unfold indexKeys. rewrite lookup_insert_ne; [done|].
  by apply slot_not_index.
Qed.

(** *** Removing a key *)

Definition dropKey (key : string) s : gmap string (item D) :=
  <[DIAGNOSIS_CACHE_INDEX_KEY :=
      Keys (filter (fun k => k <> key) (indexKeys (delete (slot key) s)))]>
    (delete (slot key) s).

Lemma indexKeys_dropKey s key :
  key <> "index"%string ->
  indexKeys (dropKey key s) = filter (fun k => k <> key) (indexKeys s).
Proof.
  intros Hne. unfold dropKey. by rewrite indexKeys_insert, indexKeys_delete_slot.
Qed.

Lemma lookup_dropKey_slot s key k :
  k <> "index"%string ->
  dropKey key s !! slot k = if decide (k = key) then None else s !! slot k.
Proof.
  intros Hk. unfold dropKey.
  rewrite lookup_insert_ne by (apply not_eq_sym; by apply slot_not_index).
  destruct (decide (k = key)) as [->|Hne].
  - apply lookup_delete_eq.
  - apply lookup_delete_ne. apply not_eq_sym. by apply slot_ne.
Qed.

Lemma consistent_dropKey s key :
  consistent s -> key <> "index"%string -> consistent (dropKey key s).
Proof.
  intros Hc Hne. pose proof (consistent_index_not_member s Hc) as Hidx.
  destruct Hc as (Hr & Hnd & Hemp & Hiff).
  unfold consistent. rewrite indexKeys_dropKey by done. split_and!.
  - apply readable_insert_Keys.
  - by apply NoDup_filter.
  - intros [_ ?]%list_elem_of_filter. done.
  - intros k. rewrite list_elem_of_filter.
    destruct (decide (k = "index"%string)) as [->|Hk].
    + split; [by intros [_ ?] |].
      intros [c Hc]. change (slot "index") with DIAGNOSIS_CACHE_INDEX_KEY in Hc.
      unfold dropKey in Hc. by rewrite lookup_insert_eq in Hc.
    + rewrite lookup_dropKey_slot by done. destruct (decide (k = key)) as [->|Hkk].
      * split; [by intros [? _] | by intros [c ?]].
      * rewrite Hiff. split; [by intros [_ ?] | by intros ?].
Qed.

Lemma deleteCachedDiagnosis_Good key w :
  Good w -> key <> "index"%string ->
  exists w', deleteCachedDiagnosis key w = (Ret true, w')
             /\ Good w' /\ clock w' = clock w
             /\ storage w' = dropKey key (storage w).
Proof.
  intros (Hwin & Hf & Hc) Hne.
  destruct (deleteCachedDiagnosis_spec key w Hwin) as (w' & E & Hwin' & Hclock & Hf' & Hs);
    [apply Hc|].
  rewrite Hf in Hf', Hs. simpl in *.
  destruct Hs as [[Hs _] | [_ [r ?]]]; [|done].
  exists w'. split_and!; try done. split_and!; try done.
  rewrite Hs. by apply consistent_dropKey.
Qed.

(** *** Writing a record and registering its key *)

Definition putKey (key : string) (c : CachedDiagnosis D) s : gmap string (item D) :=
  let s1 := <[slot key := Entry c]> s in
  if decide (key ∈ indexKeys s1) then s1
  else <[DIAGNOSIS_CACHE_INDEX_KEY := Keys (indexKeys s1 ++ [key])]> s1.

Lemma indexKeys_putKey s key c :
  key <> "index"%string ->
  indexKeys (putKey key c s)
  = if decide (key ∈ indexKeys s) then indexKeys s else indexKeys s ++ [key].
Proof.
  intros Hne. unfold putKey. cbn zeta. rewrite indexKeys_insert_slot by done.
  destruct (decide (key ∈ indexKeys s)).
  - by apply indexKeys_insert_slot.
  - apply indexKeys_insert.
Qed.

Lemma lookup_putKey_slot s key c k :
  k <> "index"%string -> key <> "index"%string ->
  putKey key c s !! slot k = if decide (k = key) then Some (Entry c) else s !! slot k.
Proof.
  intros Hk Hkey. unfold putKey. cbn zeta.
  assert (Hs1 : <[slot key := Entry c]> s !! slot k
                = if decide (k = key) then Some (Entry c) else s !! slot k).
  { destruct (decide (k = key)) as [->|Hne].
    - apply lookup_insert_eq.
    - apply lookup_insert_ne. apply not_eq_sym. by apply slot_ne. }
  destruct (decide (key ∈ _)); [done|].
  rewrite lookup_insert_ne by (apply not_eq_sym; by apply slot_not_index). done.
Qed.

Lemma readable_putKey s key c :
  readable s -> key <> "index"%string -> readable (putKey key c s).
Proof.
  intros Hr Hne. unfold putKey. cbn zeta. destruct (decide (key ∈ _)).
  - intros c'. rewrite lookup_insert_ne by by apply slot_not_index. apply Hr.
  - apply readable_insert_Keys.
Qed.

Lemma consistent_putKey s key c :
  consistent s -> key <> "index"%string -> key <> EmptyString ->
  consistent (putKey key c s).
Proof.
  intros Hc Hne Hemp'. pose proof (consistent_index_not_member s Hc) as Hidx.
  destruct Hc as (Hr & Hnd & Hemp & Hiff).
  unfold consistent. rewrite indexKeys_putKey by done. split_and!.
  - by apply readable_putKey.
  - destruct (decide (key ∈ indexKeys s)); [done|].
    apply NoDup_app. split_and!; [done | | apply NoDup_singleton].
    intros x Hx ->%list_elem_of_singleton. done.
  - destruct (decide (key ∈ indexKeys s)); [done|].
    rewrite elem_of_app, list_elem_of_singleton. intros [?|?]; done.
  - intros k. destruct (decide (k = "index"%string)) as [->|Hk].
    + split.
      * destruct (decide (key ∈ indexKeys s)); [done|].
        rewrite elem_of_app, list_elem_of_singleton. intros [?|?]; done.
      * intros [c' Hc']. change (slot "index") with DIAGNOSIS_CACHE_INDEX_KEY in Hc'.
        by destruct (readable_putKey s key c Hr Hne c').
    + rewrite lookup_putKey_slot by done.
      destruct (decide (k = key)) as [->|Hkk].
      * split; [by eauto|]. intros _.
        destruct (decide (key ∈ indexKeys s)); [done|].
        rewrite elem_of_app, list_elem_of_singleton. by right.
      * rewrite <- Hiff. destruct (decide (key ∈ indexKeys s)); [done|].
        rewrite elem_of_app, list_elem_of_singleton. split; [by intros [?|?] | by left].
Qed.

Lemma writeEntry_Good (EXPIRY_MS : Z) organ key (d : D) w :
  Good w -> key <> "index"%string -> key <> EmptyString ->
  exists w', writeEntry EXPIRY_MS organ key key d w = (Ret tt, w')
             /\ Good w' /\ clock w' = clock w
             /\ storage w' = putKey key (mkCached organ key d (clock w) (clock w + EXPIRY_MS))
                               (storage w).
Proof.
  intros (Hwin & Hf & Hc) Hne Hemp. unfold writeEntry.
  rewrite (bind_eq _ _ w (clock w) w) by done.
  set (c := mkCached organ key d (clock w) (clock w + EXPIRY_MS)).
  set (w1 := emit (SetItem (slot key) (Entry c) None)
               (with_storage (<[slot key := Entry c]> (storage w)) w)).
  assert (E1 : setItem (slot key) (Entry c) w = (Ret tt, w1)).
  { unfold setItem. by rewrite Hf. }
  assert (Hw1 : window w1 = true /\ faults w1 = [] /\ clock w1 = clock w) by done.
  destruct Hw1 as (Hwin1 & Hf1 & Hclock1).
  rewrite (bind_eq _ _ _ _ _ E1). unfold addToDiagnosisCacheIndex.
  destruct (getDiagnosisCacheIndex_spec w1 Hwin1) as (w2 & E2 & Hwin2 & Hclock2 & Hs2 & Hf2).
  assert (Hr1 : readable (storage w1)).
  { intros c'. simpl. rewrite lookup_insert_ne by by apply slot_not_index. apply Hc. }
  rewrite (bind_eq _ _ _ _ _ E2), (indexValue_readable _ Hr1).
  rewrite (bind_eq _ _ w2 (indexKeys (storage w1)) w2) by done.
  assert (Hgood : forall w', window w' = true -> faults w' = [] ->
            storage w' = putKey key c (storage w) -> Good w').
  { intros w' ? ? Hs'. split_and!; try done. rewrite Hs'. by apply consistent_putKey. }
  unfold putKey. cbn zeta. change (<[slot key := Entry c]> (storage w)) with (storage w1).
  destruct (decide (key ∈ indexKeys (storage w1))) as [Hin|Hnin].
  - rewrite bool_decide_eq_true_2 by done. simpl.
    exists w2. split; [done|].
    assert (Hs : storage w2 = putKey key c (storage w)).
    { unfold putKey. cbn zeta. rewrite decide_True by done. done. }
    split_and!; [apply Hgood; congruence | congruence | ].
    by rewrite Hs2.
  - rewrite bool_decide_eq_false_2 by done. simpl.
    destruct (updateDiagnosisCacheIndex_spec (indexKeys (storage w1) ++ [key]) w2)
      as (w3 & E3 & Hwin3 & Hclock3 & Hf3 & Hs3); [congruence|].
    assert (Hf2' : faults w2 = []) by congruence.
    rewrite Hf2' in Hf3, Hs3. simpl in Hf3.
    destruct Hs3 as [[Hs3 _] | [_ [r ?]]]; [|done].
    exists w3. split; [done|].
    assert (Hs : storage w3 = putKey key c (storage w)).
    { unfold putKey. cbn zeta. rewrite decide_False by done. by rewrite Hs3, Hs2. }
    split_and!; [apply Hgood; congruence | congruence | ].
    by rewrite Hs3, Hs2.
Qed.

(** *** Size accounting *)

Definition slotBytes s (k : string) : N :=
  match s !! slot k with
  | Some text => if truthy text then blobSize recordBytes keysBytes text else 0%N
  | None => 0%N
  end.

Fixpoint bytesOf s ks : N :=
  match ks with
  | [] => 0%N
  | k :: ks' => (slotBytes s k + bytesOf s ks')%N
  end.

(** What [getDiagnosisCacheSize] computes, in bytes. *)
Definition totalBytes s : N := bytesOf s (indexKeys s).

Lemma sizeStep_spec n key w :
  sizeStep recordBytes keysBytes n key w = (Ret (n + slotBytes (storage w) key)%N, w).
Proof.
  unfold sizeStep, try_catch, bind, getItem, slotBytes, ret.
  destruct (storage w !! slot key) as [text|]; simpl.
  - destruct (truthy text); [done | by rewrite N.add_0_r].
  - by rewrite N.add_0_r.
Qed.

Lemma foldM_sizeStep_spec ks n w :
  foldM (sizeStep recordBytes keysBytes) ks n w
  = (Ret (n + bytesOf (storage w) ks)%N, w).
Proof.
  revert n. induction ks as [|k ks IH]; intros n; simpl.
  - unfold ret. by rewrite N.add_0_r.
  - rewrite (bind_eq _ _ _ _ _ (sizeStep_spec n k w)), IH. by rewrite N.add_assoc.
Qed.

Lemma getDiagnosisCacheSize_spec w :
  window w = true -> readable (storage w) ->
  exists w', getDiagnosisCacheSize recordBytes keysBytes w
             = (Ret (totalBytes (storage w)), w')
             /\ same w w'.
Proof.
  intros Hwin Hr. unfold getDiagnosisCacheSize.
  rewrite (bind_eq _ _ w (window w) w) by done. rewrite Hwin. cbn [negb].
  destruct (getDiagnosisCacheIndex_spec w Hwin) as (w1 & E1 & Hsame).
  rewrite (bind_eq _ _ _ _ _ E1), (indexValue_readable _ Hr).
  rewrite (bind_eq _ _ w1 (indexKeys (storage w)) w1) by done.
  rewrite foldM_sizeStep_spec. exists w1. split; [|done].
  destruct Hsame as (_ & _ & -> & _). done.
Qed.

Lemma isDiagnosisCacheFull_spec (MAX_BYTES : N) w :
  window w = true -> readable (storage w) ->
  exists w', isDiagnosisCacheFull recordBytes keysBytes MAX_BYTES w
             = (Ret (MAX_BYTES <=? totalBytes (storage w))%N, w')
             /\ same w w'.
Proof.
  intros Hwin Hr. unfold isDiagnosisCacheFull.
  destruct (getDiagnosisCacheSize_spec w Hwin Hr) as (w' & E & Hsame).
  rewrite (bind_eq _ _ _ _ _ E). by exists w'.
Qed.

Lemma bytesOf_insert_other s ks key v :
  (forall k, k ∈ ks -> slot k <> key) ->
  bytesOf (<[key := v]> s) ks = bytesOf s ks.
Proof.
  induction ks as [|k ks IH]; intros H; simpl; [done|].
  rewrite IH by (intros; apply H; by apply elem_of_cons; right).
  f_equal. unfold slotBytes. rewrite lookup_insert_ne; [done|].
  apply not_eq_sym, H. apply elem_of_cons. by left.
Qed.

Lemma bytesOf_delete_other s ks key :
  (forall k, k ∈ ks -> slot k <> key) ->
  bytesOf (delete key s) ks = bytesOf s ks.
Proof.
  induction ks as [|k ks IH]; intros H; simpl; [done|].
  rewrite IH by (intros; apply H; by apply elem_of_cons; right).
  f_equal. unfold slotBytes. rewrite lookup_delete_ne; [done|].
  apply not_eq_sym, H. apply elem_of_cons. by left.
Qed.

Lemma bytesOf_app s ks1 ks2 :
  bytesOf s (ks1 ++ ks2) = (bytesOf s ks1 + bytesOf s ks2)%N.
Proof.
  induction ks1 as [|k ks1 IH]; simpl; [done|]. rewrite IH. lia.
Qed.

(** Replacing the text of an indexed key trades the old size for the
    new. *)
Lemma bytesOf_insert_member s ks key v :
  NoDup ks -> key ∈ ks -> truthy v = true ->
  (bytesOf (<[slot key := v]> s) ks + slotBytes s key
   = bytesOf s ks + blobSize recordBytes keysBytes v)%N.
Proof.
  induction ks as [|k ks IH]; intros Hnd Hin Hv; [by apply elem_of_nil in Hin|].
  apply NoDup_cons in Hnd as [Hk Hnd]. simpl.
  apply elem_of_cons in Hin as [<- | Hin].
  - rewrite bytesOf_insert_other.
    + unfold slotBytes at 1. rewrite lookup_insert_eq, Hv. lia.
    + intros k Hk' E. apply slot_inj in E. by subst.
  - specialize (IH Hnd Hin Hv).
    assert (slotBytes (<[slot key := v]> s) k = slotBytes s k) as ->.
    { unfold slotBytes. rewrite lookup_insert_ne; [done|].
      intros E. apply slot_inj in E. by subst. }
    lia.
Qed.

Lemma bytesOf_filter_delete s ks key :
  NoDup ks ->
  (bytesOf (delete (slot key) s) (filter (fun k => k <> key) ks) <= bytesOf s ks)%N.
Proof.
  induction ks as [|k ks IH]; intros Hnd; [done|].
  apply NoDup_cons in Hnd as [Hk Hnd]. specialize (IH Hnd).
  destruct (decide (k = key)) as [->|Hne].
  - rewrite filter_cons_False by (intros ?; done). simpl. lia.
  - rewrite filter_cons_True by done. simpl.
    assert (slotBytes (delete (slot key) s) k = slotBytes s k) as ->.
    { unfold slotBytes. rewrite lookup_delete_ne; [done|].
      intros E. apply slot_inj in E. by subst. }
    lia.
Qed.

Lemma totalBytes_dropKey s key :
  consistent s -> key <> "index"%string ->
  (totalBytes (dropKey key s) <= totalBytes s)%N.
Proof.
  intros Hc Hne. pose proof (consistent_index_not_member s Hc) as Hidx.
  unfold totalBytes. rewrite indexKeys_dropKey by done. unfold dropKey.
  rewrite bytesOf_insert_other.
  - apply bytesOf_filter_delete, Hc.
  - intros k [_ Hk]%list_elem_of_filter E. apply slot_index in E. by subst.
Qed.

(** After a record is written, the total is at most the total before plus
    the size of the record. *)
Lemma totalBytes_putKey s key c :
  consistent s -> key <> "index"%string ->
  (totalBytes (putKey key c s) <= totalBytes s + recordBytes c)%N.
Proof.
  intros Hc Hne. pose proof (consistent_index_not_member s Hc) as Hidx.
  destruct Hc as (Hr & Hnd & Hemp & Hiff).
  unfold totalBytes. rewrite indexKeys_putKey by done.
  unfold putKey. cbn zeta. rewrite indexKeys_insert_slot by done.
  destruct (decide (key ∈ indexKeys s)) as [Hin|Hnin].
  - pose proof (bytesOf_insert_member s (indexKeys s) key (Entry c) Hnd Hin eq_refl) as H.
    simpl in H. lia.
  - rewrite bytesOf_insert_other.
    + rewrite bytesOf_app. simpl. rewrite bytesOf_insert_other.
      * unfold slotBytes. rewrite lookup_insert_eq. simpl. lia.
      * intros k Hk E. apply slot_inj in E. by subst.
    + intros k Hk E. apply slot_index in E. subst.
      apply elem_of_app in Hk as [?|?%list_elem_of_singleton]; done.
Qed.

(** *** The eviction scan *)

(** One step of the scan, as a function of the storage. *)
Definition older s (acc : option string * bound) (key : string)
  : option string * bound :=
  match s !! slot key with
  | Some (Entry c) =>
      if ltBound (Some (timestamp c)) (snd acc)
      then (Some key, Finite (timestamp c))
      else acc
  | _ => acc
  end.

Definition oldest s : option string * bound :=
  fold_left (older s) (indexKeys s) (None, Infinity).

Lemma oldestStep_spec acc key w :
  exists w', oldestStep acc key w = (Ret (older (storage w) acc key), w') /\ same w w'.
Proof.
  unfold oldestStep, older, try_catch, bind, getItem.
  destruct (storage w !! slot key) as [[n|c|ks]|]; simpl.
  - destruct (negb (n =? 0)%N); simpl; (eexists; split; [done|]);
      first [apply same_refl | apply same_emit, same_refl].
  - destruct (snd acc) as [|b]; [|destruct (timestamp c <? b)]; simpl;
      (eexists; split; [done | apply same_refl]).
  - eexists; split; [done | apply same_refl].
  - eexists; split; [done | apply same_refl].
Qed.

Lemma same_trans w1 w2 w3 : same w1 w2 -> same w2 w3 -> same w1 w3.
Proof. intros (?&?&?&?) (?&?&?&?). unfold same. split_and!; congruence. Qed.

Lemma foldM_oldestStep_spec ks acc w :
  exists w', foldM oldestStep ks acc w
             = (Ret (fold_left (older (storage w)) ks acc), w') /\ same w w'.
Proof.
  revert acc w. induction ks as [|k ks IH]; intros acc w; simpl.
  - exists w. split; [done | apply same_refl].
  - destruct (oldestStep_spec acc k w) as (w1 & E1 & Hsame1).
    rewrite (bind_eq _ _ _ _ _ E1).
    destruct (IH (older (storage w) acc k) w1) as (w2 & E2 & Hsame2).
    exists w2. split; [|by eapply same_trans].
    rewrite E2. by destruct Hsame1 as (_ & _ & -> & _).
Qed.

(** The scan ends on a bound that no indexed record beats; the bound
    only goes down; the key it returns holds the record that set the
    bound. *)
Lemma fold_older_spec s ks acc :
  let r := fold_left (older s) ks acc in
  (forall k c, k ∈ ks -> s !! slot k = Some (Entry c) ->
     ltBound (Some (timestamp c)) (snd r) = false)
  /\ (forall t, ltBound (Some t) (snd r) = true -> ltBound (Some t) (snd acc) = true)
  /\ (r = acc \/ exists k c, k ∈ ks /\ s !! slot k = Some (Entry c)
                            /\ r = (Some k, Finite (timestamp c))).
Proof.
  revert acc. induction ks as [|k0 ks IH]; intros acc; simpl.
  - split_and!; [by intros k c ?%elem_of_nil | done | by left].
  - destruct (IH (older s acc k0)) as (IH1 & IH2 & IH3).
    assert (Hstep : forall t, ltBound (Some t) (snd (older s acc k0)) = true ->
                      ltBound (Some t) (snd acc) = true).
    { intros t. unfold older.
      destruct (s !! slot k0) as [[n|c|ks']|]; try done.
      destruct (ltBound (Some (timestamp c)) (snd acc)) eqn:Hlt; [|done].
      simpl. destruct (snd acc) as [|b]; [done|]. simpl in *. lia. }
    split_and!.
    + intros k c [-> | Hin]%elem_of_cons Hc; [|by eapply IH1].
      destruct (ltBound (Some (timestamp c)) (snd (fold_left (older s) ks (older s acc k0))))
        eqn:Hlt; [|done].
      apply IH2 in Hlt. unfold older in Hlt. rewrite Hc in Hlt.
      destruct (ltBound (Some (timestamp c)) (snd acc)) eqn:Hlt';
        rewrite ?Hlt' in Hlt; simpl in Hlt; [lia | congruence].
    + intros t Ht. by apply Hstep, IH2.
    + destruct IH3 as [-> | (k & c & Hin & Hc & ->)].
      * unfold older. destruct (s !! slot k0) as [[n|c|ks']|] eqn:Hc; try by left.
        destruct (ltBound (Some (timestamp c)) (snd acc)); [|by left].
        right. exists k0, c. split_and!; [apply elem_of_cons; by left | done | done].
      * right. exists k, c. split_and!; [apply elem_of_cons; by right | done | done].
Qed.

(** In a consistent store with a non-empty index the scan returns the key
    of a record with the least timestamp. *)
Lemma oldest_consistent s :
  consistent s -> indexKeys s <> [] ->
  exists k c, oldest s = (Some k, Finite (timestamp c))
              /\ k ∈ indexKeys s /\ s !! slot k = Some (Entry c)
              /\ forall k' c', k' ∈ indexKeys s -> s !! slot k' = Some (Entry c') ->
                   timestamp c <= timestamp c'.
Proof.
  intros (Hr & Hnd & Hemp & Hiff) Hne.
  destruct (fold_older_spec s (indexKeys s) (None, Infinity)) as (H1 & _ & H3).
  fold (oldest s) in H1, H3.
  destruct H3 as [Heq | (k & c & Hin & Hc & Heq)].
  - exfalso. destruct (indexKeys s) as [|k0 ks] eqn:Eks; [done|].
    assert (Hin : k0 ∈ k0 :: ks) by (apply elem_of_cons; by left).
    destruct (proj1 (Hiff k0) Hin) as [c Hc].
    specialize (H1 k0 c Hin Hc). rewrite Heq in H1. discriminate H1.
  - exists k, c. split_and!; try done.
    intros k' c' Hin' Hc'. specialize (H1 k' c' Hin' Hc'). rewrite Heq in H1.
    simpl in H1. lia.
Qed.

Lemma Good_same w w' : same w w' -> Good w -> Good w'.
Proof. intros (?&?&?&?) (?&?&?). unfold Good. split_and!; congruence. Qed.

Lemma Good_emit w e : Good w -> Good (emit e w).
Proof. by intros (?&?&?). Qed.

(** One round of eviction in a good store: the record with the least
    timestamp goes, with its index entry, and nothing else changes. *)
Lemma evictOldestDiagnosis_Good w :
  Good w -> indexKeys (storage w) <> [] ->
  exists k c w',
    evictOldestDiagnosis w = (Ret tt, w')
    /\ k ∈ indexKeys (storage w) /\ storage w !! slot k = Some (Entry c)
    /\ (forall k' c', k' ∈ indexKeys (storage w) ->
          storage w !! slot k' = Some (Entry c') -> timestamp c <= timestamp c')
    /\ Good w' /\ clock w' = clock w
    /\ storage w' = dropKey k (storage w).
Proof.
  intros HG Hne. pose proof HG as (Hwin & Hf & Hc).
  destruct (oldest_consistent _ Hc Hne) as (k & c & Hold & Hin & Hkc & Hmin).
  unfold evictOldestDiagnosis.
  destruct (getDiagnosisCacheIndex_spec w Hwin) as (w1 & E1 & Hsame1).
  rewrite (bind_eq _ _ _ _ _ E1), (indexValue_readable _ (proj1 Hc)).
  rewrite (bind_eq _ _ w1 (indexKeys (storage w)) w1) by done.
  destruct (foldM_oldestStep_spec (indexKeys (storage w)) (None, Infinity) w1)
    as (w2 & E2 & Hsame2).
  rewrite (bind_eq _ _ _ _ _ E2).
  assert (Hs1 : storage w1 = storage w) by apply Hsame1.
  rewrite Hs1. fold (oldest (storage w)). rewrite Hold. cbn [fst].
  assert (Hk : k <> EmptyString).
  { intros ->. by destruct Hc as (_ & _ & ? & _). }
  assert (Hki : k <> "index"%string).
  { intros ->. by apply (consistent_index_not_member _ Hc). }
  rewrite bool_decide_eq_false_2 by done.
  rewrite (bind_eq _ _ w2 tt (emit (Console (EvictingOldest k)) w2)) by done.
  assert (HG2 : Good (emit (Console (EvictingOldest k)) w2)).
  { apply Good_emit. eapply Good_same; [|exact HG]. by eapply same_trans. }
  destruct (deleteCachedDiagnosis_Good k _ HG2 Hki) as (w3 & E3 & HG3 & Hclock3 & Hs3).
  rewrite (bind_eq _ _ _ _ _ E3).
  exists k, c, w3. simpl in Hclock3, Hs3.
  destruct Hsame1 as (_ & Hc1 & _ & _). destruct Hsame2 as (_ & Hc2 & Hs2 & _).
  split_and!; try done; congruence.
Qed.

Lemma evictOldestDiagnosis_empty w :
  window w = true -> readable (storage w) -> indexKeys (storage w) = [] ->
  exists w', evictOldestDiagnosis w = (Ret tt, w') /\ same w w'.
Proof.
  intros Hwin Hr Hks. unfold evictOldestDiagnosis.
  destruct (getDiagnosisCacheIndex_spec w Hwin) as (w1 & E1 & Hsame1).
  rewrite (bind_eq _ _ _ _ _ E1), (indexValue_readable _ Hr), Hks.
  rewrite (bind_eq _ _ w1 [] w1) by done. simpl.
  rewrite (bind_eq _ _ w1 (None, Infinity) w1) by done. simpl.
  by exists w1.
Qed.

Lemma Inv_Good_evictOldestDiagnosis : Inv Good (evictOldestDiagnosis (OrganDiagnosis := D)).
Proof.
  intros w HG. destruct (decide (indexKeys (storage w) = [])) as [Hks|Hks].
  - destruct (evictOldestDiagnosis_empty w) as (w' & -> & Hsame);
      [apply HG | apply HG | done |]. by eapply Good_same.
  - destruct (evictOldestDiagnosis_Good w HG Hks) as (k & c & w' & -> & _ & _ & _ & HG' & _).
    done.
Qed.

(** *** The eviction loop *)

Variable MAX_BYTES : N.
Variable EXPIRY_MS : Z.

Lemma indexLength_indexKeys s : indexLength s = length (indexKeys s).
Proof.
  unfold indexLength, indexKeys.
  by destruct (s !! DIAGNOSIS_CACHE_INDEX_KEY) as [[]|].
Qed.

Lemma Inv_Good_isDiagnosisCacheFull :
  Inv Good (isDiagnosisCacheFull recordBytes keysBytes MAX_BYTES).
Proof.
  unfold isDiagnosisCacheFull, getDiagnosisCacheSize, getDiagnosisCacheIndex, sizeStep.
  repeat inv_step; apply Inv_console; intros; by apply Good_emit.
Qed.

Lemma Inv_Good_evictWhileFull fuel :
  Inv Good (evictWhileFull recordBytes keysBytes MAX_BYTES fuel).
Proof.
  induction fuel as [|fuel IH]; simpl; repeat inv_step;
    auto using Inv_Good_isDiagnosisCacheFull, Inv_Good_evictOldestDiagnosis.
Qed.

(** With a positive budget and enough rounds, the loop ends, and it ends
    below the budget; it evicts nothing when the store is already below
    it. *)
Lemma evictWhileFull_Good fuel w :
  Good w -> (0 < MAX_BYTES)%N ->
  (length (indexKeys (storage w)) < fuel)%nat ->
  exists w', evictWhileFull recordBytes keysBytes MAX_BYTES fuel w = (Ret tt, w')
             /\ Good w' /\ clock w' = clock w
             /\ (totalBytes (storage w') < MAX_BYTES)%N
             /\ ((totalBytes (storage w) < MAX_BYTES)%N -> storage w' = storage w).
Proof.
  intros HG Hmax. revert w HG.
  induction fuel as [|fuel IH]; intros w HG Hlen; [lia|].
  cbn [evictWhileFull].
  destruct (isDiagnosisCacheFull_spec MAX_BYTES w) as (w1 & E1 & Hsame1);
    [apply HG | apply HG |].
  rewrite (bind_eq _ _ _ _ _ E1).
  pose proof (Good_same _ _ Hsame1 HG) as HG1.
  destruct Hsame1 as (_ & Hc1 & Hs1 & _).
  destruct (MAX_BYTES <=? totalBytes (storage w))%N eqn:Hfull.
  - apply N.leb_le in Hfull.
    assert (Hne : indexKeys (storage w1) <> []).
    { rewrite Hs1. intros Hks. unfold totalBytes in Hfull. rewrite Hks in Hfull.
      simpl in Hfull. lia. }
    destruct (evictOldestDiagnosis_Good w1 HG1 Hne)
      as (k & c & w2 & E2 & Hin & _ & _ & HG2 & Hc2 & Hs2).
    rewrite (bind_eq _ _ _ _ _ E2).
    destruct (IH w2 HG2) as (w' & E' & HG' & Hc' & Hlt & _).
    { rewrite Hs2, indexKeys_dropKey, Hs1.
      - assert (length (filter (fun k' => k' <> k) (indexKeys (storage w)))
                < length (indexKeys (storage w)))%nat; [|lia].
        apply (length_filter_lt _ _ k); [by rewrite <- Hs1 | by intros ?].
      - intros ->. apply (consistent_index_not_member (storage w1)); [apply HG1 | done]. }
    exists w'. split_and!; try done; [congruence | lia].
  - apply N.leb_gt in Hfull. exists w1. split_and!; try done. by rewrite Hs1.
Qed.

(** *** Store, in a good store *)

Lemma digits_nonempty fuel radix n acc :
  acc <> EmptyString -> JS.digits fuel radix n acc <> EmptyString.
Proof.
  revert n acc. induction fuel as [|fuel IH]; intros n acc Hacc; simpl; [done|].
  destruct (n / radix =? 0); [done|]. by apply IH.
Qed.

Lemma toString_nonempty radix n : JS.toString radix n <> EmptyString.
Proof.
  unfold JS.toString. destruct (n <? 0); [done|]. simpl.
  destruct (_ / radix =? 0); [done|]. by apply digits_nonempty.
Qed.

Lemma generateImageHash_nonempty image : generateImageHash image <> EmptyString.
Proof. apply toString_nonempty. Qed.

Lemma cacheDiagnosis_Good organ image (d : D) w :
  Good w -> (0 < MAX_BYTES)%N ->
  generateImageHash image <> "index"%string ->
  exists w',
    cacheDiagnosis recordBytes keysBytes MAX_BYTES EXPIRY_MS organ image d w = (Ret true, w')
    /\ Good w' /\ clock w' = clock w
    /\ exists s1,
         (* the store when the loop is done, then the record written *)
         (totalBytes s1 < MAX_BYTES)%N
         /\ ((totalBytes (storage w) < MAX_BYTES)%N -> s1 = storage w)
         /\ storage w' = putKey (generateImageHash image)
                            (recordOf EXPIRY_MS organ image d (clock w)) s1
         /\ (totalBytes (storage w')
             < MAX_BYTES + recordBytes (recordOf EXPIRY_MS organ image d (clock w)))%N.
Proof.
  intros HG Hmax Hne. pose proof HG as (Hwin & _ & _).
  unfold cacheDiagnosis. rewrite (bind_eq _ _ w (window w) w) by done.
  rewrite Hwin. cbn [negb].
  set (key := generateImageHash image).
  destruct (evictWhileFull_Good (S (indexLength (storage w))) w HG Hmax)
    as (w1 & E1 & HG1 & Hc1 & Hlt1 & Hsame1).
  { rewrite indexLength_indexKeys. lia. }
  destruct (writeEntry_Good EXPIRY_MS organ key d w1 HG1 Hne)
    as (w2 & E2 & HG2 & Hc2 & Hs2); [apply generateImageHash_nonempty|].
  exists (emit (Console (CachedOk key organ)) w2). split.
  - apply try_catch_eq.
    rewrite (bind_eq _ _ w (S (indexLength (storage w))) w) by done.
    rewrite (bind_eq _ _ _ _ _ E1), (bind_eq _ _ _ _ _ E2). done.
  - split_and!; [by apply Good_emit | simpl; congruence |].
    exists (storage w1). rewrite Hc1 in Hs2. split_and!; try done.
    simpl. rewrite Hs2.
    pose proof (totalBytes_putKey (storage w1) key
                  (recordOf EXPIRY_MS organ image d (clock w)) (proj2 (proj2 HG1)) Hne).
    unfold recordOf in *. fold key in H |- *. lia.
Qed.

Lemma Inv_Good_writeEntry organ key (d : D) :
  key <> "index"%string -> key <> EmptyString ->
  Inv Good (writeEntry EXPIRY_MS organ key key d).
Proof.
  intros Hne Hemp w HG.
  by destruct (writeEntry_Good EXPIRY_MS organ key d w HG Hne Hemp) as (w' & -> & ? & _).
Qed.

Lemma Inv_Good_deleteCachedDiagnosis key :
  key <> "index"%string -> Inv Good (deleteCachedDiagnosis (OrganDiagnosis := D) key).
Proof.
  intros Hne w HG.
  by destruct (deleteCachedDiagnosis_Good key w HG Hne) as (w' & -> & ? & _).
Qed.

(** A slot that holds a record is not the index slot of a readable
    store. *)
Lemma entry_key_not_index w key c :
  Good w -> storage w !! slot key = Some (Entry c) -> key <> "index"%string.
Proof.
  intros (_ & _ & Hr & _) Hc ->.
  change (slot "index") with DIAGNOSIS_CACHE_INDEX_KEY in Hc. by apply (Hr c).
Qed.

Lemma Inv_Good_sweepStep n key : Inv Good (sweepStep (OrganDiagnosis := D) n key).
Proof.
  destruct (decide (key = "index"%string)) as [->|Hne].
  - (* the slot is the index slot, which holds no record in a good store *)
    intros w HG. pose proof HG as (_ & _ & Hr & _).
    unfold sweepStep, try_catch, bind, getItem, throw, ret, Date_now, console.
    change (slot "index") with DIAGNOSIS_CACHE_INDEX_KEY.
    destruct (storage w !! DIAGNOSIS_CACHE_INDEX_KEY) as [[m|c|ks]|] eqn:Hs; simpl.
    + destruct (negb (m =? 0)%N); simpl; [by apply Good_emit | done].
    + by destruct (Hr c).
    + done.
    + done.
  - unfold sweepStep. repeat inv_step; auto using Inv_Good_deleteCachedDiagnosis.
    apply Inv_console; intros; by apply Good_emit.
Qed.

Lemma Inv_Good_clearExpiredDiagnoses : Inv Good (clearExpiredDiagnoses (OrganDiagnosis := D)).
Proof.
  unfold clearExpiredDiagnoses, getDiagnosisCacheIndex.
  repeat inv_step; auto using Inv_Good_sweepStep;
    apply Inv_console; intros; by apply Good_emit.
Qed.

Lemma Inv_Good_getCachedDiagnosis image :
  Inv Good (getCachedDiagnosis (OrganDiagnosis := D) image).
Proof.
  destruct (decide (generateImageHash image = "index"%string)) as [Hidx|Hne].
  - intros w HG. pose proof HG as (_ & _ & Hr & _).
    unfold getCachedDiagnosis, try_catch, bind, hasWindow, getItem, throw, ret,
      Date_now, console.
    rewrite Hidx. change (slot "index") with DIAGNOSIS_CACHE_INDEX_KEY.
    destruct (window w); simpl; [|done].
    destruct (storage w !! DIAGNOSIS_CACHE_INDEX_KEY) as [[m|c|ks]|] eqn:Hs; simpl.
    + destruct (negb (m =? 0)%N); simpl; [by apply Good_emit | done].
    + by destruct (Hr c).
    + by apply Good_emit.
    + done.
  - unfold getCachedDiagnosis. repeat inv_step; auto using Inv_Good_deleteCachedDiagnosis;
      apply Inv_console; intros; by apply Good_emit.
Qed.

Lemma Inv_Good_cacheDiagnosis organ image (d : D) :
  generateImageHash image <> "index"%string ->
  Inv Good (cacheDiagnosis recordBytes keysBytes MAX_BYTES EXPIRY_MS organ image d).
Proof.
  intros Hne. pose proof (generateImageHash_nonempty image) as Hemp.
  unfold cacheDiagnosis.
  repeat inv_step;
    auto using Inv_Good_evictWhileFull, Inv_Good_writeEntry,
      Inv_Good_clearExpiredDiagnoses;
    apply Inv_console; intros; by apply Good_emit.
Qed.

End Consistency.


(** ** Listing and clearing *)

Section Listing.

Context {D : Type}.
Variable recordBytes : CachedDiagnosis D -> N.
Variable keysBytes : list string -> N.
Variable MAX_BYTES : N.
Variable EXPIRY_MS : Z.

Implicit Types (w : World D) (s : gmap string (item D)).

(** A computation that neither throws nor hangs returns. *)
Lemma Ends_never_returns {A} (m : M D A) w :
  Ends never m -> exists a w', m w = (Ret a, w').
Proof.
  intros H. destruct (m w) as [[a|e|] w'] eqn:E.
  - by exists a, w'.
  - destruct (H w _ _ E).
  - destruct (H w _ _ E).
Qed.

Lemma Ends_getCachedDiagnosis image :
  Ends never (getCachedDiagnosis (OrganDiagnosis := D) image).
Proof.
  unfold getCachedDiagnosis. repeat ends_step.
  ends_by (Ends_deleteCachedDiagnosis (D := D)).
Qed.

Lemma Ends_clearAllDiagnosisCache :
  Ends never (clearAllDiagnosisCache (OrganDiagnosis := D)).
Proof.
  unfold clearAllDiagnosisCache. repeat ends_step.
  ends_by (Ends_getDiagnosisCacheIndex (D := D)).
Qed.

Lemma Ends_loadStep acc key : Ends never (loadStep (OrganDiagnosis := D) acc key).
Proof.
  unfold loadStep. repeat ends_step; ends_by (Ends_deleteCachedDiagnosis (D := D)).
Qed.

Lemma Ends_getAllCachedDiagnoses :
  Ends typeErrorOnly (getAllCachedDiagnoses (OrganDiagnosis := D)).
Proof.
  unfold getAllCachedDiagnoses. repeat ends_step;
    first [ends_by (Ends_getDiagnosisCacheIndex (D := D)) | ends_by Ends_loadStep].
Qed.

End Listing.

(** ** Loops that delete what has expired

    The sweep and the listing run the same loop over the index: a record
    that has expired is deleted, a live one is left alone.  They differ in
    what they accumulate. *)

Section Expiry.

Context {D : Type}.

Implicit Types (w : World D) (s : gmap string (item D)).
Implicit Types (k : string) (ks : list string).

(** The slot of [k] holds a record that has expired at time [now]. *)
Definition expiredAt s (now : Z) (k : string) : bool :=
  match s !! slot k with
  | Some (Entry c) => expiresAt c <? now
  | _ => false
  end.

Fixpoint dropAll (ks : list string) s : gmap string (item D) :=
  match ks with
  | [] => s
  | k :: ks' => dropAll ks' (dropKey k s)
  end.

Lemma expiredAt_ext s1 s2 now k :
  s1 !! slot k = s2 !! slot k -> expiredAt s1 now k = expiredAt s2 now k.
Proof. unfold expiredAt. by intros ->. Qed.

Lemma filter_expiredAt_ext s1 s2 now ks :
  (forall k, k ∈ ks -> s1 !! slot k = s2 !! slot k) ->
  filter (fun k => expiredAt s1 now k) ks = filter (fun k => expiredAt s2 now k) ks.
Proof.
  induction ks as [|k ks IH]; intros H; [done|].
  assert (E : expiredAt s1 now k = expiredAt s2 now k).
  { apply expiredAt_ext, H, elem_of_cons. by left. }
  assert (IH' : filter (fun k => expiredAt s1 now k) ks
                = filter (fun k => expiredAt s2 now k) ks).
  { apply IH. intros k' Hk'. apply H, elem_of_cons. by right. }
  destruct (expiredAt s2 now k) eqn:E2.
  - rewrite !filter_cons_True by (rewrite ?E, ?E2; exact I). by rewrite IH'.
  - rewrite !filter_cons_False by (rewrite ?E, ?E2; exact id). done.
Qed.

Lemma indexKeys_dropAll ks s :
  "index"%string ∉ ks ->
  indexKeys (dropAll ks s) = filter (fun k => k ∉ ks) (indexKeys s).
Proof.
  revert s. induction ks as [|k ks IH]; intros s Hni; cbn [dropAll].
  - induction (indexKeys s) as [|x l IHl]; [done|].
    rewrite filter_cons_True by apply not_elem_of_nil. by rewrite <- IHl.
  - apply not_elem_of_cons in Hni as [Hk Hni].
    rewrite IH by done. rewrite indexKeys_dropKey by done.
    rewrite list_filter_filter. apply list_filter_iff. intros x.
    rewrite not_elem_of_cons. tauto.
Qed.

Lemma lookup_dropAll_slot ks s k :
  "index"%string ∉ ks -> k <> "index"%string ->
  dropAll ks s !! slot k = if decide (k ∈ ks) then None else s !! slot k.
Proof.
  revert s. induction ks as [|x ks IH]; intros s Hni Hk; cbn [dropAll].
  - destruct (decide (k ∈ [])) as [H|]; [by apply not_elem_of_nil in H | done].
  - apply not_elem_of_cons in Hni as [Hx Hni].
    rewrite IH by done. rewrite lookup_dropKey_slot by done.
    destruct (decide (k ∈ ks)) as [Hin|Hnin].
    + rewrite decide_True; [done|]. apply elem_of_cons. by right.
    + destruct (decide (k = x)) as [->|Hne].
      * rewrite decide_True; [done|]. apply elem_of_cons. by left.
      * rewrite decide_False; [done|]. rewrite not_elem_of_cons. tauto.
Qed.

Section Loop.

Context {B : Type}.
Variable step : B -> string -> M D B.
Variable onLive : B -> CachedDiagnosis D -> string -> B.
Variable onExpired : B -> B.

(** What one round of the loop computes from the storage it started
    with. *)
Definition pureStep s (now : Z) (b : B) (k : string) : B :=
  match s !! slot k with
  | Some (Entry c) => if now <=? expiresAt c then onLive b c k else onExpired b
  | _ => b
  end.

Hypothesis step_live : forall b k c w,
  storage w !! slot k = Some (Entry c) ->
  clock w <= expiresAt c ->
  step b k w = (Ret (onLive b c k), w).

Hypothesis step_expired : forall b k c w r w',
  storage w !! slot k = Some (Entry c) ->
  expiresAt c < clock w ->
  deleteCachedDiagnosis k w = (Ret r, w') ->
  step b k w = (Ret (onExpired b), w').

Lemma fold_pureStep_ext s1 s2 now ks b :
  (forall k, k ∈ ks -> s1 !! slot k = s2 !! slot k) ->
  fold_left (pureStep s1 now) ks b = fold_left (pureStep s2 now) ks b.
Proof using Type.
  revert b. induction ks as [|k ks IH]; intros b H; [done|]. cbn [fold_left].
  assert (E : pureStep s1 now b k = pureStep s2 now b k).
  { unfold pureStep. by rewrite (H k) by (apply elem_of_cons; by left). }
  rewrite E. apply IH. intros k' Hk'. apply H, elem_of_cons. by right.
Qed.

Lemma foldM_step_Good ks b w :
  Good w -> NoDup ks ->
  (forall k, k ∈ ks -> exists c, storage w !! slot k = Some (Entry c)) ->
  exists w',
    foldM step ks b w = (Ret (fold_left (pureStep (storage w) (clock w)) ks b), w')
    /\ Good w' /\ clock w' = clock w
    /\ storage w'
       = dropAll (filter (fun k => expiredAt (storage w) (clock w) k) ks) (storage w).
Proof using step_live step_expired.
  revert b w. induction ks as [|k ks IH]; intros b w HG Hnd Hent.
  { exists w. by split_and!. }
  apply NoDup_cons in Hnd as [Hk Hnd].
  destruct (Hent k) as [c Hc]; [apply elem_of_cons; by left|].
  pose proof (entry_key_not_index w k c HG Hc) as Hne.
  assert (Hrest : forall k', k' ∈ ks ->
            exists c', storage w !! slot k' = Some (Entry c')).
  { intros k' Hk'. apply Hent, elem_of_cons. by right. }
  destruct (Z.le_gt_cases (clock w) (expiresAt c)) as [Hlive|Hexp].
  - destruct (IH (onLive b c k) w HG Hnd Hrest) as (w' & E & HG' & Hclock & Hs).
    exists w'. split_and!; try done.
    + cbn [foldM fold_left]. rewrite (bind_eq _ _ _ _ _ (step_live b k c w Hc Hlive)).
      rewrite E. do 3 f_equal. unfold pureStep. rewrite Hc.
      by rewrite (proj2 (Z.leb_le _ _) Hlive).
    + rewrite filter_cons_False; [done|].
      unfold expiredAt. rewrite Hc, (proj2 (Z.ltb_ge _ _) Hlive). exact id.
  - destruct (deleteCachedDiagnosis_Good k w HG Hne) as (w1 & E1 & HG1 & Hclock1 & Hs1).
    assert (Hsame : forall k', k' ∈ ks -> storage w1 !! slot k' = storage w !! slot k').
    { intros k' Hk'. destruct (Hrest k' Hk') as [c' Hc'].
      rewrite Hs1, lookup_dropKey_slot by by apply (entry_key_not_index w k' c').
      rewrite decide_False; [done|]. by intros ->. }
    destruct (IH (onExpired b) w1 HG1 Hnd) as (w' & E & HG' & Hclock & Hs).
    { intros k' Hk'. rewrite Hsame by done. by apply Hrest. }
    exists w'. split_and!; try done.
    + cbn [foldM fold_left].
      rewrite (bind_eq _ _ _ _ _ (step_expired b k c w true w1 Hc Hexp E1)).
      rewrite E, Hclock1. rewrite (fold_pureStep_ext _ _ _ _ _ Hsame).
      do 3 f_equal. unfold pureStep. rewrite Hc.
      by rewrite (proj2 (Z.leb_gt _ _) Hexp).
    + congruence.
    + rewrite Hs, Hclock1, (filter_expiredAt_ext _ _ _ _ Hsame).
      rewrite filter_cons_True; [by rewrite Hs1|].
      unfold expiredAt. rewrite Hc, (proj2 (Z.ltb_lt _ _) Hexp). exact I.
Qed.

End Loop.

End Expiry.

Section SweepAndListing.

Context {D : Type}.

Implicit Types (w : World D) (s : gmap string (item D)).
Implicit Types (k : string) (ks : list string).

(** *** The sweep *)

Lemma sweepStep_live n k c w :
  storage w !! slot k = Some (Entry c) ->
  clock w <= expiresAt c ->
  sweepStep n k w = (Ret n, w).
Proof.
  intros Hc Ht. unfold sweepStep, try_catch, bind, getItem, Date_now, ret.
  rewrite Hc. simpl. by rewrite (proj2 (Z.ltb_ge _ _) Ht).
Qed.

Lemma sweepStep_expired n k c w r w' :
  storage w !! slot k = Some (Entry c) ->
  expiresAt c < clock w ->
  deleteCachedDiagnosis k w = (Ret r, w') ->
  sweepStep n k w = (Ret (S n), w').
Proof.
  intros Hc Ht E. unfold sweepStep, try_catch, bind, getItem, Date_now, ret.
  rewrite Hc. simpl. rewrite (proj2 (Z.ltb_lt _ _) Ht). by rewrite E.
Qed.

Lemma fold_sweep_count s now ks n :
  fold_left (pureStep (fun n _ _ => n) S s now) ks n
  = (n + length (filter (fun k => expiredAt s now k) ks))%nat.
Proof.
  revert n. induction ks as [|k ks IH]; intros n; cbn [fold_left].
  { simpl. lia. }
  rewrite IH. unfold pureStep, expiredAt.
  destruct (s !! slot k) as [[m|c|l]|] eqn:Hk;
    try (rewrite filter_cons_False by (unfold expiredAt; rewrite Hk; exact id); done).
  destruct (Z.le_gt_cases now (expiresAt c)) as [Hl|Hl].
  - rewrite (proj2 (Z.leb_le _ _) Hl).
    rewrite filter_cons_False; [done|].
    unfold expiredAt. rewrite Hk, (proj2 (Z.ltb_ge _ _) Hl). exact id.
  - rewrite (proj2 (Z.leb_gt _ _) Hl).
    rewrite filter_cons_True; [simpl; lia|].
    unfold expiredAt. rewrite Hk, (proj2 (Z.ltb_lt _ _) Hl). exact I.
Qed.

Lemma indexed_entries w :
  Good w ->
  forall k, k ∈ indexKeys (storage w) -> exists c, storage w !! slot k = Some (Entry c).
Proof. intros (_ & _ & _ & _ & _ & H) k. apply H. Qed.

Lemma clearExpiredDiagnoses_Good w :
  Good w ->
  exists w',
    clearExpiredDiagnoses w
    = (Ret (length (filter (fun k => expiredAt (storage w) (clock w) k)
                      (indexKeys (storage w)))), w')
    /\ Good w' /\ clock w' = clock w
    /\ storage w'
       = dropAll (filter (fun k => expiredAt (storage w) (clock w) k)
                    (indexKeys (storage w))) (storage w).
Proof.
  intros HG. pose proof HG as (Hwin & _ & Hr & Hnd & _).
  destruct (clearExpiredDiagnoses_unfold w Hwin Hr) as (w1 & n & w2 & _ & Hsame & E2 & E).
  pose proof (Good_same _ _ Hsame HG) as HG1.
  destruct Hsame as (_ & Hclock1 & Hs1 & _).
  destruct (foldM_step_Good sweepStep (fun n _ _ => n) S sweepStep_live sweepStep_expired
              (indexKeys (storage w)) O w1 HG1 Hnd)
    as (w2' & E2' & HG2 & Hclock2 & Hs2).
  { rewrite Hs1. by apply indexed_entries. }
  rewrite E2 in E2'. injection E2' as -> <-.
  rewrite fold_sweep_count, Hs1, Hclock1 in E. cbn [Nat.add] in E.
  rewrite Hs1, Hclock1 in Hs2.
  eexists. split; [exact E|]. split; [by apply Good_emit|].
  split; [simpl; congruence | done].
Qed.

(** *** The listing *)

Definition liveRecord s (now : Z) k : option (listed D) :=
  match s !! slot k with
  | Some (Entry c) => if now <=? expiresAt c then Some (c, k) else None
  | _ => None
  end.

Definition liveOf s (now : Z) ks : list (listed D) := omap (liveRecord s now) ks.

Lemma loadStep_live acc k c w :
  storage w !! slot k = Some (Entry c) ->
  clock w <= expiresAt c ->
  loadStep acc k w = (Ret (acc ++ [(c, k)]), w).
Proof.
  intros Hc Ht. unfold loadStep, try_catch, bind, getItem, Date_now, ret.
  rewrite Hc. simpl. by rewrite (proj2 (Z.leb_le _ _) Ht).
Qed.

Lemma loadStep_expired acc k c w r w' :
  storage w !! slot k = Some (Entry c) ->
  expiresAt c < clock w ->
  deleteCachedDiagnosis k w = (Ret r, w') ->
  loadStep acc k w = (Ret acc, w').
Proof.
  intros Hc Ht E. unfold loadStep, try_catch, bind, getItem, Date_now, ret.
  rewrite Hc. simpl. rewrite (proj2 (Z.leb_gt _ _) Ht). by rewrite E.
Qed.

Lemma fold_load_list s now ks (acc : list (listed D)) :
  fold_left (pureStep (fun acc c k => acc ++ [(c, k)]) (fun acc => acc) s now) ks acc
  = acc ++ liveOf s now ks.
Proof.
  revert acc. induction ks as [|k ks IH]; intros acc; cbn [fold_left].
  { unfold liveOf. simpl. by rewrite app_nil_r. }
  rewrite IH. unfold liveOf. cbn [omap list_omap]. unfold pureStep, liveRecord.
  destruct (s !! slot k) as [[m|c|l]|]; try done.
  destruct (now <=? expiresAt c); [|done]. by rewrite <- app_assoc.
Qed.

Lemma getAllCachedDiagnoses_Good w :
  Good w ->
  exists w',
    getAllCachedDiagnoses w
    = (Ret (sortNewestFirst (liveOf (storage w) (clock w) (indexKeys (storage w)))), w')
    /\ Good w' /\ clock w' = clock w
    /\ storage w'
       = dropAll (filter (fun k => expiredAt (storage w) (clock w) k)
                    (indexKeys (storage w))) (storage w).
Proof.
  intros HG. pose proof HG as (Hwin & _ & Hr & Hnd & _).
  unfold getAllCachedDiagnoses.
  rewrite (bind_eq _ _ w (window w) w) by done. rewrite Hwin. simpl.
  destruct (getDiagnosisCacheIndex_spec w Hwin) as (w1 & E1 & Hsame).
  rewrite (bind_eq _ _ _ _ _ E1), (indexValue_readable _ Hr). simpl.
  rewrite (bind_eq _ _ w1 (indexKeys (storage w)) w1) by done.
  pose proof (Good_same _ _ Hsame HG) as HG1.
  destruct Hsame as (_ & Hclock1 & Hs1 & _).
  destruct (foldM_step_Good loadStep (fun acc c k => acc ++ [(c, k)]) (fun acc => acc)
              loadStep_live loadStep_expired (indexKeys (storage w)) [] w1 HG1 Hnd)
    as (w2 & E2 & HG2 & Hclock2 & Hs2).
  { rewrite Hs1. by apply indexed_entries. }
  rewrite (bind_eq _ _ _ _ _ E2). rewrite fold_load_list, Hs1, Hclock1. simpl.
  rewrite Hs1, Hclock1 in Hs2.
  eexists. split; [done|]. split; [done|]. split; [congruence | done].
Qed.

(** *** Sorting, newest first *)

Fixpoint newestFirst (l : list (listed D)) : Prop :=
  match l with
  | [] => True
  | x :: l' =>
      Forall (fun y => timestamp (fst y) <= timestamp (fst x)) l' /\ newestFirst l'
  end.

Lemma insertNewest_Permutation (x : listed D) l : insertNewest x l ≡ₚ x :: l.
Proof.
  induction l as [|y l IH]; [done|]. cbn [insertNewest].
  destruct (timestamp (fst y) <=? timestamp (fst x)); [done|].
  rewrite IH. apply Permutation_swap.
Qed.

Lemma sortNewestFirst_Permutation (l : list (listed D)) : sortNewestFirst l ≡ₚ l.
Proof.
  induction l as [|x l IH]; [done|]. unfold sortNewestFirst in *. cbn [foldr].
  by rewrite insertNewest_Permutation, IH.
Qed.

Lemma insertNewest_newestFirst (x : listed D) l :
  newestFirst l -> newestFirst (insertNewest x l).
Proof.
  induction l as [|y l IH]; intros Hl; [by split|]. cbn [insertNewest].
  destruct Hl as [Hy Hl].
  destruct (Z.leb_spec (timestamp (fst y)) (timestamp (fst x))) as [Hle|Hgt].
  - split; [|by split]. constructor; [done|].
    eapply Forall_impl; [exact Hy|]. simpl. intros z Hz. lia.
  - split; [|by apply IH].
    rewrite insertNewest_Permutation. constructor; [lia | done].
Qed.

Lemma sortNewestFirst_newestFirst (l : list (listed D)) :
  newestFirst (sortNewestFirst l).
Proof.
  induction l as [|x l IH]; [done|]. unfold sortNewestFirst in *. cbn [foldr].
  by apply insertNewest_newestFirst.
Qed.

End SweepAndListing.

Section Clearing.

Context {D : Type}.
Variable recordBytes : CachedDiagnosis D -> N.
Variable keysBytes : list string -> N.
Variable MAX_BYTES : N.
Variable EXPIRY_MS : Z.

Implicit Types (w : World D) (s : gmap string (item D)).
Implicit Types (k : string) (ks : list string).

(** The storage once the slots of [ks] have been removed. *)
Definition removeSlots ks s : gmap string (item D) :=
  fold_left (fun s k => delete (slot k) s) ks s.

Lemma lookup_removeSlots_other ks s x :
  (forall k, k ∈ ks -> x <> slot k) -> removeSlots ks s !! x = s !! x.
Proof.
  revert s. induction ks as [|k ks IH]; intros s H; [done|].
  unfold removeSlots in *. cbn [fold_left]. rewrite IH.
  - apply lookup_delete_ne. intros E. apply (H k); [apply elem_of_cons; by left | done].
  - intros k' Hk'. apply H, elem_of_cons. by right.
Qed.

Lemma lookup_removeSlots_None ks s x :
  s !! x = None -> removeSlots ks s !! x = None.
Proof.
  revert s. induction ks as [|k ks IH]; intros s H; [done|].
  unfold removeSlots in *. cbn [fold_left]. apply IH.
  destruct (decide (slot k = x)) as [<-|Hne].
  - apply lookup_delete_eq.
  - by rewrite lookup_delete_ne.
Qed.

Lemma lookup_removeSlots_in ks s k :
  k ∈ ks -> removeSlots ks s !! slot k = None.
Proof.
  revert s. induction ks as [|k0 ks IH]; intros s Hin; [by apply elem_of_nil in Hin|].
  unfold removeSlots in *. cbn [fold_left].
  destruct (decide (k = k0)) as [->|Hne].
  - apply (lookup_removeSlots_None ks). apply lookup_delete_eq.
  - apply IH. apply elem_of_cons in Hin as [?|?]; done.
Qed.

Lemma foldM_removeItem ks w :
  foldM (fun (_ : unit) key => removeItem (slot key)) ks tt w
  = (Ret tt,
     mkWorld (window w) (removeSlots ks (storage w)) (clock w) (faults w)
       (rev (map (fun k => RemoveItem (slot k)) ks) ++ trace w)).
Proof.
  revert w. induction ks as [|k ks IH]; intros w.
  { by destruct w. }
  cbn [foldM]. unfold bind at 1. unfold removeItem at 1. rewrite IH.
  simpl. by rewrite <- app_assoc.
Qed.

Lemma clearAllDiagnosisCache_spec w :
  window w = true ->
  readable (storage w) ->
  exists w',
    clearAllDiagnosisCache w = (Ret true, w')
    /\ window w' = true /\ clock w' = clock w /\ faults w' = faults w
    /\ storage w'
       = delete DIAGNOSIS_CACHE_INDEX_KEY
           (removeSlots (indexKeys (storage w)) (storage w)).
Proof.
  intros Hwin Hr. unfold clearAllDiagnosisCache.
  rewrite (bind_eq _ _ w (window w) w) by done. rewrite Hwin. simpl.
  destruct (getDiagnosisCacheIndex_spec w Hwin) as (w1 & E1 & Hw1 & Hc1 & Hs1 & Hf1).
  unfold try_catch.
  rewrite (bind_eq _ _ _ _ _ E1), (indexValue_readable _ Hr). simpl.
  rewrite (bind_eq _ _ w1 (indexKeys (storage w)) w1) by done.
  rewrite (bind_eq _ _ _ _ _ (foldM_removeItem _ w1)).
  unfold bind, removeItem, console, ret. simpl.
  eexists. split; [done|]. simpl. split_and!; congruence.
Qed.

(** *** A record in the index slot *)

Lemma getDiagnosisCacheIndex_record w c :
  window w = true ->
  storage w !! DIAGNOSIS_CACHE_INDEX_KEY = Some (Entry c) ->
  getDiagnosisCacheIndex w = (Ret (JRecord c), w).
Proof.
  intros Hwin Hc.
  unfold getDiagnosisCacheIndex, bind, hasWindow, try_catch, getItem.
  rewrite Hwin. simpl. by rewrite Hc.
Qed.

Lemma getDiagnosisCacheSize_record w c :
  window w = true ->
  storage w !! DIAGNOSIS_CACHE_INDEX_KEY = Some (Entry c) ->
  getDiagnosisCacheSize recordBytes keysBytes w = (Throw TypeError, w).
Proof.
  intros Hwin Hc. unfold getDiagnosisCacheSize.
  rewrite (bind_eq _ _ w (window w) w) by done. rewrite Hwin. simpl.
  by rewrite (bind_eq _ _ _ _ _ (getDiagnosisCacheIndex_record w c Hwin Hc)).
Qed.

Lemma clearExpiredDiagnoses_record w c :
  window w = true ->
  storage w !! DIAGNOSIS_CACHE_INDEX_KEY = Some (Entry c) ->
  clearExpiredDiagnoses w = (Throw TypeError, w).
Proof.
  intros Hwin Hc. unfold clearExpiredDiagnoses.
  rewrite (bind_eq _ _ w (window w) w) by done. rewrite Hwin. simpl.
  by rewrite (bind_eq _ _ _ _ _ (getDiagnosisCacheIndex_record w c Hwin Hc)).
Qed.

Lemma getAllCachedDiagnoses_record w c :
  window w = true ->
  storage w !! DIAGNOSIS_CACHE_INDEX_KEY = Some (Entry c) ->
  getAllCachedDiagnoses w = (Throw TypeError, w).
Proof.
  intros Hwin Hc. unfold getAllCachedDiagnoses.
  rewrite (bind_eq _ _ w (window w) w) by done. rewrite Hwin. simpl.
  by rewrite (bind_eq _ _ _ _ _ (getDiagnosisCacheIndex_record w c Hwin Hc)).
Qed.

Lemma clearAllDiagnosisCache_record w c :
  window w = true ->
  storage w !! DIAGNOSIS_CACHE_INDEX_KEY = Some (Entry c) ->
  clearAllDiagnosisCache w = (Ret false, emit (Console (FailedToClear TypeError)) w).
Proof.
  intros Hwin Hc. unfold clearAllDiagnosisCache.
  rewrite (bind_eq _ _ w (window w) w) by done. rewrite Hwin. simpl.
  unfold try_catch.
  by rewrite (bind_eq _ _ _ _ _ (getDiagnosisCacheIndex_record w c Hwin Hc)).
Qed.

Lemma cacheDiagnosis_record organ image (d : D) w c :
  window w = true ->
  storage w !! DIAGNOSIS_CACHE_INDEX_KEY = Some (Entry c) ->
  cacheDiagnosis recordBytes keysBytes MAX_BYTES EXPIRY_MS organ image d w
  = (Ret false, emit (Console (FailedToCache TypeError)) w).
Proof.
  intros Hwin Hc. unfold cacheDiagnosis.
  rewrite (bind_eq _ _ w (window w) w) by done. rewrite Hwin. simpl.
  unfold try_catch.
  rewrite (bind_eq _ _ w (S (indexLength (storage w))) w) by done.
  assert (Efull : isDiagnosisCacheFull recordBytes keysBytes MAX_BYTES w
                  = (Throw TypeError, w)).
  { unfold isDiagnosisCacheFull.
    by rewrite (bind_Throw_eq _ _ _ _ _ (getDiagnosisCacheSize_record w c Hwin Hc)). }
  assert (Eloop : evictWhileFull recordBytes keysBytes MAX_BYTES
                    (S (indexLength (storage w))) w = (Throw TypeError, w)).
  { cbn [evictWhileFull]. by rewrite (bind_Throw_eq _ _ _ _ _ Efull). }
  by rewrite (bind_Throw_eq _ _ _ _ _ Eloop).
Qed.

Lemma deleteCachedDiagnosis_record key w c :
  window w = true ->
  storage w !! DIAGNOSIS_CACHE_INDEX_KEY = Some (Entry c) ->
  key <> "index"%string ->
  exists w', deleteCachedDiagnosis key w = (Ret false, w')
             /\ storage w' = delete (slot key) (storage w).
Proof.
  intros Hwin Hc Hne. unfold deleteCachedDiagnosis.
  rewrite (bind_eq _ _ w (window w) w) by done. rewrite Hwin. simpl.
  unfold try_catch.
  set (w1 := emit (RemoveItem (slot key)) (with_storage (delete (slot key) (storage w)) w)).
  rewrite (bind_eq _ _ w tt w1) by done.
  assert (Hc1 : storage w1 !! DIAGNOSIS_CACHE_INDEX_KEY = Some (Entry c)).
  { simpl. rewrite lookup_delete_ne; [done|]. by apply slot_not_index. }
  assert (E : removeFromDiagnosisCacheIndex key w1 = (Throw TypeError, w1)).
  { unfold removeFromDiagnosisCacheIndex.
    by rewrite (bind_eq _ _ _ _ _ (getDiagnosisCacheIndex_record w1 c Hwin Hc1)). }
  rewrite (bind_Throw_eq _ _ _ _ _ E).
  eexists. split; [done|]. done.
Qed.

(** *** What a lookup reads *)


(** A lookup changes the storage only by deleting the record it has found
    expired. *)
Lemma getCachedDiagnosis_storage image w :
  storage (snd (getCachedDiagnosis image w)) = storage w
  \/ exists c, storage w !! slot (generateImageHash image) = Some (Entry c)
               /\ expiresAt c < clock w.
Proof.
  unfold getCachedDiagnosis, try_catch, bind, hasWindow, getItem, Date_now, console, ret.
  destruct (window w); simpl; [|by left].
  destruct (storage w !! slot (generateImageHash image)) as [[m|c|l]|] eqn:Hs;
    simpl; try by left.
  - destruct (negb (m =? 0)%N); by left.
  - destruct (Z.ltb_spec (expiresAt c) (clock w)); [right; by exists c | by left].
Qed.

End Clearing.

(** ** More on eviction *)

Section EvictionOrder.

Context {D : Type}.
Variable recordBytes : CachedDiagnosis D -> N.
Variable keysBytes : list string -> N.
Variable MAX_BYTES : N.
Variable EXPIRY_MS : Z.

Implicit Types (w : World D) (s : gmap string (item D)).
Implicit Types (k : string) (ks : list string).

(** What a round of eviction does once the scan is over. *)
Definition evictChosen (chosen : option string) : M D unit :=
  match chosen with
  | Some oldestKey =>
      if bool_decide (oldestKey = EmptyString) then ret tt
      else bind (console (EvictingOldest oldestKey)) (fun _ =>
           bind (deleteCachedDiagnosis oldestKey) (fun _ => ret tt))
  | None => ret tt
  end.

Lemma evictOldestDiagnosis_unfold w :
  window w = true -> readable (storage w) ->
  exists w2, same w w2
             /\ evictOldestDiagnosis w = evictChosen (fst (oldest (storage w))) w2.
Proof.
  intros Hwin Hr. unfold evictOldestDiagnosis.
  destruct (getDiagnosisCacheIndex_spec w Hwin) as (w1 & E1 & Hsame1).
  rewrite (bind_eq _ _ _ _ _ E1), (indexValue_readable _ Hr).
  rewrite (bind_eq _ _ w1 (indexKeys (storage w)) w1) by done.
  destruct (foldM_oldestStep_spec (indexKeys (storage w)) (None, Infinity) w1)
    as (w2 & E2 & Hsame2).
  rewrite (bind_eq _ _ _ _ _ E2).
  assert (Hs1 : storage w1 = storage w) by apply Hsame1.
  rewrite Hs1. fold (oldest (storage w)).
  exists w2. split; [by eapply same_trans | done].
Qed.



(** *** A full cache with nothing to evict *)

Definition nothingToEvict s : Prop :=
  forall k c, k ∈ indexKeys s -> s !! slot k <> Some (Entry c).

Lemma oldest_nothingToEvict s : nothingToEvict s -> oldest s = (None, Infinity).
Proof.
  intros H. unfold oldest.
  destruct (fold_older_spec s (indexKeys s) (None, Infinity)) as (_ & _ & [E|E]); [done|].
  destruct E as (k & c & Hin & Hc & _). by destruct (H k c Hin).
Qed.

Lemma evictWhileFull_nothingToEvict fuel w :
  window w = true -> readable (storage w) -> nothingToEvict (storage w) ->
  (MAX_BYTES <= totalBytes recordBytes keysBytes (storage w))%N ->
  exists w', evictWhileFull recordBytes keysBytes MAX_BYTES fuel w = (Hang, w')
             /\ same w w'.
Proof.
  revert w. induction fuel as [|fuel IH]; intros w Hwin Hr Hno Hfull.
  - cbn [evictWhileFull].
    destruct (isDiagnosisCacheFull_spec recordBytes keysBytes MAX_BYTES w Hwin Hr)
      as (w1 & E1 & Hsame1).
    rewrite (bind_eq _ _ _ _ _ E1). apply N.leb_le in Hfull. rewrite Hfull.
    by exists w1.
  - cbn [evictWhileFull].
    destruct (isDiagnosisCacheFull_spec recordBytes keysBytes MAX_BYTES w Hwin Hr)
      as (w1 & E1 & Hsame1).
    rewrite (bind_eq _ _ _ _ _ E1). pose proof Hfull as Hfull'.
    apply N.leb_le in Hfull'. rewrite Hfull'.
    pose proof Hsame1 as (Hwin1 & _ & Hs1 & _).
    destruct (evictOldestDiagnosis_unfold w1) as (w2 & Hsame2 & E2);
      [congruence | by rewrite Hs1 |].
    rewrite Hs1, (oldest_nothingToEvict _ Hno) in E2. cbn [fst evictChosen] in E2.
    unfold ret in E2. rewrite (bind_eq _ _ _ _ _ E2).
    pose proof Hsame2 as (Hwin2 & _ & Hs2 & _).
    destruct (IH w2) as (w' & E & Hsame'); try (rewrite ?Hs2, ?Hs1; done); [congruence|].
    exists w'. split; [done|].
    eapply same_trans; [exact Hsame1|]. eapply same_trans; [exact Hsame2 | exact Hsame'].
Qed.

Lemma cacheDiagnosis_nothingToEvict organ image (d : D) w :
  window w = true -> readable (storage w) -> nothingToEvict (storage w) ->
  (MAX_BYTES <= totalBytes recordBytes keysBytes (storage w))%N ->
  fst (cacheDiagnosis recordBytes keysBytes MAX_BYTES EXPIRY_MS organ image d w) = Hang.
Proof.
  intros Hwin Hr Hno Hfull. unfold cacheDiagnosis.
  rewrite (bind_eq _ _ w (window w) w) by done. rewrite Hwin. simpl.
  unfold try_catch.
  rewrite (bind_eq _ _ w (S (indexLength (storage w))) w) by done.
  destruct (evictWhileFull_nothingToEvict (S (indexLength (storage w))) w Hwin Hr Hno Hfull)
    as (w' & E & _).
  by rewrite (bind_Hang_eq _ _ _ _ E).
Qed.

End EvictionOrder.

(** ** Writes that go wrong *)

Section Mishaps.

Context {D : Type}.
Variable recordBytes : CachedDiagnosis D -> N.
Variable keysBytes : list string -> N.
Variable MAX_BYTES : N.
Variable EXPIRY_MS : Z.

Implicit Types (w : World D) (s : gmap string (item D)).
Implicit Types (k : string) (ks : list string).

Lemma readable_insert_slot s key (v : item D) :
  readable s -> key <> "index"%string -> readable (<[slot key := v]> s).
Proof.
  intros Hr Hne c. rewrite lookup_insert_ne by by apply slot_not_index. apply Hr.
Qed.

(** Below the budget the eviction loop does nothing. *)
Lemma evictWhileFull_below fuel w :
  window w = true -> readable (storage w) ->
  (totalBytes recordBytes keysBytes (storage w) < MAX_BYTES)%N ->
  exists w1, evictWhileFull recordBytes keysBytes MAX_BYTES fuel w = (Ret tt, w1)
             /\ same w w1.
Proof.
  intros Hwin Hr Hlt.
  destruct (isDiagnosisCacheFull_spec recordBytes keysBytes MAX_BYTES w Hwin Hr)
    as (w1 & E1 & Hsame1).
  exists w1. split; [|done].
  apply N.leb_gt in Hlt.
  destruct fuel; cbn [evictWhileFull]; by rewrite (bind_eq _ _ _ _ _ E1), Hlt.
Qed.

(** The record is written, then the storage rejects the write of the
    index: the rejection is logged by [updateDiagnosisCacheIndex] and goes
    no further. *)
Lemma cacheDiagnosis_index_write_rejected organ image (d : D) w e rest :
  window w = true -> readable (storage w) ->
  faults w = None :: Some e :: rest ->
  (totalBytes recordBytes keysBytes (storage w) < MAX_BYTES)%N ->
  generateImageHash image ∉ indexKeys (storage w) ->
  generateImageHash image <> "index"%string ->
  exists w',
    cacheDiagnosis recordBytes keysBytes MAX_BYTES EXPIRY_MS organ image d w = (Ret true, w')
    /\ window w' = true /\ clock w' = clock w /\ faults w' = rest
    /\ storage w' = <[slot (generateImageHash image) :=
                        Entry (recordOf EXPIRY_MS organ image d (clock w))]> (storage w).
Proof.
  intros Hwin Hr Hf Hlt Hnin Hne. unfold cacheDiagnosis.
  rewrite (bind_eq _ _ w (window w) w) by done. rewrite Hwin. simpl.
  unfold try_catch.
  rewrite (bind_eq _ _ w (S (indexLength (storage w))) w) by done.
  destruct (evictWhileFull_below (S (indexLength (storage w))) w Hwin Hr Hlt)
    as (w1 & E1 & Hwin1 & Hclock1 & Hs1 & Hf1).
  rewrite (bind_eq _ _ _ _ _ E1).
  set (key := generateImageHash image) in *.
  set (c := recordOf EXPIRY_MS organ image d (clock w)).
  set (w2 := emit (SetItem (slot key) (Entry c) None)
               (with_faults (Some e :: rest)
                  (with_storage (<[slot key := Entry c]> (storage w1)) w1))).
  assert (Ew : writeEntry EXPIRY_MS organ key key d w1
               = addToDiagnosisCacheIndex key w2).
  { unfold writeEntry. rewrite (bind_eq _ _ w1 (clock w1) w1) by done.
    assert (E2 : setItem (slot key)
                   (Entry (mkCached organ key d (clock w1) (clock w1 + EXPIRY_MS))) w1
                 = (Ret tt, w2)).
    { unfold setItem. rewrite Hf1, Hf. unfold w2, c, recordOf. by rewrite Hclock1. }
    by rewrite (bind_eq _ _ _ _ _ E2). }
  assert (Hwin2 : window w2 = true) by (simpl; congruence).
  assert (Hs2 : storage w2 = <[slot key := Entry c]> (storage w)) by (simpl; congruence).
  assert (Hr2 : readable (storage w2)).
  { rewrite Hs2. by apply readable_insert_slot. }
  destruct (getDiagnosisCacheIndex_spec w2 Hwin2) as (w3 & E3 & Hwin3 & Hclock3 & Hs3 & Hf3).
  destruct (updateDiagnosisCacheIndex_spec (indexKeys (storage w) ++ [key]) w3)
    as (w4 & E4 & Hwin4 & Hclock4 & Hf4 & Hs4); [congruence|].
  assert (Hf3' : faults w3 = Some e :: rest) by (rewrite Hf3; done).
  rewrite Hf3' in Hf4, Hs4. simpl in Hf4, Hs4.
  destruct Hs4 as [[_ Hno] | [Hs4 _]]; [by destruct (Hno e)|].
  assert (Ea : addToDiagnosisCacheIndex key w2 = (Ret tt, w4)).
  { unfold addToDiagnosisCacheIndex.
    rewrite (bind_eq _ _ _ _ _ E3), (indexValue_readable _ Hr2).
    rewrite Hs2, indexKeys_insert_slot by done.
    rewrite (bind_eq _ _ w3 (indexKeys (storage w)) w3) by done.
    by rewrite bool_decide_eq_false_2 by done. }
  rewrite Ea in Ew. rewrite (bind_eq _ _ _ _ _ Ew).
  unfold bind, console, ret. simpl.
  eexists. split; [done|]. simpl.
  split_and!; try done; try congruence.
  - rewrite Hclock4, Hclock3. simpl. done.
Qed.

(** An image whose fingerprint reads "index" is written over the index. *)
Lemma cacheDiagnosis_over_index organ image (d : D) w :
  Good w -> (0 < MAX_BYTES)%N ->
  generateImageHash image = "index"%string ->
  exists w',
    cacheDiagnosis recordBytes keysBytes MAX_BYTES EXPIRY_MS organ image d w = (Ret false, w')
    /\ window w' = true /\ clock w' = clock w
    /\ storage w' !! DIAGNOSIS_CACHE_INDEX_KEY
       = Some (Entry (recordOf EXPIRY_MS organ image d (clock w))).
Proof.
  intros HG Hmax Hidx. pose proof HG as (Hwin & Hf & Hc). unfold cacheDiagnosis.
  rewrite (bind_eq _ _ w (window w) w) by done. rewrite Hwin. simpl.
  unfold try_catch.
  rewrite (bind_eq _ _ w (S (indexLength (storage w))) w) by done.
  destruct (evictWhileFull_Good recordBytes keysBytes MAX_BYTES
              (S (indexLength (storage w))) w HG Hmax)
    as (w1 & E1 & (Hwin1 & Hf1 & Hc1) & Hclock1 & _); [rewrite indexLength_indexKeys; lia|].
  rewrite (bind_eq _ _ _ _ _ E1).
  set (c := recordOf EXPIRY_MS organ image d (clock w)).
  set (w2 := emit (SetItem DIAGNOSIS_CACHE_INDEX_KEY (Entry c) None)
               (with_storage (<[DIAGNOSIS_CACHE_INDEX_KEY := Entry c]> (storage w1)) w1)).
  assert (Hc2 : storage w2 !! DIAGNOSIS_CACHE_INDEX_KEY = Some (Entry c)).
  { simpl. apply lookup_insert_eq. }
  assert (Ew : writeEntry EXPIRY_MS organ (generateImageHash image)
                 (generateImageHash image) d w1 = (Throw TypeError, w2)).
  { unfold writeEntry. rewrite (bind_eq _ _ w1 (clock w1) w1) by done.
    assert (E2 : setItem (slot (generateImageHash image))
                   (Entry (mkCached organ (generateImageHash image) d (clock w1)
                             (clock w1 + EXPIRY_MS))) w1
                 = (Ret tt, w2)).
    { unfold setItem. rewrite Hf1. unfold w2, c, recordOf. rewrite Hclock1, Hidx. done. }
    rewrite (bind_eq _ _ _ _ _ E2). unfold addToDiagnosisCacheIndex.
    by rewrite (bind_eq _ _ _ _ _ (getDiagnosisCacheIndex_record w2 c Hwin1 Hc2)). }
  assert (Eb : bind (writeEntry EXPIRY_MS organ (generateImageHash image)
                       (generateImageHash image) d)
                 (fun _ => bind (console (CachedOk (generateImageHash image) organ))
                             (fun _ => ret true)) w1 = (Throw TypeError, w2)).
  { by rewrite (bind_Throw_eq _ _ _ _ _ Ew). }
  rewrite Eb. unfold bind, console, ret. simpl.
  eexists. split; [done|]. simpl. by split_and!.
Qed.

(** The slot of the fingerprint "index" is the index: looking up such an
    image reads the key array, which has neither [expiresAt] nor
    [diagnosis]. *)
Lemma getCachedDiagnosis_index image w ks :
  window w = true ->
  generateImageHash image = "index"%string ->
  storage w !! DIAGNOSIS_CACHE_INDEX_KEY = Some (Keys ks) ->
  getCachedDiagnosis image w = (Ret Undefined, emit (Console (FoundCached "index")) w).
Proof.
  intros Hwin Hidx Hk. unfold getCachedDiagnosis.
  rewrite (bind_eq _ _ w (window w) w) by done. rewrite Hwin. simpl.
  unfold try_catch, bind, getItem, Date_now, console, ret. rewrite Hidx.
  change (slot "index") with DIAGNOSIS_CACHE_INDEX_KEY. rewrite Hk. done.
Qed.

End Mishaps.

(** ** The fingerprint as arithmetic *)

Section Fingerprint.

Lemma toInt32_spec z : exists q, JS.toInt32 z = z + 2 ^ 32 * q.
Proof.
  unfold JS.toInt32. exists (- ((z + 2 ^ 31) / 2 ^ 32)).
  pose proof (Z.div_mod (z + 2 ^ 31) (2 ^ 32)). lia.
Qed.

Lemma toInt32_range z : - 2 ^ 31 <= JS.toInt32 z < 2 ^ 31.
Proof.
  unfold JS.toInt32. pose proof (Z.mod_pos_bound (z + 2 ^ 31) (2 ^ 32)). lia.
Qed.

Lemma toInt32_add_mul z q : JS.toInt32 (z + 2 ^ 32 * q) = JS.toInt32 z.
Proof.
  unfold JS.toInt32.
  replace (z + 2 ^ 32 * q + 2 ^ 31) with (z + 2 ^ 31 + q * 2 ^ 32) by lia.
  by rewrite Z.mod_add.
Qed.

(** One round of the loop multiplies by 31 and adds the code unit, modulo
    2^32. *)
Lemma hashStep_toInt32 h c : hashStep (JS.toInt32 h) c = JS.toInt32 (31 * h + c).
Proof.
  unfold hashStep, JS.band, JS.shl. rewrite Z.land_diag, Z.shiftl_mul_pow2 by lia.
  destruct (toInt32_spec h) as [q1 E1].
  destruct (toInt32_spec (JS.toInt32 h)) as [q2 E2].
  destruct (toInt32_spec (JS.toInt32 (JS.toInt32 h) * 2 ^ 5)) as [q3 E3].
  rewrite E3, E2, E1.
  replace ((h + 2 ^ 32 * q1 + 2 ^ 32 * q2) * 2 ^ 5 + 2 ^ 32 * q3 - (h + 2 ^ 32 * q1) + c)
    with (31 * h + c + 2 ^ 32 * (32 * q1 + 32 * q2 + q3 - q1)) by lia.
  apply toInt32_add_mul.
Qed.

(** The text that is hashed: the three samples and the decimal length. *)
Definition sampled (imageData : string) : string :=
  String.concat "" (sections imageData) +:+ JS.toString 10 (JS.length imageData).

(** Horner's rule: c0 * x^(n-1) + ... + c(n-1). *)
Definition polynomial (x : Z) (cs : list Z) : Z :=
  fold_left (fun h c => x * h + c) cs 0.

Lemma fold_left_commute {A B} (f g : A -> B -> A) (T : A -> A) (l : list B) (a : A) :
  (forall a b, f (T a) b = T (g a b)) ->
  fold_left f l (T a) = T (fold_left g l a).
Proof.
  intros H. revert a. induction l as [|b l IH]; intros a; [done|].
  cbn [fold_left]. rewrite H. apply IH.
Qed.

Lemma fold_hashStep cs h :
  fold_left hashStep cs (JS.toInt32 h)
  = JS.toInt32 (fold_left (fun h c => 31 * h + c) cs h).
Proof. apply (fold_left_commute hashStep), hashStep_toInt32. Qed.

Lemma generateImageHash_polynomial image :
  generateImageHash image
  = JS.toString 36 (Z.abs (JS.toInt32 (polynomial 31 (JS.charCodes (sampled image))))).
Proof.
  unfold generateImageHash, polynomial. fold (sampled image).
  change 0 with (JS.toInt32 0) at 1. by rewrite fold_hashStep.
Qed.

(** *** Alphabet and length *)

Definition isBase36 (c : ascii) : bool :=
  let n := nat_of_ascii c in
  ((48 <=? n) && (n <=? 57) || (97 <=? n) && (n <=? 122))%nat.

Fixpoint allBase36 (s : string) : bool :=
  match s with
  | EmptyString => true
  | String c r => isBase36 c && allBase36 r
  end.

Lemma digit_isBase36 d : 0 <= d < 36 -> isBase36 (JS.digit d) = true.
Proof.
  intros Hd. assert (H : exists n : nat, d = Z.of_nat n /\ (n < 36)%nat).
  { exists (Z.to_nat d). lia. }
  destruct H as (n & -> & Hn).
  do 36 (destruct n as [|n]; [reflexivity|]). lia.
Qed.

Lemma digits_allBase36 fuel n acc :
  0 <= n -> allBase36 acc = true -> allBase36 (JS.digits fuel 36 n acc) = true.
Proof.
  revert n acc. induction fuel as [|fuel IH]; intros n acc Hn Hacc; [done|].
  cbn [JS.digits].
  assert (Hacc' : allBase36 (String (JS.digit (n mod 36)) acc) = true).
  { cbn [allBase36]. rewrite Hacc, digit_isBase36; [done|].
    apply Z.mod_pos_bound. lia. }
  destruct (n / 36 =? 0); [done|]. apply IH; [|done]. apply Z.div_pos; lia.
Qed.

Lemma digits_length fuel n acc (k : nat) :
  0 <= n < 36 ^ Z.of_nat (S k) ->
  (String.length (JS.digits fuel 36 n acc) <= String.length acc + S k)%nat.
Proof.
  revert n acc k. induction fuel as [|fuel IH]; intros n acc k Hn; [simpl; lia|].
  cbn [JS.digits]. destruct (Z.eqb_spec (n / 36) 0) as [Hz|Hnz]; [simpl; lia|].
  rewrite Nat2Z.inj_succ, Z.pow_succ_r in Hn by lia.
  destruct k as [|k].
  - exfalso. apply Hnz. apply Z.div_small. simpl in Hn. lia.
  - etrans; [apply (IH _ _ k)|simpl; lia].
    split; [apply Z.div_pos; lia|].
    apply Z.div_lt_upper_bound; lia.
Qed.

Lemma generateImageHash_alphabet image :
  allBase36 (generateImageHash image) = true
  /\ (String.length (generateImageHash image) <= 6)%nat.
Proof.
  rewrite generateImageHash_polynomial.
  set (h := JS.toInt32 _). pose proof (toInt32_range (polynomial 31 (JS.charCodes (sampled image)))) as Hr.
  fold h in Hr. unfold JS.toString. rewrite Z.abs_idemp.
  assert (Hneg : (Z.abs h <? 0) = false) by lia. rewrite Hneg. split.
  - apply digits_allBase36; [lia | done].
  - etrans; [apply (digits_length _ _ _ 5)|simpl; lia].
    change (36 ^ Z.of_nat 6) with 2176782336. change (2 ^ 31) with 2147483648 in Hr. lia.
Qed.

(** *** Keys built from an organ name and a fingerprint *)

Lemma allBase36_underscore b y : allBase36 (b +:+ String "_"%char y) = false.
Proof.
  induction b as [|c b IH].
  - reflexivity.
  - change (String c b +:+ String "_"%char y) with (String c (b +:+ String "_"%char y)).
    cbn [allBase36]. rewrite IH. apply andb_false_r.
Qed.

Lemma app_underscore_inj a b x y :
  allBase36 x = true -> allBase36 y = true ->
  a +:+ String "_"%char x = b +:+ String "_"%char y -> a = b /\ x = y.
Proof.
  intros Hx Hy. revert b. induction a as [|c a IH]; intros [|c' b] E.
  - change (String "_"%char x = String "_"%char y) in E. by simplify_eq.
  - change (String "_"%char x = String c' (b +:+ String "_"%char y)) in E.
    simplify_eq. by rewrite allBase36_underscore in Hx.
  - change (String c (a +:+ String "_"%char x) = String "_"%char y) in E.
    simplify_eq. by rewrite allBase36_underscore in Hy.
  - change (String c (a +:+ String "_"%char x) = String c' (b +:+ String "_"%char y)) in E.
    simplify_eq. destruct (IH b) as [-> ->]; done.
Qed.

Lemma generateDiagnosisCacheKey_inj organ1 organ2 hash1 hash2 :
  allBase36 hash1 = true -> allBase36 hash2 = true ->
  generateDiagnosisCacheKey organ1 hash1 = generateDiagnosisCacheKey organ2 hash2 ->
  JS.toLowerCase organ1 = JS.toLowerCase organ2 /\ hash1 = hash2.
Proof.
  intros H1 H2 E. unfold generateDiagnosisCacheKey in E.
  by apply app_underscore_inj.
Qed.


(** *** Numerals

    [n.toString(radix)] is a numeral of [n]: reading it back gives [n]. *)








(** *** Keys of the model cache *)







(** *** What the samples leave out *)

Lemma substring_app_l n m s1 s2 :
  (n + m <= String.length s1)%nat ->
  String.substring n m (s1 +:+ s2) = String.substring n m s1.
Proof.
  revert n m. induction s1 as [|c s1 IH]; intros n m H.
  - simpl in H. assert (n = O) as -> by lia. assert (m = O) as -> by lia.
    by destruct s2.
  - change (String c s1 +:+ s2) with (String c (s1 +:+ s2)).
    destruct n as [|n].
    + destruct m as [|m]; [done|]. cbn [String.substring]. f_equal.
      apply IH. simpl in H. lia.
    + cbn [String.substring]. apply IH. simpl in H. lia.
Qed.

Lemma substring_app_r n m s1 s2 :
  (String.length s1 <= n)%nat ->
  String.substring n m (s1 +:+ s2) = String.substring (n - String.length s1) m s2.
Proof.
  revert n. induction s1 as [|c s1 IH]; intros n H.
  - change (EmptyString +:+ s2) with s2. simpl. by rewrite Nat.sub_0_r.
  - change (String c s1 +:+ s2) with (String c (s1 +:+ s2)).
    destruct n as [|n]; [simpl in H; lia|].
    cbn [String.substring String.length Nat.sub]. apply IH. simpl in H. lia.
Qed.

Lemma app_assoc_string (s1 s2 s3 : string) : s1 +:+ (s2 +:+ s3) = (s1 +:+ s2) +:+ s3.
Proof.
  induction s1 as [|c s1 IH]; [done|].
  change (String c s1 +:+ (s2 +:+ s3)) with (String c (s1 +:+ (s2 +:+ s3))).
  change ((String c s1 +:+ s2) +:+ s3) with (String c ((s1 +:+ s2) +:+ s3)).
  by rewrite IH.
Qed.

(** A window of [substring] that stays clear of [x] reads the same when
    [x] is replaced by a [y] of the same length. *)
Lemma JS_substring_outside a b pre x y post :
  String.length x = String.length y ->
  (let len := JS.length (pre +:+ x +:+ post) in
   let lo := Z.min (JS.clamp len a) (JS.clamp len b) in
   let hi := Z.max (JS.clamp len a) (JS.clamp len b) in
   hi <= Z.of_nat (String.length pre)
   \/ Z.of_nat (String.length pre + String.length x) <= lo) ->
  JS.substring a b (pre +:+ x +:+ post) = JS.substring a b (pre +:+ y +:+ post).
Proof.
  intros Hxy H. cbn zeta in H.
  assert (Hlen : JS.length (pre +:+ y +:+ post) = JS.length (pre +:+ x +:+ post)).
  { unfold JS.length. by rewrite !length_app, Hxy. }
  unfold JS.substring. rewrite Hlen.
  set (len := JS.length (pre +:+ x +:+ post)) in *.
  set (lo := Z.min (JS.clamp len a) (JS.clamp len b)) in *.
  set (hi := Z.max (JS.clamp len a) (JS.clamp len b)) in *.
  assert (Hlo : 0 <= lo <= hi).
  { unfold lo, hi, JS.clamp, len, JS.length. lia. }
  destruct H as [H|H].
  - rewrite !substring_app_l by lia. done.
  - rewrite !app_assoc_string.
    rewrite !substring_app_r by (rewrite length_app; lia).
    by rewrite !length_app, Hxy.
Qed.

Lemma sections_outside pre x y post :
  String.length x = String.length y ->
  (let len := JS.length (pre +:+ x +:+ post) in
   (sampleSize <= Z.of_nat (String.length pre)
    /\ Z.of_nat (String.length pre + String.length x) <= len / 2)
   \/ (len / 2 + sampleSize <= Z.of_nat (String.length pre)
       /\ Z.of_nat (String.length pre + String.length x) <= len - sampleSize)) ->
  sections (pre +:+ x +:+ post) = sections (pre +:+ y +:+ post).
Proof.
  intros Hxy H. cbn zeta in H.
  assert (Hlen : JS.length (pre +:+ y +:+ post) = JS.length (pre +:+ x +:+ post)).
  { unfold JS.length. by rewrite !length_app, Hxy. }
  unfold sections. rewrite Hlen.
  set (len := JS.length (pre +:+ x +:+ post)) in *.
  assert (Hlen' : len = Z.of_nat (String.length pre + String.length x + String.length post)).
  { unfold len, JS.length. rewrite !length_app. lia. }
  unfold sampleSize in *.
  pose proof (Z.div_mod len 2) as Hdiv. pose proof (Z.mod_pos_bound len 2) as Hmod.
  f_equal; [|f_equal; [|f_equal]];
    apply JS_substring_outside; try done; cbn zeta; fold len; unfold JS.clamp; lia.
Qed.

Lemma generateImageHash_outside pre x y post :
  String.length x = String.length y ->
  (let len := JS.length (pre +:+ x +:+ post) in
   (sampleSize <= Z.of_nat (String.length pre)
    /\ Z.of_nat (String.length pre + String.length x) <= len / 2)
   \/ (len / 2 + sampleSize <= Z.of_nat (String.length pre)
       /\ Z.of_nat (String.length pre + String.length x) <= len - sampleSize)) ->
  generateImageHash (pre +:+ x +:+ post) = generateImageHash (pre +:+ y +:+ post).
Proof.
  intros Hxy H. unfold generateImageHash.
  rewrite (sections_outside pre x y post Hxy H).
  assert (Hlen : JS.length (pre +:+ y +:+ post) = JS.length (pre +:+ x +:+ post)).
  { unfold JS.length. by rewrite !length_app, Hxy. }
  by rewrite Hlen.
Qed.

End Fingerprint.

(** ** Slots that an operation leaves alone *)

Section Untouched.

Context {D : Type}.
Variable recordBytes : CachedDiagnosis D -> N.
Variable keysBytes : list string -> N.

Implicit Types (w : World D) (s : gmap string (item D)).
Implicit Types (k : string) (ks : list string).

Lemma filter_ext_in {A} (P Q : A -> Prop) `{!forall x, Decision (P x)}
    `{!forall x, Decision (Q x)} (l : list A) :
  (forall x, x ∈ l -> (P x <-> Q x)) -> filter P l = filter Q l.
Proof.
  induction l as [|x l IH]; intros Hext; [done|].
  assert (IH' : filter P l = filter Q l).
  { apply IH. intros y Hy. apply Hext, elem_of_cons. by right. }
  assert (Hx : P x <-> Q x) by (apply Hext, elem_of_cons; by left).
  destruct (decide (P x)) as [HP|HP].
  - rewrite !filter_cons_True by tauto. by rewrite IH'.
  - rewrite !filter_cons_False by tauto. done.
Qed.

Lemma filter_nil_in {A} (P : A -> Prop) `{!forall x, Decision (P x)} (l : list A) :
  (forall x, x ∈ l -> ~ P x) -> filter P l = [].
Proof.
  induction l as [|x l IH]; intros Hno; [done|].
  rewrite filter_cons_False by (apply Hno, elem_of_cons; by left).
  apply IH. intros y Hy. apply Hno, elem_of_cons. by right.
Qed.

Lemma Inv_foldM_in {A B} (P : World D -> Prop) (f : B -> A -> M D B) (l : list A) (b : B) :
  (forall b a, a ∈ l -> Inv P (f b a)) -> Inv P (foldM f l b).
Proof.
  revert b. induction l as [|a l IH]; intros b Hf; simpl.
  - apply Inv_ret.
  - apply Inv_bind.
    + apply Hf, elem_of_cons. by left.
    + intros b'. apply IH. intros b'' a' Ha'. apply Hf, elem_of_cons. by right.
Qed.

(** The slot [x] reads [o]. *)
Definition slotIs (x : string) (o : option (item D)) w : Prop := storage w !! x = o.

Lemma slotIs_Stable x o : x <> DIAGNOSIS_CACHE_INDEX_KEY -> Stable (slotIs x o).
Proof.
  intros Hne. split; unfold slotIs; simpl; auto.
  intros w ks H. rewrite lookup_insert_ne; auto.
Qed.

Lemma slotIs_SurvivesDelete x o key : x <> slot key -> SurvivesDelete (slotIs x o) key.
Proof. intros Hne w H. unfold slotIs. simpl. rewrite lookup_delete_ne; auto. Qed.






(** Deleting the key "index" removes whatever the index slot holds and
    writes an empty index. *)
Lemma deleteCachedDiagnosis_index_repairs w :
  window w = true ->
  readable (storage (snd (deleteCachedDiagnosis "index" w)))
  /\ indexKeys (storage (snd (deleteCachedDiagnosis "index" w))) = [].
Proof.
  intros Hwin. unfold deleteCachedDiagnosis.
  rewrite (bind_eq _ _ w (window w) w) by done. rewrite Hwin. simpl.
  change (slot "index") with DIAGNOSIS_CACHE_INDEX_KEY.
  set (w1 := emit (RemoveItem DIAGNOSIS_CACHE_INDEX_KEY)
               (with_storage (delete DIAGNOSIS_CACHE_INDEX_KEY (storage w)) w)).
  assert (Habs : storage w1 !! DIAGNOSIS_CACHE_INDEX_KEY = None)
    by (simpl; apply lookup_delete_eq).
  assert (Hr1 : readable (storage w1)) by (intros c; by rewrite Habs).
  assert (Hk1 : indexKeys (storage w1) = []) by (unfold indexKeys; by rewrite Habs).
  destruct (removeFromDiagnosisCacheIndex_spec "index" w1 Hwin Hr1)
    as (w2 & E2 & _ & _ & _ & Hs2).
  unfold try_catch. rewrite (bind_eq _ _ w tt w1) by done.
  rewrite (bind_eq _ _ _ _ _ E2). unfold bind, console, ret. simpl.
  rewrite Hk1 in Hs2. destruct Hs2 as [[-> _] | [-> _]].
  - split; [apply readable_insert_Keys | apply indexKeys_insert].
  - done.
Qed.

(** A record that the index does not list is out of reach of the sweep. *)
Lemma clearExpiredDiagnoses_unlisted k w :
  window w = true -> readable (storage w) ->
  k ∉ indexKeys (storage w) -> k <> "index"%string ->
  storage (snd (clearExpiredDiagnoses w)) !! slot k = storage w !! slot k.
Proof.
  intros Hwin Hr Hnin Hne.
  destruct (clearExpiredDiagnoses_unfold w Hwin Hr) as (w1 & n & w2 & _ & Hsame & E2 & E).
  rewrite E. simpl.
  assert (HS : Stable (slotIs (slot k) (storage w !! slot k)))
    by by apply slotIs_Stable, slot_not_index.
  assert (H1 : slotIs (slot k) (storage w !! slot k) w1).
  { unfold slotIs. destruct Hsame as (_ & _ & -> & _). done. }
  pose proof (Inv_foldM_in (slotIs (slot k) (storage w !! slot k)) sweepStep
                (indexKeys (storage w)) O) as Hinv.
  specialize (Hinv (fun n' key Hin =>
    Stable_sweepStep _ HS n' key
      (slotIs_SurvivesDelete _ _ key
         (slot_ne _ _ (fun E' : k = key => Hnin (eq_ind_r (fun x => x ∈ _) Hin E')))))).
  specialize (Hinv w1 H1). by rewrite E2 in Hinv.
Qed.

Lemma elem_of_liveOf s now ks c k :
  (c, k) ∈ liveOf s now ks
  <-> k ∈ ks /\ s !! slot k = Some (Entry c) /\ now <= expiresAt c.
Proof.
  unfold liveOf. rewrite list_elem_of_omap. unfold liveRecord. split.
  - intros (k' & Hin & H).
    destruct (s !! slot k') as [[m|c'|l]|] eqn:Hs; try done.
    destruct (Z.leb_spec now (expiresAt c')); [|done]. by simplify_eq.
  - intros (Hin & Hs & Ht). exists k. split; [done|].
    rewrite Hs. by rewrite (proj2 (Z.leb_le _ _) Ht).
Qed.

Lemma length_liveOf s now ks :
  (forall k, k ∈ ks -> exists c, s !! slot k = Some (Entry c)) ->
  (length (liveOf s now ks) + length (filter (fun k => expiredAt s now k) ks)
   = length ks)%nat.
Proof.
  induction ks as [|k ks IH]; intros Hall; [done|].
  destruct (Hall k) as [c Hc]; [apply elem_of_cons; by left|].
  assert (IH' := IH (fun k' Hk' => Hall k' (proj2 (elem_of_cons _ _ _) (or_intror Hk')))).
  unfold liveOf in *. cbn [omap list_omap]. unfold liveRecord at 1. rewrite Hc.
  destruct (Z.leb_spec now (expiresAt c)) as [Hl|Hl].
  - rewrite filter_cons_False.
    + simpl. simpl in IH'. lia.
    + unfold expiredAt. rewrite Hc, (proj2 (Z.ltb_ge _ _) Hl). exact id.
  - rewrite filter_cons_True.
    + simpl. simpl in IH'. lia.
    + unfold expiredAt. rewrite Hc, (proj2 (Z.ltb_lt _ _) Hl). exact I.
Qed.

End Untouched.

(** ** Rounds of the eviction loop *)

Section Rounds.

Context {D : Type}.
Variable recordBytes : CachedDiagnosis D -> N.
Variable keysBytes : list string -> N.
Variable MAX_BYTES : N.

Implicit Types (w : World D) (s : gmap string (item D)).
Implicit Types (k : string) (ks : list string).

(** *** Everything evicted is at least as old as everything kept *)

Lemma evictWhileFull_oldest_first fuel w :
  Good w -> (0 < MAX_BYTES)%N ->
  (length (indexKeys (storage w)) < fuel)%nat ->
  exists w', evictWhileFull recordBytes keysBytes MAX_BYTES fuel w = (Ret tt, w')
    /\ Good w'
    /\ (forall k c, storage w' !! slot k = Some (Entry c) ->
          storage w !! slot k = Some (Entry c))
    /\ (forall k c k' c',
          storage w !! slot k = Some (Entry c) ->
          storage w' !! slot k = None ->
          storage w' !! slot k' = Some (Entry c') ->
          timestamp c <= timestamp c').
Proof.
  intros HG Hmax. revert w HG.
  induction fuel as [|fuel IH]; intros w HG Hlen; [lia|].
  cbn [evictWhileFull].
  destruct (isDiagnosisCacheFull_spec recordBytes keysBytes MAX_BYTES w)
    as (w1 & E1 & Hsame1); [apply HG | apply HG |].
  rewrite (bind_eq _ _ _ _ _ E1).
  pose proof (Good_same _ _ Hsame1 HG) as HG1.
  destruct Hsame1 as (_ & Hc1 & Hs1 & _).
  destruct (MAX_BYTES <=? totalBytes recordBytes keysBytes (storage w))%N eqn:Hfull.
  - apply N.leb_le in Hfull.
    assert (Hne : indexKeys (storage w1) <> []).
    { rewrite Hs1. intros Hks. unfold totalBytes in Hfull. rewrite Hks in Hfull.
      simpl in Hfull. lia. }
    destruct (evictOldestDiagnosis_Good w1 HG1 Hne)
      as (k0 & c0 & w2 & E2 & Hin0 & Hc0 & Hmin & HG2 & Hc2 & Hs2).
    rewrite (bind_eq _ _ _ _ _ E2). rewrite Hs1 in Hin0, Hc0, Hmin, Hs2.
    assert (Hk0 : k0 <> "index"%string) by by apply (entry_key_not_index w k0 c0).
    destruct (IH w2 HG2) as (w' & E' & HG' & Hold & Hfifo).
    { rewrite Hs2, indexKeys_dropKey by done.
      assert (length (filter (fun k' => k' <> k0) (indexKeys (storage w)))
              < length (indexKeys (storage w)))%nat; [|lia].
      apply (length_filter_lt _ _ k0); [done | by intros ?]. }
    assert (Hold2 : forall k c, storage w2 !! slot k = Some (Entry c) ->
              k <> k0 /\ storage w !! slot k = Some (Entry c)).
    { intros k c Hkc.
      pose proof (entry_key_not_index w2 k c HG2 Hkc) as Hk.
      rewrite Hs2, lookup_dropKey_slot in Hkc by done.
      by destruct (decide (k = k0)). }
    exists w'. split_and!; try done.
    + intros k c Hkc. by apply Hold2, Hold.
    + intros k c k' c' Hkc Hgone Hkc'.
      destruct (Hold2 k' c' (Hold k' c' Hkc')) as [Hne' Hkc0'].
      destruct (decide (k = k0)) as [->|Hkk].
      * assert (c = c0) as -> by congruence.
        apply (Hmin k' c'); [|done].
        destruct HG as (_ & _ & _ & _ & _ & Hiff). apply Hiff. by exists c'.
      * apply (Hfifo k c k' c'); try done.
        rewrite Hs2, lookup_dropKey_slot by by apply (entry_key_not_index w k c).
        by rewrite decide_False.
  - exists w1. split_and!; try done.
    + intros k c. by rewrite Hs1.
    + intros k c k' c' Hkc Hgone. rewrite Hs1 in Hgone. congruence.
Qed.

(** *** What the size counts *)

Fixpoint recordsBytes s ks : N :=
  match ks with
  | [] => 0%N
  | k :: ks' =>
      (match s !! slot k with Some (Entry c) => recordBytes c | _ => 0 end
       + recordsBytes s ks')%N
  end.

Lemma bytesOf_records s ks :
  (forall k, k ∈ ks -> exists c, s !! slot k = Some (Entry c)) ->
  bytesOf recordBytes keysBytes s ks = recordsBytes s ks.
Proof.
  induction ks as [|k ks IH]; intros Hall; [done|].
  cbn [bytesOf recordsBytes]. rewrite IH.
  - destruct (Hall k) as [c Hc]; [apply elem_of_cons; by left|].
    unfold slotBytes. by rewrite Hc.
  - intros k' Hk'. apply Hall, elem_of_cons. by right.
Qed.

End Rounds.

(** ** What a computation does not look at *)

Section TraceBlind.

Context {D : Type}.

Implicit Types (w : World D).

Lemma same_sym w w' : same w w' -> same w' w.
Proof. by intros (?&?&?&?). Qed.

(** [m] does not look at the trace: from two worlds that differ in their
    traces only it gives the same outcome, in two such worlds. *)
Definition Blind {A} (m : M D A) : Prop :=
  forall w1 w2, same w1 w2 ->
    fst (m w1) = fst (m w2) /\ same (snd (m w1)) (snd (m w2)).

Lemma Blind_ret {A} (a : A) : Blind (ret a).
Proof. by intros w1 w2 H. Qed.

Lemma Blind_throw {A} e : Blind (throw (A := A) e).
Proof. by intros w1 w2 H. Qed.

Lemma Blind_hang {A} : Blind (hang (A := A)).
Proof. by intros w1 w2 H. Qed.

Lemma Blind_bind {A B} (m : M D A) (k : A -> M D B) :
  Blind m -> (forall a, Blind (k a)) -> Blind (bind m k).
Proof.
  intros Hm Hk w1 w2 H. unfold bind. destruct (Hm w1 w2 H) as [Hf Hs].
  destruct (m w1) as [[a1|e1|] w1'], (m w2) as [[a2|e2|] w2'];
    simpl in *; simplify_eq; try done.
  by apply Hk.
Qed.

Lemma Blind_try_catch {A} (m : M D A) (h : exn -> M D A) :
  Blind m -> (forall e, Blind (h e)) -> Blind (try_catch m h).
Proof.
  intros Hm Hh w1 w2 H. unfold try_catch. destruct (Hm w1 w2 H) as [Hf Hs].
  destruct (m w1) as [[a1|e1|] w1'], (m w2) as [[a2|e2|] w2'];
    simpl in *; simplify_eq; try done.
  by apply Hh.
Qed.

Lemma Blind_foldM {A B} (f : B -> A -> M D B) (l : list A) (b : B) :
  (forall b a, Blind (f b a)) -> Blind (foldM f l b).
Proof.
  intros Hf. revert b. induction l as [|a l IH]; intros b; simpl.
  - apply Blind_ret.
  - apply Blind_bind; [apply Hf | apply IH].
Qed.

Lemma Blind_hasWindow : Blind (hasWindow (OrganDiagnosis := D)).
Proof. intros w1 w2 H. unfold hasWindow. simpl. split; [|done]. by destruct H as (-> & _). Qed.

Lemma Blind_Date_now : Blind (Date_now (OrganDiagnosis := D)).
Proof.
  intros w1 w2 H. unfold Date_now. simpl. split; [|done]. by destruct H as (_ & -> & _).
Qed.

Lemma Blind_loopBound : Blind (loopBound (OrganDiagnosis := D)).
Proof.
  intros w1 w2 H. unfold loopBound. simpl. split; [|done].
  by destruct H as (_ & _ & -> & _).
Qed.

Lemma Blind_getItem key : Blind (getItem (OrganDiagnosis := D) key).
Proof.
  intros w1 w2 H. unfold getItem. simpl. split; [|done].
  by destruct H as (_ & _ & -> & _).
Qed.

Lemma Blind_console m : Blind (console (OrganDiagnosis := D) m).
Proof. intros w1 w2 H. unfold console. simpl. split; [done|]. by destruct H as (?&?&?&?). Qed.

Lemma Blind_removeItem key : Blind (removeItem (OrganDiagnosis := D) key).
Proof.
  intros w1 w2 (Hw & Hc & Hs & Hf). unfold removeItem. simpl. split; [done|].
  unfold same. simpl. rewrite Hs. by split_and!.
Qed.

Lemma Blind_setItem key (value : item D) : Blind (setItem key value).
Proof.
  intros w1 w2 (Hw & Hc & Hs & Hf). unfold setItem. rewrite Hf.
  destruct (faults w1) as [|[name|] rest] eqn:Hf1; simpl; (split; [done|]);
    unfold same; simpl; rewrite ?Hs; split_and!; congruence.
Qed.

Lemma Blind_JSON_parse (text : item D) : Blind (JSON_parse text).
Proof. destruct text; simpl; auto using Blind_ret, Blind_throw. Qed.

Lemma Blind_asArray (v : json D) : Blind (asArray v).
Proof. destruct v; simpl; auto using Blind_ret, Blind_throw. Qed.

End TraceBlind.

Ltac blind_step :=
  match goal with
  | |- Blind (bind _ _) => apply Blind_bind; [| intros ?]
  | |- Blind (try_catch _ _) => apply Blind_try_catch; [| intros ?]
  | |- Blind (foldM _ _ _) => apply Blind_foldM; intros ? ?
  | |- Blind (ret _) => apply Blind_ret
  | |- Blind (throw _) => apply Blind_throw
  | |- Blind hang => apply Blind_hang
  | |- Blind hasWindow => apply Blind_hasWindow
  | |- Blind Date_now => apply Blind_Date_now
  | |- Blind loopBound => apply Blind_loopBound
  | |- Blind (getItem _) => apply Blind_getItem
  | |- Blind (console _) => apply Blind_console
  | |- Blind (removeItem _) => apply Blind_removeItem
  | |- Blind (setItem _ _) => apply Blind_setItem
  | |- Blind (JSON_parse _) => apply Blind_JSON_parse
  | |- Blind (asArray _) => apply Blind_asArray
  | |- Blind (if ?b then _ else _) => destruct b
  | |- Blind (match ?x with _ => _ end) => destruct x
  end.

Section LoopBound.

Context {D : Type}.
Variable recordBytes : CachedDiagnosis D -> N.
Variable keysBytes : list string -> N.
Variable MAX_BYTES : N.

Implicit Types (w : World D) (s : gmap string (item D)).
Implicit Types (k : string) (ks : list string).

Lemma Blind_getDiagnosisCacheIndex : Blind (getDiagnosisCacheIndex (OrganDiagnosis := D)).
Proof. unfold getDiagnosisCacheIndex. repeat blind_step. Qed.

Lemma Blind_updateDiagnosisCacheIndex ks :
  Blind (updateDiagnosisCacheIndex (OrganDiagnosis := D) ks).
Proof. unfold updateDiagnosisCacheIndex. repeat blind_step. Qed.

Lemma Blind_removeFromDiagnosisCacheIndex key :
  Blind (removeFromDiagnosisCacheIndex (OrganDiagnosis := D) key).
Proof.
  unfold removeFromDiagnosisCacheIndex. repeat blind_step;
    auto using Blind_getDiagnosisCacheIndex, Blind_updateDiagnosisCacheIndex.
Qed.

Lemma Blind_deleteCachedDiagnosis key :
  Blind (deleteCachedDiagnosis (OrganDiagnosis := D) key).
Proof.
  unfold deleteCachedDiagnosis. repeat blind_step;
    auto using Blind_removeFromDiagnosisCacheIndex.
Qed.

Lemma Blind_isDiagnosisCacheFull :
  Blind (isDiagnosisCacheFull recordBytes keysBytes MAX_BYTES).
Proof.
  unfold isDiagnosisCacheFull, getDiagnosisCacheSize, sizeStep. repeat blind_step;
    auto using Blind_getDiagnosisCacheIndex.
Qed.

Lemma Blind_evictOldestDiagnosis : Blind (evictOldestDiagnosis (OrganDiagnosis := D)).
Proof.
  unfold evictOldestDiagnosis, oldestStep. repeat blind_step;
    auto using Blind_getDiagnosisCacheIndex, Blind_deleteCachedDiagnosis.
Qed.

Lemma Blind_evictWhileFull fuel :
  Blind (evictWhileFull recordBytes keysBytes MAX_BYTES fuel).
Proof.
  induction fuel as [|fuel IH]; cbn [evictWhileFull]; repeat blind_step;
    auto using Blind_isDiagnosisCacheFull, Blind_evictOldestDiagnosis.
Qed.

(** The check of the budget writes nothing. *)
Lemma same_isDiagnosisCacheFull w0 :
  Inv (same w0) (isDiagnosisCacheFull recordBytes keysBytes MAX_BYTES).
Proof.
  unfold isDiagnosisCacheFull, getDiagnosisCacheSize, getDiagnosisCacheIndex, sizeStep.
  repeat inv_step; apply Inv_console; intros; by apply same_emit.
Qed.

(** A round that has changed nothing but the trace will be repeated for
    ever. *)
Lemma evictWhileFull_stuck fuel w w1 w2 :
  isDiagnosisCacheFull recordBytes keysBytes MAX_BYTES w = (Ret true, w1) ->
  evictOldestDiagnosis w1 = (Ret tt, w2) ->
  same w w2 ->
  exists w', evictWhileFull recordBytes keysBytes MAX_BYTES fuel w = (Hang, w')
             /\ same w w'.
Proof.
  intros E1 E2 Hsame.
  assert (Hsame1 : same w w1).
  { eapply Inv_at; [apply same_isDiagnosisCacheFull | apply same_refl | exact E1]. }
  induction fuel as [|fuel IH]; cbn [evictWhileFull].
  - rewrite (bind_eq _ _ _ _ _ E1). by exists w1.
  - rewrite (bind_eq _ _ _ _ _ E1), (bind_eq _ _ _ _ _ E2).
    destruct IH as (w' & E & Hsame').
    destruct (Blind_evictWhileFull fuel w w2 Hsame) as [Hf Hs].
    rewrite E in Hf, Hs. simpl in Hf, Hs.
    destruct (evictWhileFull recordBytes keysBytes MAX_BYTES fuel w2) as [r w2'].
    simpl in Hf, Hs. subst r. exists w2'. split; [done|].
    eapply same_trans; [exact Hsame' | exact Hs].
Qed.

(** The number of index entries whose slot holds a record. *)
Definition isEntry (o : option (item D)) : bool :=
  match o with Some (Entry _) => true | _ => false end.

Definition evictable s : nat :=
  length (filter (fun k => isEntry (s !! slot k)) (indexKeys s)).

Lemma evictable_le s : (evictable s <= indexLength s)%nat.
Proof. rewrite indexLength_indexKeys. apply length_filter. Qed.

Lemma length_filter_remove (P : string -> Prop) `{!forall x, Decision (P x)} ks k :
  k ∈ ks -> P k ->
  (length (filter P (filter (fun k' => k' <> k) ks)) < length (filter P ks))%nat.
Proof.
  intros Hin HP. rewrite list_filter_filter.
  induction ks as [|x ks IH]; [by apply elem_of_nil in Hin|].
  apply elem_of_cons in Hin as [<-|Hin].
  - rewrite filter_cons_False by (intros [_ ?]; done).
    rewrite (filter_cons_True P) by done. simpl.
    assert (length (filter (fun x => P x /\ x <> k) ks) <= length (filter P ks))%nat; [|lia].
    clear IH. induction ks as [|y ks IH]; [done|].
    destruct (decide (P y)) as [Hy|Hy].
    + rewrite (filter_cons_True P) by done. simpl.
      destruct (decide (y <> k)).
      * rewrite filter_cons_True by done. simpl. lia.
      * rewrite filter_cons_False by (intros [_ ?]; done). lia.
    + rewrite (filter_cons_False P) by done.
      rewrite filter_cons_False by (intros [? _]; done). done.
  - specialize (IH Hin). destruct (decide (P x)) as [Hx|Hx].
    + rewrite (filter_cons_True P) by done. simpl.
      destruct (decide (x <> k)).
      * rewrite filter_cons_True by done. simpl. lia.
      * rewrite filter_cons_False by (intros [_ ?]; done). lia.
    + rewrite (filter_cons_False P) by done.
      rewrite filter_cons_False by (intros [? _]; done). done.
Qed.

(** A round of eviction changes nothing but the trace, or leaves fewer
    index entries with a record. *)
Lemma evictOldestDiagnosis_progress w w2 :
  evictOldestDiagnosis w = (Ret tt, w2) ->
  same w w2 \/ (evictable (storage w2) < evictable (storage w))%nat.
Proof.
  intros E. destruct (window w) eqn:Hwin.
  2:{ left. unfold evictOldestDiagnosis in E.
      rewrite (bind_eq _ _ _ _ _ (getDiagnosisCacheIndex_nowindow w Hwin)) in E.
      simpl in E. unfold bind, ret in E. simpl in E. simplify_eq. apply same_refl. }
  assert (Hr : readable (storage w)).
  { intros c Hc. unfold evictOldestDiagnosis in E.
    rewrite (bind_eq _ _ _ _ _ (getDiagnosisCacheIndex_record w c Hwin Hc)) in E.
    simpl in E. unfold bind, throw in E. done. }
  destruct (evictOldestDiagnosis_unfold w Hwin Hr) as (w1 & Hsame1 & E1).
  rewrite E in E1.
  destruct (fold_older_spec (storage w) (indexKeys (storage w)) (None, Infinity))
    as (_ & _ & Hold).
  fold (oldest (storage w)) in Hold. cbn zeta in Hold.
  destruct Hold as [Hold | (k & c & Hin & Hc & Hold)].
  { rewrite Hold in E1. simpl in E1. unfold ret in E1. simplify_eq. by left. }
  rewrite Hold in E1. cbn [fst evictChosen] in E1.
  destruct (bool_decide (k = EmptyString)).
  { unfold ret in E1. simplify_eq. by left. }
  right.
  assert (Hk : k <> "index"%string).
  { intros ->. change (slot "index") with DIAGNOSIS_CACHE_INDEX_KEY in Hc. by apply (Hr c). }
  set (w1' := emit (Console (EvictingOldest k)) w1) in *.
  rewrite (bind_eq _ _ w1 tt w1') in E1 by done.
  destruct Hsame1 as (Hwin1 & _ & Hs1 & _).
  destruct (deleteCachedDiagnosis_spec k w1') as (w3 & E3 & _ & _ & _ & Hs3).
  { simpl. congruence. }
  { simpl. by rewrite Hs1. }
  rewrite (bind_eq _ _ _ _ _ E3) in E1. unfold ret in E1. simplify_eq.
  simpl in Hs3. rewrite Hs1 in Hs3. rewrite indexKeys_delete_slot in Hs3 by done.
  set (s := storage w) in *. set (ks := indexKeys s) in *.
  assert (Hlook : forall k', k' <> k ->
            isEntry (delete (slot k) s !! slot k') = isEntry (s !! slot k')).
  { intros k' Hk'. rewrite lookup_delete_ne; [done|]. by apply slot_ne. }
  assert (Hent : isEntry (s !! slot k) = true) by by rewrite Hc.
  unfold evictable. fold s.
  destruct Hs3 as [[-> _] | [-> _]].
  - rewrite indexKeys_insert.
    assert (Hf : filter (fun k' => isEntry
                    (<[DIAGNOSIS_CACHE_INDEX_KEY := Keys (filter (fun k' => k' <> k) ks)]>
                       (delete (slot k) s) !! slot k'))
                   (filter (fun k' => k' <> k) ks)
                 = filter (fun k' => isEntry (s !! slot k'))
                     (filter (fun k' => k' <> k) ks)).
    { apply filter_ext_in. intros k' [Hk' _]%list_elem_of_filter.
      destruct (decide (k' = "index"%string)) as [->|Hki].
      - change (slot "index") with DIAGNOSIS_CACHE_INDEX_KEY. rewrite lookup_insert_eq.
        destruct (s !! DIAGNOSIS_CACHE_INDEX_KEY) as [[m|c'|l]|] eqn:Hidx; try done.
        by destruct (Hr c').
      - rewrite lookup_insert_ne by (apply not_eq_sym; by apply slot_not_index).
        by rewrite Hlook. }
    rewrite Hf. apply (length_filter_remove (fun k' => isEntry (s !! slot k'))); [done|].
    by rewrite Hent.
  - rewrite indexKeys_delete_slot by done. fold ks.
    assert (Hf : filter (fun k' => isEntry (delete (slot k) s !! slot k')) ks
                 = filter (fun k' => isEntry (s !! slot k'))
                     (filter (fun k' => k' <> k) ks)).
    { rewrite list_filter_filter. apply list_filter_iff. intros k'.
      destruct (decide (k' = k)) as [->|Hk'].
      - rewrite lookup_delete_eq. simpl. split; [done | by intros [_ ?]].
      - rewrite Hlook by done. split; [by intros ? | by intros [? _]]. }
    rewrite Hf. apply (length_filter_remove (fun k' => isEntry (s !! slot k'))); [done|].
    by rewrite Hent.
Qed.

(** More rounds than there are index entries with a record change
    nothing: the loop has ended by then, or it is repeating a round that
    changes nothing. *)
Lemma evictWhileFull_adequate fuel fuel' w :
  (evictable (storage w) < fuel)%nat -> (fuel <= fuel')%nat ->
  fst (evictWhileFull recordBytes keysBytes MAX_BYTES fuel' w)
  = fst (evictWhileFull recordBytes keysBytes MAX_BYTES fuel w)
  /\ same (snd (evictWhileFull recordBytes keysBytes MAX_BYTES fuel w))
          (snd (evictWhileFull recordBytes keysBytes MAX_BYTES fuel' w)).
Proof.
  revert fuel' w. induction fuel as [|fuel IH]; intros fuel' w Hm Hle; [lia|].
  destruct fuel' as [|fuel']; [lia|].
  cbn [evictWhileFull]. unfold bind at 1 3 5 7.
  destruct (isDiagnosisCacheFull recordBytes keysBytes MAX_BYTES w) as [[[]|e|] w1] eqn:E1;
    try (split; [done | apply same_refl]).
  assert (Hs1 : storage w1 = storage w).
  { assert (H : same w w1); [|apply H].
    eapply Inv_at; [apply same_isDiagnosisCacheFull | apply same_refl | exact E1]. }
  unfold bind.
  destruct (evictOldestDiagnosis w1) as [[[]|e|] w2] eqn:E2;
    try (split; [done | apply same_refl]).
  destruct (evictOldestDiagnosis_progress w1 w2 E2) as [Hsame|Hlt].
  - assert (Hsame' : same w w2).
    { eapply same_trans; [|exact Hsame].
      eapply Inv_at; [apply same_isDiagnosisCacheFull | apply same_refl | exact E1]. }
    destruct (evictWhileFull_stuck (S fuel) w w1 w2 E1 E2 Hsame') as (wa & Ea & Hsa).
    destruct (evictWhileFull_stuck (S fuel') w w1 w2 E1 E2 Hsame') as (wb & Eb & Hsb).
    cbn [evictWhileFull] in Ea, Eb.
    rewrite (bind_eq _ _ _ _ _ E1), (bind_eq _ _ _ _ _ E2) in Ea.
    rewrite (bind_eq _ _ _ _ _ E1), (bind_eq _ _ _ _ _ E2) in Eb.
    rewrite Ea, Eb. split; [done|].
    eapply same_trans; [apply same_sym; exact Hsa | exact Hsb].
  - apply IH; [|lia]. rewrite Hs1 in Hlt. lia.
Qed.

Lemma evictWhileFull_more_fuel fuel w r w' :
  evictWhileFull recordBytes keysBytes MAX_BYTES fuel w = (r, w') ->
  r <> Hang ->
  evictWhileFull recordBytes keysBytes MAX_BYTES (S fuel) w = (r, w').
Proof.
  revert w. induction fuel as [|fuel IH]; intros w E Hr.
  - cbn [evictWhileFull] in *. unfold bind in *.
    destruct (isDiagnosisCacheFull recordBytes keysBytes MAX_BYTES w) as [[[]|e|] w1];
      try done. unfold hang in E. by simplify_eq.
  - change (bind (isDiagnosisCacheFull recordBytes keysBytes MAX_BYTES)
              (fun full => if full
                 then bind evictOldestDiagnosis
                        (fun _ => evictWhileFull recordBytes keysBytes MAX_BYTES fuel)
                 else ret tt) w = (r, w')) in E.
    change (bind (isDiagnosisCacheFull recordBytes keysBytes MAX_BYTES)
              (fun full => if full
                 then bind evictOldestDiagnosis
                        (fun _ => evictWhileFull recordBytes keysBytes MAX_BYTES (S fuel))
                 else ret tt) w = (r, w')).
    unfold bind at 1 in E. unfold bind at 1.
    destruct (isDiagnosisCacheFull recordBytes keysBytes MAX_BYTES w) as [[[]|e|] w1];
      try done.
    unfold bind in E. unfold bind.
    destruct (evictOldestDiagnosis w1) as [[[]|e|] w2]; try done.
    by apply IH.
Qed.

Lemma evictWhileFull_more_fuel_add n fuel w r w' :
  evictWhileFull recordBytes keysBytes MAX_BYTES fuel w = (r, w') ->
  r <> Hang ->
  evictWhileFull recordBytes keysBytes MAX_BYTES (n + fuel) w = (r, w').
Proof.
  intros E Hr. induction n as [|n IH]; [done|].
  change (S n + fuel)%nat with (S (n + fuel)). by apply evictWhileFull_more_fuel.
Qed.

(** A loop that is still running when the model's bound is reached is
    running after any number of rounds. *)
Lemma evictWhileFull_Hang w :
  fst (evictWhileFull recordBytes keysBytes MAX_BYTES (S (indexLength (storage w))) w)
  = Hang ->
  forall fuel, fst (evictWhileFull recordBytes keysBytes MAX_BYTES fuel w) = Hang.
Proof.
  intros Hh fuel.
  pose proof (evictable_le (storage w)) as Hle.
  destruct (Nat.le_gt_cases (S (indexLength (storage w))) fuel) as [Hge|Hlt].
  - destruct (evictWhileFull_adequate (S (indexLength (storage w))) fuel w) as [-> _];
      [lia | done | done].
  - destruct (evictWhileFull recordBytes keysBytes MAX_BYTES fuel w) as [r w'] eqn:E.
    cbn [fst]. destruct r as [[]|e|]; [| |done].
    + pose proof (evictWhileFull_more_fuel_add (S (indexLength (storage w)) - fuel)
                    fuel w _ _ E) as E'.
      replace (S (indexLength (storage w)) - fuel + fuel)%nat
        with (S (indexLength (storage w))) in E' by lia.
      rewrite E' in Hh; [done | done].
    + pose proof (evictWhileFull_more_fuel_add (S (indexLength (storage w)) - fuel)
                    fuel w _ _ E) as E'.
      replace (S (indexLength (storage w)) - fuel + fuel)%nat
        with (S (indexLength (storage w))) in E' by lia.
      rewrite E' in Hh; [done | done].
Qed.

End LoopBound.

(** ** Statistics *)

Section Statistics.

Context {D : Type}.
Variable recordBytes : CachedDiagnosis D -> N.
Variable keysBytes : list string -> N.
Context {Number : Type}.
Variable roundedMB : N -> Number.
Variable roundedPercent : N -> Number.

Implicit Types (w : World D) (s : gmap string (item D)).
Implicit Types (l : list (listed D)).

(** How a number of occurrences reads in [diagnosisCountByOrgan]. *)
Definition asCount (n : nat) : option count :=
  match n with
  | O => None
  | S _ => Some (Count n)
  end.

Definition occurrences (organ : string) (organs : list string) : nat :=
  length (filter (fun o => o = organ) organs).

Lemma countOrgan_other (counts : gmap string count) organ o :
  o <> organ -> countOrgan counts organ !! o = counts !! o.
Proof.
  intros Hne. unfold countOrgan.
  destruct (bool_decide (organ = "__proto__"%string)); [done|].
  by rewrite lookup_insert_ne.
Qed.

Lemma countOrgan_same (counts : gmap string count) (n : nat) organ :
  organ ∉ inheritedNames ->
  counts !! organ = asCount n ->
  countOrgan counts organ !! organ = asCount (S n).
Proof.
  intros Hni Hn. unfold countOrgan.
  assert (Hproto : organ <> "__proto__"%string).
  { intros ->. apply Hni. apply (bool_decide_unpack _). by vm_compute. }
  rewrite (bool_decide_eq_false_2 (organ ∈ inheritedNames)) by done.
  rewrite (bool_decide_eq_false_2 (organ = "__proto__"%string)) by done.
  rewrite lookup_insert_eq, Hn. by destruct n.
Qed.

(** The count of an organ whose name [Object.prototype] does not define,
    whatever the other names are. *)
Lemma fold_countOrgan organs (counts : gmap string count) (n : nat) o :
  o ∉ inheritedNames ->
  counts !! o = asCount n ->
  fold_left countOrgan organs counts !! o = asCount (n + occurrences o organs).
Proof.
  intros Hni. revert counts n.
  induction organs as [|organ organs IH]; intros counts n Hn.
  { unfold occurrences. simpl. by rewrite Nat.add_0_r. }
  cbn [fold_left]. unfold occurrences.
  destruct (decide (organ = o)) as [->|Hne].
  - rewrite filter_cons_True by done.
    rewrite (IH _ (S n)) by by apply countOrgan_same.
    unfold occurrences. f_equal. simpl. lia.
  - rewrite filter_cons_False by done.
    apply IH. by rewrite countOrgan_other.
Qed.

(** No number is ever counted under a name that [Object.prototype]
    defines. *)
Definition numberless (counts : gmap string count) (o : string) : Prop :=
  forall n, counts !! o <> Some (Count n).

Lemma countOrgan_numberless (counts : gmap string count) organ o :
  o ∈ inheritedNames -> numberless counts o -> numberless (countOrgan counts organ) o.
Proof.
  intros Hin Hnum n. destruct (decide (o = organ)) as [->|Hne].
  - unfold countOrgan.
    destruct (bool_decide (organ = "__proto__"%string)); [apply Hnum|].
    rewrite lookup_insert_eq.
    rewrite (bool_decide_eq_true_2 (organ ∈ inheritedNames)) by done.
    destruct (counts !! organ) as [[m|]|] eqn:E; [|done..].
    by destruct (Hnum m).
  - rewrite countOrgan_other by done. apply Hnum.
Qed.

Lemma fold_countOrgan_numberless organs (counts : gmap string count) o :
  o ∈ inheritedNames -> numberless counts o ->
  numberless (fold_left countOrgan organs counts) o.
Proof.
  intros Hin. revert counts. induction organs as [|organ organs IH]; intros counts Hnum.
  { done. }
  cbn [fold_left]. apply IH. by apply countOrgan_numberless.
Qed.

(** In a list sorted newest first the first element is the newest and the
    last one the oldest. *)
Lemma newestFirst_first x l y :
  newestFirst (x :: l) -> y ∈ x :: l -> timestamp (fst y) <= timestamp (fst x).
Proof.
  intros [Hx _] [->|Hin]%elem_of_cons; [lia|].
  by apply (proj1 (Forall_forall _ _) Hx).
Qed.

Lemma last_default {A} (a : A) (l : list A) (d d' : A) :
  List.last (a :: l) d = List.last (a :: l) d'.
Proof.
  revert a. induction l as [|b l IH]; intros a; [done|].
  change (List.last (b :: l) d = List.last (b :: l) d'). apply IH.
Qed.

Lemma newestFirst_last x l y :
  newestFirst (x :: l) -> y ∈ x :: l ->
  timestamp (fst (List.last (x :: l) x)) <= timestamp (fst y).
Proof.
  revert x y. induction l as [|z l IH]; intros x y Hs Hin.
  - apply elem_of_cons in Hin as [->|Hin]; [simpl; lia | by apply elem_of_nil in Hin].
  - destruct Hs as [Hx Hs].
    change (List.last (x :: z :: l) x) with (List.last (z :: l) x).
    rewrite (last_default z l x z).
    apply elem_of_cons in Hin as [->|Hin].
    + etrans; [apply (IH z z Hs); apply elem_of_cons; by left|].
      apply (proj1 (Forall_forall _ _) Hx). apply elem_of_cons. by left.
    + by apply IH.
Qed.

Lemma occurrences_organs organ l :
  occurrences organ (map (fun d => organName (fst d)) l)
  = length (filter (fun d => organName (fst d) = organ) l).
Proof.
  unfold occurrences. induction l as [|x l IH]; [done|]. cbn [map].
  destruct (decide (organName (fst x) = organ)) as [E|E].
  - rewrite !filter_cons_True by done. simpl. by rewrite IH.
  - by rewrite !filter_cons_False by done.
Qed.

(** The statistics on a consistent store: a listing, then the size of what
    the listing left. *)
Lemma getDiagnosisCacheStats_Good w :
  Good w ->
  let live := liveOf (storage w) (clock w) (indexKeys (storage w)) in
  let kept := dropAll (filter (fun k => expiredAt (storage w) (clock w) k)
                         (indexKeys (storage w))) (storage w) in
  let bytes := totalBytes recordBytes keysBytes kept in
  exists w',
    getDiagnosisCacheStats recordBytes keysBytes roundedMB roundedPercent w
    = (Ret (let sorted := sortNewestFirst live in
            match sorted with
            | [] => mkStats (length sorted) (roundedMB bytes) MAX_DIAGNOSIS_CACHE_SIZE_MB
                      (roundedPercent bytes) None None ∅
            | first :: _ =>
                mkStats (length sorted) (roundedMB bytes) MAX_DIAGNOSIS_CACHE_SIZE_MB
                  (roundedPercent bytes)
                  (Some (timestamp (fst (List.last sorted first))))
                  (Some (timestamp (fst first)))
                  (fold_left countOrgan (map (fun d => organName (fst d)) sorted) ∅)
            end), w')
    /\ Good w' /\ clock w' = clock w /\ storage w' = kept.
Proof.
  intros HG live kept bytes.
  destruct (getAllCachedDiagnoses_Good w HG) as (w1 & E1 & HG1 & Hc1 & Hs1).
  pose proof HG1 as (Hwin1 & _ & Hr1 & _).
  destruct (getDiagnosisCacheSize_spec recordBytes keysBytes w1 Hwin1 Hr1) as (w2 & E2 & Hsame).
  exists w2. unfold getDiagnosisCacheStats.
  rewrite (bind_eq _ _ _ _ _ E1), (bind_eq _ _ _ _ _ E2).
  fold live. rewrite Hs1. fold kept. fold bytes.
  split; [by destruct (sortNewestFirst live)|].
  split; [by apply (Good_same _ _ Hsame)|].
  destruct Hsame as (_ & Hc2 & Hs2 & _). split; [congruence|]. by rewrite Hs2, Hs1.
Qed.

End Statistics.


(** ** Concrete instances used to exercise the theorems

    Payloads are numbers; every record serialises to 40 bytes; the budget is
    100 bytes and the time to live 1000 ms (the scenario of the
    specification), or the source's own 10 MB and 30 days. *)

Definition flat40 : CachedDiagnosis nat -> N := fun _ => 40%N.
Definition noKeysBytes : list string -> N := fun _ => 0%N.

Definition browser : World nat := mkWorld true ∅ 0 [] [].

Definition put100 (organ image : string) (d : nat) : M nat bool :=
  cacheDiagnosis flat40 noKeysBytes 100%N 1000 organ image d.

(** The state after [put100] at time [t]. *)
Definition after (t : Z) (organ image : string) (d : nat) (w : World nat) : World nat :=
  snd (put100 organ image d (advance t w)).

Definition three : World nat :=
  after 3 "lung" "c" 3%nat (after 2 "lung" "b" 2%nat (after 1 "lung" "a" 1%nat browser)).

Definition four : World nat := after 4 "lung" "d" 4%nat three.

(** The source's own constants, with records of 6 MB each. *)
Definition sixMB : CachedDiagnosis nat -> N := fun _ => (6 * 1024 * 1024)%N.

Definition putReal (organ image : string) (d : nat) : M nat bool :=
  cacheDiagnosis sixMB noKeysBytes MAX_DIAGNOSIS_CACHE_BYTES DIAGNOSIS_CACHE_EXPIRY_MS
    organ image d.

Definition twoBig : World nat :=
  snd (putReal "lung" "b" 2%nat
         (advance 2 (snd (putReal "lung" "a" 1%nat (advance 1 browser))))).

(** The claims C1 and C5 as the specification words them. *)
Definition withinBudget {D} (recordBytes : CachedDiagnosis D -> N)
    (keysBytes : list string -> N) (budget : N) (w : World D) : Prop :=
  (totalBytes recordBytes keysBytes (storage w) <= budget)%N.

Definition live {D} (w : World D) (k : string) : Prop :=
  exists c, storage w !! slot k = Some (Entry c) /\ clock w <= expiresAt c.

Definition indexIsLiveSet {D} (w : World D) : Prop :=
  forall k, k ∈ indexKeys (storage w) <-> live w k.

(** A page rendered on the server: no [window]. *)
Definition server : World nat := mkWorld false ∅ 0 [] [].

(** Two records stored in the same millisecond. *)
Definition tied : World nat :=
  after 1 "lung" "b" 2%nat (after 1 "lung" "a" 1%nat browser).

(** An index that lists one slot, which holds 200 bytes of unparseable
    text. *)
Definition clogged : World nat :=
  mkWorld true
    (<[DIAGNOSIS_CACHE_INDEX_KEY := Keys ["x"%string]]> (<[slot "x" := Corrupt 200%N]> ∅))
    0 [] [].

(** A storage that accepts the next write and rejects the one after. *)
Definition grudging : World nat :=
  with_faults [None; Some QuotaExceededError] (advance 1 browser).

(** [n] times the letter A. *)
Definition filler (n : N) : string :=
  string_of_list_ascii (repeat "A"%char (N.to_nat n)).

(** The state after a store whose index write was rejected. *)
Definition orphaned : World nat := snd (put100 "lung" "a" 7%nat grudging).

(** The state after the store of an image whose fingerprint reads "index". *)
Definition overwritten : World nat := after 9 "lung" "U8L7xn" 9%nat three.


(** ** The claims *)

Section Claims.

Context {D : Type}.
Variable recordBytes : CachedDiagnosis D -> N.
Variable keysBytes : list string -> N.
Variable MAX_BYTES : N.
Variable EXPIRY_MS : Z.

Implicit Types (w : World D).

Abbreviation store := (cacheDiagnosis recordBytes keysBytes MAX_BYTES EXPIRY_MS).
Abbreviation fingerprint := generateImageHash.

(** C9. The fingerprint is a function of the blob alone: two calls on the
    same blob give the same string.  [generateImageHash] takes the blob
    and nothing else (no clock, storage or random source), so whatever
    the state, the time and the calls made before, two stores of the same
    blob record the same fingerprint and write the same slot. *)
Theorem generateImageHash_deterministic (B1 B2 : string) :
  B1 = B2 ->
  generateImageHash B1 = generateImageHash B2
  /\ forall organ1 organ2 d1 d2 (w1 w2 w1' w2' : World D),
       store organ1 B1 d1 w1 = (Ret true, w1') ->
       store organ2 B2 d2 w2 = (Ret true, w2') ->
       exists c1 c2,
         holds (slot (fingerprint B1)) (Entry c1) w1'
         /\ holds (slot (fingerprint B1)) (Entry c2) w2'
         /\ imageHash c1 = imageHash c2.
Proof.
  intros <-. split; [done|].
  intros organ1 organ2 d1 d2 w1 w2 w1' w2' H1 H2.
  pose proof (cacheDiagnosis_true _ _ _ _ _ _ _ _ _ H1) as (_ & _ & _ & Hh1).
  pose proof (cacheDiagnosis_true _ _ _ _ _ _ _ _ _ H2) as (_ & _ & _ & Hh2).
  by eexists _, _.
Qed.


(** C3. A lookup never returns an expired entry.  In a browser: whatever a
    lookup returns is the payload of an unexpired record; a record past
    [expiresAt] is deleted and the lookup reports absent; so a record
    stored at time [t0] is absent from every lookup made after
    [t0 + EXPIRY_MS]. *)
Theorem lookup_never_returns_expired (image : string) (w : World D) :
  window w = true ->
  (forall d w', getCachedDiagnosis image w = (Ret (Hit d), w') ->
     exists c, holds (slot (fingerprint image)) (Entry c) w /\
               diagnosis c = d /\ clock w <= expiresAt c)
  /\ (forall c, holds (slot (fingerprint image)) (Entry c) w ->
        expiresAt c < clock w ->
        exists w', getCachedDiagnosis image w = (Ret Null, w') /\
                   noEntry (slot (fingerprint image)) w')
  /\ (forall organ d w0 w1,
        store organ image d w0 = (Ret true, w1) ->
        w = advance (clock w) w1 ->
        clock w0 + EXPIRY_MS < clock w ->
        exists w', getCachedDiagnosis image w = (Ret Null, w') /\
                   noEntry (slot (fingerprint image)) w').
Proof.
  intros Hwin. split_and!.
  - intros d w'. apply getCachedDiagnosis_Hit.
  - intros c. by apply getCachedDiagnosis_expired.
  - intros organ d w0 w1 Hstore Hw Ht.
    apply (cacheDiagnosis_true recordBytes keysBytes MAX_BYTES EXPIRY_MS) in Hstore
      as (_ & _ & _ & Hholds).
    apply (getCachedDiagnosis_expired image (recordOf EXPIRY_MS organ image d (clock w0)));
      [done | by rewrite Hw | simpl; lia].
Qed.

(** C10. The key is the image fingerprint alone.  Two successful stores of
    one image under any two organ names write the same slot, the second
    record replacing the first; a lookup of the image then returns the
    second payload; the slot is never the one
    [generateDiagnosisCacheKey] names, and a store creates no record in
    any other slot. *)
Theorem organ_name_is_not_part_of_the_key
    (image organ1 organ2 : string) (d1 d2 : D) (w w1 w2 : World D) (t : Z) :
  store organ1 image d1 w = (Ret true, w1) ->
  store organ2 image d2 (advance t w1) = (Ret true, w2) ->
  holds (slot (fingerprint image)) (Entry (recordOf EXPIRY_MS organ1 image d1 (clock w))) w1
  /\ holds (slot (fingerprint image)) (Entry (recordOf EXPIRY_MS organ2 image d2 t)) w2
  /\ (forall t', t' <= t + EXPIRY_MS ->
        fst (getCachedDiagnosis image (advance t' w2)) = Ret (Hit d2))
  /\ generateDiagnosisCacheKey organ1 (fingerprint image) <> fingerprint image
  /\ generateDiagnosisCacheKey organ2 (fingerprint image) <> fingerprint image
  /\ (forall k c, k <> slot (fingerprint image) ->
        holds k (Entry c) w2 -> holds k (Entry c) w).
Proof.
  intros H1 H2.
  pose proof (cacheDiagnosis_true _ _ _ _ _ _ _ _ _ H1) as (_ & _ & _ & Hh1).
  pose proof (cacheDiagnosis_true _ _ _ _ _ _ _ _ _ H2) as (_ & _ & _ & Hh2).
  split_and!; try done; try apply generateDiagnosisCacheKey_ne.
  - intros t' Ht'.
    by apply (cacheDiagnosis_then_getCachedDiagnosis recordBytes keysBytes MAX_BYTES
                EXPIRY_MS organ2 image d2 (advance t w1) w2 t').
  - intros k c Hk Hc.
    assert (Hold1 : onlyOld k w w1).
    { eapply Inv_at; [by apply cacheDiagnosis_onlyOld | | exact H1]. by intros c'. }
    assert (Hold2 : onlyOld k w w2).
    { eapply Inv_at; [by apply cacheDiagnosis_onlyOld | | exact H2]. exact Hold1. }
    by apply Hold2.
Qed.



(** C6 (amended). A store never throws.  When the storage rejects the
    write of the record with a [QuotaExceededError], the sweep is run once
    and that write is tried once more; if the retry is rejected too, the
    store returns [false].  A rejection of the record's write with any
    other error makes the store return [false] at once, with no sweep and
    no retry.  These are all the ways a store can go. *)
Theorem rejected_write_is_swept_and_retried_once
    (organ image : string) (d : D) (w : World D) :
  exists r w' new n,
    store organ image d w = (r, w')
    /\ attempts (fingerprint image) (trace w')
       = new ++ attempts (fingerprint image) (trace w)
    /\ sweeps (trace w') = (n + sweeps (trace w))%nat
    /\ Handling new n r
    /\ (forall e, r <> Throw e).
Proof.
  destruct (cacheDiagnosis_handling recordBytes keysBytes MAX_BYTES EXPIRY_MS organ image d w)
    as (r & w' & new & n & E & Ha & Hn & H).
  exists r, w', new, n. split_and!; try done.
  by destruct H.
Qed.

(** *** Sequences of stores *)

Record call := mkCall {
  at_time : Z;
  call_organ : string;
  call_image : string;
  call_payload : D
}.

Definition storeOne (c : call) (w : World D) : outcome bool * World D :=
  store (call_organ c) (call_image c) (call_payload c) (advance (at_time c) w).

Fixpoint storeAll (calls : list call) (w : World D) : World D :=
  match calls with
  | [] => w
  | c :: rest => storeAll rest (snd (storeOne c w))
  end.

Definition avoidsIndex (c : call) : Prop :=
  fingerprint (call_image c) <> "index"%string.

Lemma Good_advance t w : Good w -> Good (advance t w).
Proof. by intros (?&?&?). Qed.

Lemma storeAll_Good calls w :
  Good w -> Forall avoidsIndex calls -> Good (storeAll calls w).
Proof.
  revert w. induction calls as [|c calls IH]; intros w HG Hall; [done|].
  apply Forall_cons in Hall as [Hc Hall]. simpl. apply IH; [|done].
  unfold storeOne.
  apply (Inv_Good_cacheDiagnosis recordBytes keysBytes MAX_BYTES EXPIRY_MS
           (call_organ c) (call_image c) (call_payload c) Hc).
  by apply Good_advance.
Qed.

(** C1 (amended). For any sequence of store calls on a consistent store
    (in a browser that accepts every write, with a positive budget and
    fingerprints other than "index"): each call returns [true] after the
    eviction loop has run to its end, which leaves the total below the
    budget; the record is written after that, so the total after the call
    is below the budget plus the size of that record, and may exceed the
    budget by less than that size. *)
Theorem budget_after_store (calls : list call) (c : call) (w : World D) :
  Good w ->
  (0 < MAX_BYTES)%N ->
  Forall avoidsIndex (calls ++ [c]) ->
  exists w' s1,
    storeOne c (storeAll calls w) = (Ret true, w')
    /\ Good w'
    /\ (totalBytes recordBytes keysBytes s1 < MAX_BYTES)%N
    /\ storage w' = putKey (fingerprint (call_image c))
                       (recordOf EXPIRY_MS (call_organ c) (call_image c) (call_payload c)
                          (at_time c)) s1
    /\ (totalBytes recordBytes keysBytes (storage w')
        < MAX_BYTES + recordBytes (recordOf EXPIRY_MS (call_organ c) (call_image c)
                                     (call_payload c) (at_time c)))%N
    /\ fst (getDiagnosisCacheSize recordBytes keysBytes w')
       = Ret (totalBytes recordBytes keysBytes (storage w')).
Proof.
  intros HG Hmax Hall. apply Forall_app in Hall as [Hall Hc].
  rewrite Forall_singleton in Hc.
  pose proof (storeAll_Good calls w HG Hall) as HG1.
  destruct (cacheDiagnosis_Good recordBytes keysBytes MAX_BYTES EXPIRY_MS
              (call_organ c) (call_image c) (call_payload c)
              (advance (at_time c) (storeAll calls w)))
    as (w' & E & HG' & _ & s1 & Hlt & _ & Hs & Hbound);
    [by apply Good_advance | done | exact Hc |].
  exists w', s1. split_and!; try done.
  destruct (getDiagnosisCacheSize_spec recordBytes keysBytes w')
    as (w'' & -> & _); [apply HG' | apply HG' | done].
Qed.

(** C2 (amended). Eviction is checked before the write: with budget 100
    and three 40-byte entries inserted in the order k1, k2, k3, inserting
    k3 evicts nothing (80 < 100) and leaves {k1, k2, k3}, 120 bytes; it is
    the next insertion that evicts k1, and only k1.  In general a round
    of eviction removes the indexed record with the least timestamp and
    nothing else, the total is checked again before each round, and the
    loop stops as soon as the total is below the budget. *)
Theorem eviction_removes_oldest_first (w : World D) :
  Good w ->
  (0 < MAX_BYTES)%N ->
  (exists w', evictWhileFull recordBytes keysBytes MAX_BYTES
                (S (indexLength (storage w))) w = (Ret tt, w')
              /\ (totalBytes recordBytes keysBytes (storage w') < MAX_BYTES)%N
              /\ ((totalBytes recordBytes keysBytes (storage w) < MAX_BYTES)%N ->
                  storage w' = storage w))
  /\ (forall fuel,
        (MAX_BYTES <= totalBytes recordBytes keysBytes (storage w))%N ->
        exists w1 k c w2,
          same w w1
          /\ evictOldestDiagnosis w1 = (Ret tt, w2)
          /\ k ∈ indexKeys (storage w)
          /\ holds (slot k) (Entry c) w
          /\ (forall k' c', k' ∈ indexKeys (storage w) ->
                holds (slot k') (Entry c') w -> timestamp c <= timestamp c')
          /\ storage w2 = dropKey k (storage w)
          /\ evictWhileFull recordBytes keysBytes MAX_BYTES (S fuel) w
             = evictWhileFull recordBytes keysBytes MAX_BYTES fuel w2)
  /\ (indexKeys (storage three) = ["1s00g"; "1snrj"; "1tbim"]%string
      /\ totalBytes flat40 noKeysBytes (storage three) = 120%N
      /\ indexKeys (storage four) = ["1snrj"; "1tbim"; "1tz9p"]%string
      /\ storage four !! slot "1s00g" = None
      /\ totalBytes flat40 noKeysBytes (storage four) = 120%N).
Proof.
  intros HG Hmax. split; [|split].
  - destruct (evictWhileFull_Good recordBytes keysBytes MAX_BYTES
                (S (indexLength (storage w))) w HG Hmax)
      as (w' & E & _ & _ & Hlt & Hsame); [rewrite indexLength_indexKeys; lia|].
    by exists w'.
  - intros fuel Hfull.
    destruct (isDiagnosisCacheFull_spec recordBytes keysBytes MAX_BYTES w)
      as (w1 & E1 & Hsame1); [apply HG | apply HG |].
    pose proof (Good_same _ _ Hsame1 HG) as HG1.
    assert (Hs1 : storage w1 = storage w) by apply Hsame1.
    assert (Hne : indexKeys (storage w1) <> []).
    { rewrite Hs1. intros Hks. unfold totalBytes in Hfull. rewrite Hks in Hfull.
      simpl in Hfull. lia. }
    destruct (evictOldestDiagnosis_Good w1 HG1 Hne)
      as (k & c & w2 & E2 & Hin & Hkc & Hmin & _ & _ & Hs2).
    rewrite Hs1 in Hin, Hkc, Hmin, Hs2.
    exists w1, k, c, w2. split_and!; try done.
    cbn [evictWhileFull]. rewrite (bind_eq _ _ _ _ _ E1).
    apply N.leb_le in Hfull. rewrite Hfull. by rewrite (bind_eq _ _ _ _ _ E2).
  - vm_compute. by repeat split.
Qed.

(** C5 (amended). In a browser that accepts every write, on a consistent
    store: the index lists exactly the keys that have a stored record,
    expired or not, and every store (of a fingerprint other than
    "index"), lookup, delete (of a key other than "index") and sweep
    keeps it so; the passing of time changes neither, and an expired
    record leaves the index when a lookup of its key deletes it. *)
Theorem index_lists_exactly_the_stored_records (w : World D) :
  Good w ->
  (forall k, k ∈ indexKeys (storage w) <-> exists c, storage w !! slot k = Some (Entry c))
  /\ (forall t, Good (advance t w))
  /\ (forall organ image d,
        fingerprint image <> "index"%string -> Good (snd (store organ image d w)))
  /\ (forall image, Good (snd (getCachedDiagnosis image w)))
  /\ (forall key, key <> "index"%string -> Good (snd (deleteCachedDiagnosis key w)))
  /\ Good (snd (clearExpiredDiagnoses w))
  /\ (forall image c,
        holds (slot (fingerprint image)) (Entry c) w -> expiresAt c < clock w ->
        fingerprint image ∉ indexKeys (storage (snd (getCachedDiagnosis image w)))).
Proof.
  intros HG. split_and!.
  - apply HG.
  - intros t. by apply Good_advance.
  - intros organ image d Hne. by apply Inv_Good_cacheDiagnosis.
  - intros image. by apply Inv_Good_getCachedDiagnosis.
  - intros key Hne. by apply Inv_Good_deleteCachedDiagnosis.
  - by apply Inv_Good_clearExpiredDiagnoses.
  - intros image c Hc Ht Hin.
    pose proof (Inv_Good_getCachedDiagnosis image w HG) as (_ & _ & _ & _ & _ & Hiff).
    apply Hiff in Hin as [c' Hc'].
    destruct (getCachedDiagnosis_expired image c w) as (w' & E & Hno);
      [apply HG | done | done |].
    rewrite E in Hc'. by apply (Hno c').
Qed.

End Claims.

Lemma generateImageHash_deterministic_witness :
  generateImageHash "abc" = generateImageHash "abc".
Proof.
  destruct (generateImageHash_deterministic (D := nat) flat40 noKeysBytes 100%N 1000
              "abc" "abc") as [H _]; [reflexivity | exact H].
Defined.


Lemma lookup_never_returns_expired_witness :
  exists w', getCachedDiagnosis "a" (advance 1500 (after 1 "lung" "a" 7%nat browser))
             = (Ret Null, w')
             /\ noEntry (slot (generateImageHash "a")) w'.
Proof.
  destruct (lookup_never_returns_expired flat40 noKeysBytes 100%N 1000 "a"
              (advance 1500 (after 1 "lung" "a" 7%nat browser)))
    as (_ & _ & H).
  - reflexivity.
  - apply (H "lung" 7%nat (advance 1 browser) (after 1 "lung" "a" 7%nat browser)).
    + vm_compute. reflexivity.
    + reflexivity.
    + vm_compute. reflexivity.
Defined.

Lemma organ_name_is_not_part_of_the_key_witness :
  fst (getCachedDiagnosis "a"
         (advance 3 (after 2 "heart" "a" 8%nat (after 1 "lung" "a" 7%nat browser))))
  = Ret (Hit 8%nat).
Proof.
  destruct (organ_name_is_not_part_of_the_key flat40 noKeysBytes 100%N 1000
              "a" "lung" "heart" 7%nat 8%nat (advance 1 browser)
              (after 1 "lung" "a" 7%nat browser)
              (after 2 "heart" "a" 8%nat (after 1 "lung" "a" 7%nat browser)) 2)
    as (_ & _ & H & _).
  - vm_compute. reflexivity.
  - vm_compute. reflexivity.
  - apply H. vm_compute. discriminate.
Defined.





(** C6, as stated, fails twice.  A rejection that is not a quota error makes
    the store return [false] after a single attempt and no sweep; and a
    rejected index write, even by a quota error, is swallowed: the store
    returns [true] with no sweep and no retry, leaving the key out of the
    index. *)
Lemma rejected_write_without_sweep_or_retry :
  (let w := with_faults [Some OtherDOMError] (advance 1 browser) in
   fst (put100 "lung" "a" 1%nat w) = Ret false
   /\ attempts "1s00g" (trace (snd (put100 "lung" "a" 1%nat w))) = [Some OtherDOMError]
   /\ sweeps (trace (snd (put100 "lung" "a" 1%nat w))) = O)
  /\ (let w := with_faults [None; Some QuotaExceededError] (advance 1 browser) in
      fst (put100 "lung" "a" 1%nat w) = Ret true
      /\ attempts "1s00g" (trace (snd (put100 "lung" "a" 1%nat w))) = [None]
      /\ sweeps (trace (snd (put100 "lung" "a" 1%nat w))) = O
      /\ indexKeys (storage (snd (put100 "lung" "a" 1%nat w))) = []).
Proof. vm_compute. by repeat split. Qed.

(** C1, as stated, fails on the source's own budget: two records of 6 MB
    are both kept, 12 MB against a budget of 10 MB. *)
Lemma budget_exceeded_after_second_store :
  fst (putReal "lung" "b" 2%nat
         (advance 2 (snd (putReal "lung" "a" 1%nat (advance 1 browser))))) = Ret true
  /\ fst (getDiagnosisCacheSize sixMB noKeysBytes twoBig) = Ret 12582912%N
  /\ ~ withinBudget sixMB noKeysBytes MAX_DIAGNOSIS_CACHE_BYTES twoBig.
Proof.
  split_and!; [by vm_compute | by vm_compute |].
  unfold withinBudget. vm_compute. intros H. by apply H.
Qed.

Lemma Good_browser : Good browser.
Proof. split_and!; try done. apply consistent_empty. Qed.

Lemma budget_after_store_witness :
  exists w', storeOne flat40 noKeysBytes 100%N 1000 (mkCall 3 "lung" "c" 3%nat)
               (storeAll flat40 noKeysBytes 100%N 1000
                  [mkCall 1 "lung" "a" 1%nat; mkCall 2 "lung" "b" 2%nat] browser)
             = (Ret true, w')
             /\ (totalBytes flat40 noKeysBytes (storage w') < 100 + 40)%N.
Proof.
  destruct (budget_after_store flat40 noKeysBytes 100%N 1000
              [mkCall 1 "lung" "a" 1%nat; mkCall 2 "lung" "b" 2%nat]
              (mkCall 3 "lung" "c" 3%nat) browser)
    as (w' & s1 & E & _ & _ & _ & Hb & _).
  - apply Good_browser.
  - reflexivity.
  - repeat constructor; vm_compute; discriminate.
  - exists w'. split; [exact E | exact Hb].
Defined.

(** C2, as stated, fails: the insertion of k3 evicts nothing. *)
Lemma third_insertion_evicts_nothing :
  generateImageHash "a" = "1s00g"%string
  /\ indexKeys (storage three) = ["1s00g"; "1snrj"; "1tbim"]%string
  /\ storage three !! slot "1s00g" = Some (Entry (mkCached "lung" "1s00g" 1%nat 1 1001))
  /\ fst (getDiagnosisCacheSize flat40 noKeysBytes three) = Ret 120%N.
Proof. vm_compute. by repeat split. Qed.

Lemma Good_three : Good three.
Proof.
  unfold three, after, put100.
  repeat (apply Inv_Good_cacheDiagnosis; [vm_compute; discriminate | apply Good_advance]).
  apply Good_browser.
Qed.

Lemma eviction_removes_oldest_first_witness :
  exists w', evictWhileFull flat40 noKeysBytes 100%N
               (S (indexLength (storage three))) three = (Ret tt, w')
             /\ (totalBytes flat40 noKeysBytes (storage w') < 100)%N.
Proof.
  destruct (eviction_removes_oldest_first flat40 noKeysBytes 100%N three)
    as ((w' & E & Hlt & _) & _).
  - apply Good_three.
  - reflexivity.
  - exists w'. split; [exact E | exact Hlt].
Defined.

(** C5, as stated, fails: when its time to live has passed, a record that
    nobody has looked up is still indexed although it is no longer live. *)
Lemma expired_record_is_still_indexed :
  indexKeys (storage (advance 1002 (after 1 "lung" "a" 7%nat browser))) = ["1s00g"%string]
  /\ ~ live (advance 1002 (after 1 "lung" "a" 7%nat browser)) "1s00g"
  /\ ~ indexIsLiveSet (advance 1002 (after 1 "lung" "a" 7%nat browser)).
Proof.
  assert (Hidx : indexKeys (storage (advance 1002 (after 1 "lung" "a" 7%nat browser)))
                 = ["1s00g"%string]) by by vm_compute.
  assert (Hdead : ~ live (advance 1002 (after 1 "lung" "a" 7%nat browser)) "1s00g").
  { assert (Hrec : storage (advance 1002 (after 1 "lung" "a" 7%nat browser)) !! slot "1s00g"
                   = Some (Entry (mkCached "lung" "1s00g" 7%nat 1 1001))) by by vm_compute.
    intros (c & Hc & Ht). rewrite Hrec in Hc. injection Hc as <-.
    vm_compute in Ht. by apply Ht. }
  split_and!; [done | done |].
  intros H. apply Hdead, H. rewrite Hidx. apply elem_of_cons. by left.
Qed.

Lemma index_lists_exactly_the_stored_records_witness :
  Good (snd (clearExpiredDiagnoses (advance 5000 three)))
  /\ ("1s00g"%string ∈ indexKeys (storage three)
      <-> exists c, storage three !! slot "1s00g" = Some (Entry c)).
Proof.
  split.
  - destruct (index_lists_exactly_the_stored_records flat40 noKeysBytes 100%N 1000
                (advance 5000 three))
      as (_ & _ & _ & _ & _ & H & _); [apply Good_advance, Good_three | exact H].
  - destruct (index_lists_exactly_the_stored_records flat40 noKeysBytes 100%N 1000
                three Good_three) as (H & _).
    apply H.
Defined.

(** ** A fingerprint that reads "index"

    The slot of a key is the prefix followed by the key, and the index lives
    under the prefix followed by "index": an image whose fingerprint is
    "index" is stored over the index.  Such images exist.  The store then
    reports failure, and from then on no size can be computed, no store
    succeeds and no delete reports success.  The theorems above that assume
    a readable index or a fingerprint other than "index" leave this case
    out. *)
Example fingerprint_reads_index : generateImageHash "U8L7xn" = "index"%string.
Proof. by vm_compute. Qed.

Example store_over_the_index :
  fst (put100 "lung" "U8L7xn" 9%nat (advance 9 three)) = Ret false
  /\ storage (after 9 "lung" "U8L7xn" 9%nat three) !! DIAGNOSIS_CACHE_INDEX_KEY
     = Some (Entry (mkCached "lung" "index" 9%nat 9 1009))
  /\ fst (getDiagnosisCacheSize flat40 noKeysBytes (after 9 "lung" "U8L7xn" 9%nat three))
     = Throw TypeError
  /\ fst (put100 "lung" "z" 10%nat (advance 10 (after 9 "lung" "U8L7xn" 9%nat three)))
     = Ret false
  /\ fst (deleteCachedDiagnosis "absent" (after 9 "lung" "U8L7xn" 9%nat three)) = Ret false.
Proof. vm_compute. by repeat split. Qed.


(** ** Further properties of the cache *)

Section Further.

Context {D : Type}.
Variable recordBytes : CachedDiagnosis D -> N.
Variable keysBytes : list string -> N.
Variable MAX_BYTES : N.
Variable EXPIRY_MS : Z.

Implicit Types (w : World D).

Abbreviation put := (cacheDiagnosis recordBytes keysBytes MAX_BYTES EXPIRY_MS).
Abbreviation size := (getDiagnosisCacheSize recordBytes keysBytes).
Abbreviation total := (totalBytes recordBytes keysBytes).

(** X1. Without a [window] (a render on the server) every exported
    operation returns its neutral value at once: the storage is not read,
    nothing is written and nothing is logged. *)
Theorem without_window_nothing_happens (organ image key : string) (d : D) w :
  window w = false ->
  put organ image d w = (Ret false, w)
  /\ getCachedDiagnosis image w = (Ret Null, w)
  /\ deleteCachedDiagnosis key w = (Ret false, w)
  /\ clearExpiredDiagnoses w = (Ret O, w)
  /\ size w = (Ret 0%N, w)
  /\ getAllCachedDiagnoses w = (Ret [], w)
  /\ clearAllDiagnosisCache w = (Ret false, w).
Proof.
  intros H.
  unfold cacheDiagnosis, getCachedDiagnosis, deleteCachedDiagnosis, clearExpiredDiagnoses,
    getDiagnosisCacheSize, getAllCachedDiagnoses, clearAllDiagnosisCache.
  rewrite !(bind_eq _ _ w (window w) w) by done. by rewrite H.
Qed.

(** X2. A lookup, a delete and a clear-all return a value in every state
    of the storage: no exception leaves them and they contain no loop that
    could fail to end. *)
Theorem lookup_delete_and_clear_always_return w :
  (forall image, exists r w', getCachedDiagnosis image w = (Ret r, w'))
  /\ (forall key, exists b w', deleteCachedDiagnosis key w = (Ret b, w'))
  /\ (exists b w', clearAllDiagnosisCache w = (Ret b, w')).
Proof.
  split_and!.
  - intros image. apply Ends_never_returns, Ends_getCachedDiagnosis.
  - intros key. apply deleteCachedDiagnosis_returns.
  - apply Ends_never_returns, Ends_clearAllDiagnosisCache.
Qed.




(** X6. When the indexed slots add up to the budget or more and none of
    them holds a record that parses, a round of eviction finds no key and
    removes nothing: the loop [while (isDiagnosisCacheFull())
    evictOldestDiagnosis()] is still running after any number of rounds,
    and so is the store that entered it. *)
Theorem eviction_loop_never_ends_with_nothing_to_evict
    (organ image : string) (d : D) w :
  window w = true ->
  readable (storage w) ->
  nothingToEvict (storage w) ->
  (MAX_BYTES <= total (storage w))%N ->
  (forall fuel, fst (evictWhileFull recordBytes keysBytes MAX_BYTES fuel w) = Hang)
  /\ fst (put organ image d w) = Hang.
Proof.
  intros Hwin Hr Hno Hfull. split.
  - intros fuel.
    destruct (evictWhileFull_nothingToEvict recordBytes keysBytes MAX_BYTES fuel w)
      as (w' & -> & _); done.
  - by apply cacheDiagnosis_nothingToEvict.
Qed.

(** X7. On a consistent store the sweep returns the number of indexed
    records that have expired; it removes exactly those, from the storage
    and from the index, keeping the order of the others; and a second
    sweep at the same time finds nothing. *)
Theorem sweep_returns_the_number_of_expired_records w :
  Good w ->
  exists w',
    clearExpiredDiagnoses w
    = (Ret (length (filter (fun k => expiredAt (storage w) (clock w) k)
                      (indexKeys (storage w)))), w')
    /\ Good w'
    /\ indexKeys (storage w')
       = filter (fun k => ~ expiredAt (storage w) (clock w) k) (indexKeys (storage w))
    /\ (forall k, k <> "index"%string ->
          storage w' !! slot k
          = if expiredAt (storage w) (clock w) k then None else storage w !! slot k)
    /\ fst (clearExpiredDiagnoses w') = Ret O.
Proof.
  intros HG. pose proof HG as (_ & _ & Hc). pose proof Hc as (_ & _ & _ & Hiff).
  destruct (clearExpiredDiagnoses_Good w HG) as (w' & E & HG' & Hclock & Hs).
  set (gone := filter (fun k => expiredAt (storage w) (clock w) k) (indexKeys (storage w)))
    in *.
  assert (Hni : "index"%string ∉ gone).
  { intros [_ Hin]%list_elem_of_filter. by apply (consistent_index_not_member _ Hc). }
  assert (Hgone : forall k, k ∈ gone <-> expiredAt (storage w) (clock w) k).
  { intros k. unfold gone. rewrite list_elem_of_filter. split; [by intros [? _]|].
    intros He. split; [done|]. apply Hiff. unfold expiredAt in He.
    destruct (storage w !! slot k) as [[m|c|l]|]; try done. by exists c. }
  assert (Hidx : indexKeys (storage w')
                 = filter (fun k => ~ expiredAt (storage w) (clock w) k)
                     (indexKeys (storage w))).
  { rewrite Hs, indexKeys_dropAll by done. apply list_filter_iff. intros k.
    by rewrite Hgone. }
  assert (Hslots : forall k, k <> "index"%string ->
            storage w' !! slot k
            = if expiredAt (storage w) (clock w) k then None else storage w !! slot k).
  { intros k Hk. rewrite Hs, lookup_dropAll_slot by done.
    destruct (decide (k ∈ gone)) as [Hin|Hnin].
    - apply Hgone in Hin. by destruct (expiredAt (storage w) (clock w) k).
    - rewrite Hgone in Hnin. by destruct (expiredAt (storage w) (clock w) k). }
  exists w'. split_and!; try done.
  destruct (clearExpiredDiagnoses_Good w' HG') as (w'' & -> & _). cbn [fst]. f_equal.
  rewrite filter_nil_in; [done|].
  intros k Hin He. rewrite Hidx in Hin. apply list_elem_of_filter in Hin as [Hlive Hin].
  apply Hlive.
  assert (Hk : k <> "index"%string).
  { intros ->. by apply (consistent_index_not_member _ Hc). }
  destruct (expiredAt (storage w) (clock w) k) eqn:Hexp; [done|].
  unfold expiredAt in He. rewrite (Hslots k Hk), Hexp, Hclock in He.
  unfold expiredAt in Hexp. by rewrite Hexp in He.
Qed.


(** X9. A lookup changes the storage in one case only: the slot of the
    fingerprint holds a record whose [expiresAt] is in the past. *)
Theorem lookup_writes_only_on_expiry (image : string) w :
  storage (snd (getCachedDiagnosis image w)) = storage w
  \/ exists c, storage w !! slot (generateImageHash image) = Some (Entry c)
               /\ expiresAt c < clock w.
Proof. apply getCachedDiagnosis_storage. Qed.

(** X10. On a consistent store [clearAllDiagnosisCache] returns [true]
    and leaves an empty, consistent cache: no index, no record in any
    slot, a size of zero, and no lookup returns a diagnosis afterwards. *)
Theorem clear_all_empties_a_consistent_cache w :
  Good w ->
  exists w',
    clearAllDiagnosisCache w = (Ret true, w')
    /\ Good w'
    /\ storage w' !! DIAGNOSIS_CACHE_INDEX_KEY = None
    /\ (forall k, noEntry (slot k) w')
    /\ fst (size w') = Ret 0%N
    /\ (forall image t d, fst (getCachedDiagnosis image (advance t w')) <> Ret (Hit d)).
Proof.
  intros HG. pose proof HG as (Hwin & Hf & Hc). pose proof Hc as (Hr & _ & _ & Hiff).
  destruct (clearAllDiagnosisCache_spec w Hwin Hr) as (w' & E & Hwin' & _ & Hf' & Hs).
  assert (Hidx : storage w' !! DIAGNOSIS_CACHE_INDEX_KEY = None).
  { rewrite Hs. apply lookup_delete_eq. }
  assert (Hno : forall k, noEntry (slot k) w').
  { intros k c. unfold noEntry. rewrite Hs.
    destruct (decide (k = "index"%string)) as [->|Hk].
    { change (slot "index") with DIAGNOSIS_CACHE_INDEX_KEY. by rewrite lookup_delete_eq. }
    rewrite lookup_delete_ne by (apply not_eq_sym; by apply slot_not_index).
    destruct (decide (k ∈ indexKeys (storage w))) as [Hin|Hnin].
    - by rewrite lookup_removeSlots_in.
    - rewrite lookup_removeSlots_other.
      + intros Hkc. apply Hnin, Hiff. by exists c.
      + intros k' Hk' Eq. apply slot_inj in Eq. by subst. }
  assert (Hks : indexKeys (storage w') = []).
  { unfold indexKeys. by rewrite Hidx. }
  assert (Hr' : readable (storage w')).
  { intros c. by rewrite Hidx. }
  assert (HG' : Good w').
  { split; [done|]. split; [congruence|]. split; [done|]. rewrite Hks.
    split; [constructor|]. split; [apply not_elem_of_nil|].
    intros k. split; [by intros ?%elem_of_nil|]. intros [c Hkc]. by destruct (Hno k c). }
  exists w'. split_and!; try done.
  - destruct (getDiagnosisCacheSize_spec recordBytes keysBytes w' Hwin' Hr') as (w'' & -> & _).
    cbn [fst]. unfold totalBytes. by rewrite Hks.
  - intros image t d Hhit.
    destruct (getCachedDiagnosis image (advance t w')) as [r w''] eqn:Eg.
    cbn [fst] in Hhit. subst r.
    apply getCachedDiagnosis_Hit in Eg as (c & Hc' & _).
    by destruct (Hno (generateImageHash image) c).
Qed.

(** X11. [clearAllDiagnosisCache] removes the slots that the index lists
    and the index itself, and nothing else: a record whose key the index
    does not list stays where it is, and a lookup still returns its
    diagnosis after everything has been "cleared". *)
Theorem clear_all_keeps_what_the_index_does_not_list w :
  window w = true ->
  readable (storage w) ->
  exists w',
    clearAllDiagnosisCache w = (Ret true, w')
    /\ (forall k, k ∈ indexKeys (storage w) -> storage w' !! slot k = None)
    /\ (forall k, k ∉ indexKeys (storage w) -> k <> "index"%string ->
          storage w' !! slot k = storage w !! slot k)
    /\ (forall image c t,
          generateImageHash image ∉ indexKeys (storage w) ->
          generateImageHash image <> "index"%string ->
          storage w !! slot (generateImageHash image) = Some (Entry c) ->
          t <= expiresAt c ->
          fst (getCachedDiagnosis image (advance t w')) = Ret (Hit (diagnosis c))).
Proof.
  intros Hwin Hr.
  destruct (clearAllDiagnosisCache_spec w Hwin Hr) as (w' & E & Hwin' & _ & _ & Hs).
  assert (Hkept : forall k, k ∉ indexKeys (storage w) -> k <> "index"%string ->
            storage w' !! slot k = storage w !! slot k).
  { intros k Hnin Hk. rewrite Hs.
    rewrite lookup_delete_ne by (apply not_eq_sym; by apply slot_not_index).
    apply lookup_removeSlots_other. intros k' Hk' Eq. apply slot_inj in Eq. by subst. }
  exists w'. split_and!; try done.
  - intros k Hin. rewrite Hs.
    destruct (decide (slot k = DIAGNOSIS_CACHE_INDEX_KEY)) as [->|Hk].
    + apply lookup_delete_eq.
    + rewrite lookup_delete_ne by by apply not_eq_sym. by apply lookup_removeSlots_in.
  - intros image c t Hnin Hk Hc Ht.
    destruct (getCachedDiagnosis_fresh image c (advance t w')) as (w'' & -> & _);
      try done.
    unfold holds. simpl. by rewrite Hkept.
Qed.

(** X12. On a consistent store the listing returns the indexed records
    that have not expired, each once with its key, newest first; the
    expired ones are deleted on the way, so the listing leaves the storage
    as a sweep would. *)
Theorem listing_returns_the_live_records_newest_first w :
  Good w ->
  exists l w',
    getAllCachedDiagnoses w = (Ret l, w')
    /\ (forall c k, (c, k) ∈ l <->
          k ∈ indexKeys (storage w) /\ storage w !! slot k = Some (Entry c)
          /\ clock w <= expiresAt c)
    /\ newestFirst l
    /\ (length l + length (filter (fun k => expiredAt (storage w) (clock w) k)
                             (indexKeys (storage w)))
        = length (indexKeys (storage w)))%nat
    /\ Good w'
    /\ storage w' = storage (snd (clearExpiredDiagnoses w)).
Proof.
  intros HG. pose proof HG as (_ & _ & _ & _ & _ & Hiff).
  destruct (getAllCachedDiagnoses_Good w HG) as (w' & E & HG' & _ & Hs).
  destruct (clearExpiredDiagnoses_Good w HG) as (w2 & E2 & _ & _ & Hs2).
  eexists _, w'. split; [exact E|]. split_and!; try done.
  - intros c k. rewrite sortNewestFirst_Permutation. apply elem_of_liveOf.
  - apply sortNewestFirst_newestFirst.
  - rewrite sortNewestFirst_Permutation. apply length_liveOf. intros k. apply Hiff.
  - rewrite E2. simpl. congruence.
Qed.

(** X13. Once the index slot holds a record instead of an array of keys,
    the size computation, the sweep and the listing throw a [TypeError]
    to their caller; every store returns [false] and writes nothing;
    clear-all returns [false] and removes nothing; and a delete returns
    [false], for every key but "index", whose deletion puts an empty
    index back. *)
Theorem record_in_the_index_slot_disables_the_cache (c : CachedDiagnosis D) w :
  window w = true ->
  storage w !! DIAGNOSIS_CACHE_INDEX_KEY = Some (Entry c) ->
  fst (size w) = Throw TypeError
  /\ fst (clearExpiredDiagnoses w) = Throw TypeError
  /\ fst (getAllCachedDiagnoses w) = Throw TypeError
  /\ (forall organ image d,
        fst (put organ image d w) = Ret false
        /\ storage (snd (put organ image d w)) = storage w)
  /\ (fst (clearAllDiagnosisCache w) = Ret false
      /\ storage (snd (clearAllDiagnosisCache w)) = storage w)
  /\ (forall key, key <> "index"%string -> fst (deleteCachedDiagnosis key w) = Ret false)
  /\ readable (storage (snd (deleteCachedDiagnosis "index" w))).
Proof.
  intros Hwin Hc. split_and!.
  - by rewrite (getDiagnosisCacheSize_record recordBytes keysBytes w c).
  - by rewrite (clearExpiredDiagnoses_record w c).
  - by rewrite (getAllCachedDiagnoses_record w c).
  - intros organ image d.
    by rewrite (cacheDiagnosis_record recordBytes keysBytes MAX_BYTES EXPIRY_MS
                  organ image d w c).
  - by rewrite (clearAllDiagnosisCache_record w c).
  - by rewrite (clearAllDiagnosisCache_record w c).
  - intros key Hne.
    by destruct (deleteCachedDiagnosis_record key w c Hwin Hc Hne) as (w' & -> & _).
  - by apply deleteCachedDiagnosis_index_repairs.
Qed.

(** X14. The slot of a fingerprint is the prefix followed by the
    fingerprint, and the index lives under the prefix followed by
    "index".  For an image whose fingerprint reads "index": a lookup
    reads the array of keys and returns [undefined], which is neither
    [null] nor a diagnosis; a store writes the record over the index and
    returns [false]. *)
Theorem fingerprint_index_overwrites_the_index (organ image : string) (d : D) w :
  Good w ->
  (0 < MAX_BYTES)%N ->
  generateImageHash image = "index"%string ->
  (forall ks, storage w !! DIAGNOSIS_CACHE_INDEX_KEY = Some (Keys ks) ->
     fst (getCachedDiagnosis image w) = Ret Undefined)
  /\ exists w',
       put organ image d w = (Ret false, w')
       /\ storage w' !! DIAGNOSIS_CACHE_INDEX_KEY
          = Some (Entry (recordOf EXPIRY_MS organ image d (clock w)))
       /\ indexKeys (storage w') = [].
Proof.
  intros HG Hmax Hidx. split.
  - intros ks Hks. by rewrite (getCachedDiagnosis_index image w ks); [|apply HG| |].
  - destruct (cacheDiagnosis_over_index recordBytes keysBytes MAX_BYTES EXPIRY_MS
                organ image d w HG Hmax Hidx) as (w' & E & _ & _ & Hs).
    exists w'. split_and!; try done. unfold indexKeys. by rewrite Hs.
Qed.

(** X15. When the storage accepts the record and then rejects the write of
    the index, the rejection is swallowed by [updateDiagnosisCacheIndex]:
    the store returns [true] and the record is in its slot, but the index
    does not list it.  The size does not count it and no sweep, however
    late, removes it. *)
Theorem rejected_index_write_leaves_an_unlisted_record
    (organ image : string) (d : D) (e : dom_error) (rest : list (option dom_error)) w :
  window w = true ->
  readable (storage w) ->
  faults w = None :: Some e :: rest ->
  (total (storage w) < MAX_BYTES)%N ->
  generateImageHash image ∉ indexKeys (storage w) ->
  generateImageHash image <> "index"%string ->
  exists w',
    put organ image d w = (Ret true, w')
    /\ storage w' !! slot (generateImageHash image)
       = Some (Entry (recordOf EXPIRY_MS organ image d (clock w)))
    /\ indexKeys (storage w') = indexKeys (storage w)
    /\ fst (size w') = Ret (total (storage w))
    /\ (forall t,
          storage (snd (clearExpiredDiagnoses (advance t w')))
            !! slot (generateImageHash image)
          = Some (Entry (recordOf EXPIRY_MS organ image d (clock w)))).
Proof.
  intros Hwin Hr Hf Hlt Hnin Hne.
  destruct (cacheDiagnosis_index_write_rejected recordBytes keysBytes MAX_BYTES EXPIRY_MS
              organ image d w e rest Hwin Hr Hf Hlt Hnin Hne)
    as (w' & E & Hwin' & _ & _ & Hs).
  assert (Hks : indexKeys (storage w') = indexKeys (storage w)).
  { rewrite Hs. by apply indexKeys_insert_slot. }
  assert (Hr' : readable (storage w')).
  { rewrite Hs. by apply readable_insert_slot. }
  assert (Hrec : storage w' !! slot (generateImageHash image)
                 = Some (Entry (recordOf EXPIRY_MS organ image d (clock w)))).
  { rewrite Hs. apply lookup_insert_eq. }
  exists w'. split_and!; try done.
  - destruct (getDiagnosisCacheSize_spec recordBytes keysBytes w' Hwin' Hr') as (w'' & -> & _).
    cbn [fst]. f_equal. unfold totalBytes. rewrite Hks, Hs.
    apply bytesOf_insert_other. intros k Hk Eq. apply slot_inj in Eq. by subst.
  - intros t. rewrite <- Hrec.
    apply (clearExpiredDiagnoses_unlisted (generateImageHash image) (advance t w'));
      try done. simpl. by rewrite Hks.
Qed.

(** X16. The loop of [generateImageHash], [(hash << 5) - hash + char]
    followed by [hash & hash], computes the polynomial hash with
    multiplier 31 of the sampled text (the three samples followed by the
    decimal length), wrapped to a signed 32-bit integer; the fingerprint
    is the absolute value of that integer in base 36. *)
Theorem fingerprint_is_a_polynomial_hash (image : string) :
  fold_left hashStep (JS.charCodes (sampled image)) 0
  = JS.toInt32 (polynomial 31 (JS.charCodes (sampled image)))
  /\ generateImageHash image
     = JS.toString 36 (Z.abs (JS.toInt32 (polynomial 31 (JS.charCodes (sampled image))))).
Proof.
  split; [|apply generateImageHash_polynomial].
  unfold polynomial. change 0 with (JS.toInt32 0) at 1. apply fold_hashStep.
Qed.

(** X17. A fingerprint is made of one to six characters, each a digit or a
    lower-case letter. *)
Theorem fingerprint_alphabet_and_length (image : string) :
  allBase36 (generateImageHash image) = true
  /\ (1 <= String.length (generateImageHash image) <= 6)%nat.
Proof.
  destruct (generateImageHash_alphabet image) as [Ha Hl]. split_and!; try done.
  pose proof (generateImageHash_nonempty image) as Hne.
  destruct (generateImageHash image); [done | simpl; lia].
Qed.

(** X18. The fingerprint reads at most 5000 characters at the start, in
    the middle and at the end of the image, and its length.  Two images
    of the same length that differ only between the first and the middle
    sample, or only between the middle and the last, have the same
    fingerprint, so a diagnosis stored for one is returned for the
    other. *)
Theorem fingerprint_ignores_what_is_not_sampled (pre x y post : string) :
  String.length x = String.length y ->
  (let len := JS.length (pre +:+ x +:+ post) in
   (sampleSize <= Z.of_nat (String.length pre)
    /\ Z.of_nat (String.length pre + String.length x) <= len / 2)
   \/ (len / 2 + sampleSize <= Z.of_nat (String.length pre)
       /\ Z.of_nat (String.length pre + String.length x) <= len - sampleSize)) ->
  generateImageHash (pre +:+ x +:+ post) = generateImageHash (pre +:+ y +:+ post)
  /\ forall organ d w w1 t,
       put organ (pre +:+ x +:+ post) d w = (Ret true, w1) ->
       t <= clock w + EXPIRY_MS ->
       fst (getCachedDiagnosis (pre +:+ y +:+ post) (advance t w1)) = Ret (Hit d).
Proof.
  intros Hxy Hgap.
  pose proof (generateImageHash_outside pre x y post Hxy Hgap) as Hfp.
  split; [done|]. intros organ d w w1 t Hput Ht.
  pose proof (cacheDiagnosis_then_getCachedDiagnosis recordBytes keysBytes MAX_BYTES
                EXPIRY_MS organ _ d w w1 t Hput Ht) as Hget.
  rewrite <- Hget. unfold getCachedDiagnosis. by rewrite Hfp.
Qed.

(** X19. Keys built by [generateDiagnosisCacheKey] from an organ name and
    a fingerprint are unambiguous: two of them are equal exactly when the
    fingerprints are equal and the organ names are equal up to letter
    case. *)
Theorem organ_keys_are_unambiguous (organ1 organ2 image1 image2 : string) :
  generateDiagnosisCacheKey organ1 (generateImageHash image1)
  = generateDiagnosisCacheKey organ2 (generateImageHash image2)
  <-> JS.toLowerCase organ1 = JS.toLowerCase organ2
      /\ generateImageHash image1 = generateImageHash image2.
Proof.
  split.
  - apply generateDiagnosisCacheKey_inj; apply generateImageHash_alphabet.
  - intros [Ho Hh]. unfold generateDiagnosisCacheKey. by rewrite Ho, Hh.
Qed.

(** X20. The loop [while (isDiagnosisCacheFull()) evictOldestDiagnosis()]
    ends within one round per index entry or never ends: a round removes a
    record that the index lists, or changes nothing and will be repeated
    for ever.  So running it for more rounds than the index has entries
    gives the same outcome and the same storage as running it for one
    round per entry, and a loop still running then is running after any
    number of rounds. *)
Theorem eviction_loop_ends_within_the_index_or_never (fuel : nat) w :
  (indexLength (storage w) < fuel)%nat ->
  fst (evictWhileFull recordBytes keysBytes MAX_BYTES fuel w)
  = fst (evictWhileFull recordBytes keysBytes MAX_BYTES (S (indexLength (storage w))) w)
  /\ storage (snd (evictWhileFull recordBytes keysBytes MAX_BYTES fuel w))
     = storage (snd (evictWhileFull recordBytes keysBytes MAX_BYTES
                       (S (indexLength (storage w))) w))
  /\ (fst (evictWhileFull recordBytes keysBytes MAX_BYTES (S (indexLength (storage w))) w)
      = Hang ->
      forall rounds, fst (evictWhileFull recordBytes keysBytes MAX_BYTES rounds w) = Hang).
Proof.
  intros Hlt. pose proof (evictable_le (storage w)) as Hle.
  destruct (evictWhileFull_adequate recordBytes keysBytes MAX_BYTES
              (S (indexLength (storage w))) fuel w) as [Hf (_ & _ & Hs & _)];
    [lia | lia |].
  split_and!; [done | done | apply evictWhileFull_Hang].
Qed.

(** X21. On a consistent store the eviction loop ends, and what it has
    removed is at least as old as what it has kept: every record still
    stored is an unchanged record of the store it started from, and its
    timestamp is no smaller than that of any record the loop removed. *)
Theorem eviction_loop_removes_the_oldest_records w :
  Good w ->
  (0 < MAX_BYTES)%N ->
  exists w',
    evictWhileFull recordBytes keysBytes MAX_BYTES (S (indexLength (storage w))) w
    = (Ret tt, w')
    /\ (forall k c, storage w' !! slot k = Some (Entry c) ->
          storage w !! slot k = Some (Entry c))
    /\ (forall k c k' c',
          storage w !! slot k = Some (Entry c) ->
          storage w' !! slot k = None ->
          storage w' !! slot k' = Some (Entry c') ->
          timestamp c <= timestamp c').
Proof.
  intros HG Hmax.
  destruct (evictWhileFull_oldest_first recordBytes keysBytes MAX_BYTES
              (S (indexLength (storage w))) w HG Hmax)
    as (w' & E & _ & Hold & Hfifo); [rewrite indexLength_indexKeys; lia|].
  by exists w'.
Qed.

(** X22. On a consistent store the size is the sum of the bytes of the
    indexed records: the text of the index itself is not counted,
    whatever its length. *)
Theorem size_counts_the_indexed_records_only w :
  Good w ->
  fst (size w) = Ret (recordsBytes recordBytes (storage w) (indexKeys (storage w)))
  /\ forall keysBytes' : list string -> N,
       fst (getDiagnosisCacheSize recordBytes keysBytes' w) = fst (size w).
Proof.
  intros HG. pose proof HG as (Hwin & _ & Hr & _ & _ & Hiff).
  assert (H : forall kb : list string -> N,
            fst (getDiagnosisCacheSize recordBytes kb w)
            = Ret (recordsBytes recordBytes (storage w) (indexKeys (storage w)))).
  { intros kb.
    destruct (getDiagnosisCacheSize_spec recordBytes kb w Hwin Hr) as (w' & -> & _).
    cbn [fst]. f_equal. unfold totalBytes. apply bytesOf_records.
    intros k. apply Hiff. }
  split; [apply H|]. intros kb. by rewrite !H.
Qed.


Section Stats.

Context {Number : Type}.
Variable roundedMB : N -> Number.
Variable roundedPercent : N -> Number.

Abbreviation stats := (getDiagnosisCacheStats recordBytes keysBytes roundedMB roundedPercent).

(** X24. On a consistent store the statistics describe the records
    that have not expired: their number, their number for each organ (an
    organ without a live record has no entry), the least and the greatest
    of their timestamps as the oldest and the newest date (no dates when
    there is none), and the size of what is left once the expired records
    are deleted, which the statistics do on the way as a sweep would.
    The count of an organ is a number only if [Object.prototype] does not
    define its name: under a name such as "constructor" no number is
    ever counted. *)
Theorem statistics_describe_the_live_records w :
  Good w ->
  let live := liveOf (storage w) (clock w) (indexKeys (storage w)) in
  exists st w',
    stats w = (Ret st, w')
    /\ storage w' = storage (snd (clearExpiredDiagnoses w))
    /\ totalDiagnoses st = length live
    /\ (forall organ,
          organ ∉ inheritedNames ->
          diagnosisCountByOrgan st !! organ
          = match length (filter (fun x => organName (fst x) = organ) live) with
            | O => None
            | S n => Some (Count (S n))
            end)
    /\ (forall organ n,
          organ ∈ inheritedNames ->
          diagnosisCountByOrgan st !! organ <> Some (Count n))
    /\ totalSizeMB st = roundedMB (total (storage w'))
    /\ utilizationPercent st = roundedPercent (total (storage w'))
    /\ (live = [] -> oldestDiagnosisDate st = None /\ newestDiagnosisDate st = None)
    /\ (forall x, x ∈ live ->
          exists a b, a ∈ live /\ b ∈ live
                      /\ oldestDiagnosisDate st = Some (timestamp (fst a))
                      /\ newestDiagnosisDate st = Some (timestamp (fst b))
                      /\ timestamp (fst a) <= timestamp (fst x) <= timestamp (fst b)).
Proof.
  intros HG live.
  destruct (getDiagnosisCacheStats_Good recordBytes keysBytes roundedMB roundedPercent w HG)
    as (w' & E & _ & _ & Hs).
  destruct (clearExpiredDiagnoses_Good w HG) as (w2 & E2 & _ & _ & Hs2).
  fold live in E.
  pose proof (sortNewestFirst_Permutation live) as Hperm.
  pose proof (sortNewestFirst_newestFirst live) as Hsorted.
  assert (Hlen : length (sortNewestFirst live) = length live) by by rewrite Hperm.
  assert (Hnil : sortNewestFirst live = [] -> live = []).
  { intros E0. rewrite E0 in Hlen. by destruct live. }
  eexists _, w'. split; [exact E|]. rewrite Hs.
  split; [rewrite E2; simpl; congruence|].
  destruct (sortNewestFirst live) as [|first rest] eqn:Esort.
  - rewrite (Hnil eq_refl). cbn. split_and!; try done.
    intros x Hx. by apply elem_of_nil in Hx.
  - cbn [totalDiagnoses diagnosisCountByOrgan totalSizeMB utilizationPercent
           oldestDiagnosisDate newestDiagnosisDate].
    split_and!; try done.
    + intros organ Hni.
      rewrite (fold_countOrgan _ ∅ O) by done.
      rewrite occurrences_organs, Hperm. cbn [Nat.add]. unfold asCount.
      by destruct (length (filter _ live)).
    + intros organ n Hin. by apply fold_countOrgan_numberless.
    + intros E0. subst live. rewrite E0 in Hperm.
      by apply Permutation_nil_r in Hperm.
    + intros x Hx. rewrite <- Hperm in Hx.
      exists (List.last (first :: rest) first), first.
      split_and!; try done.
      * rewrite <- Hperm. destruct (exists_last (l := first :: rest)) as (l0 & a & El); [done|].
        rewrite El, last_last. apply elem_of_app. right. by apply list_elem_of_singleton.
      * rewrite <- Hperm. apply elem_of_cons. by left.
      * by apply newestFirst_last.
      * by apply (newestFirst_first first rest).
Qed.

End Stats.

End Further.

Lemma without_window_nothing_happens_witness :
  put100 "lung" "a" 1%nat server = (Ret false, server)
  /\ getCachedDiagnosis "a" server = (Ret Null, server).
Proof.
  destruct (without_window_nothing_happens flat40 noKeysBytes 100%N 1000
              "lung" "a" "1s00g" 1%nat server) as (H1 & H2 & _).
  - reflexivity.
  - split; [exact H1 | exact H2].
Defined.





(** In [tied] the two records carry the same timestamp and the one stored
    first is the one evicted. *)
Example tied_eviction :
  indexKeys (storage tied) = ["1s00g"; "1snrj"]%string
  /\ storage tied !! slot "1s00g" = Some (Entry (mkCached "lung" "1s00g" 1%nat 1 1001))
  /\ storage tied !! slot "1snrj" = Some (Entry (mkCached "lung" "1snrj" 2%nat 1 1001))
  /\ indexKeys (storage (snd (evictOldestDiagnosis tied))) = ["1snrj"%string].
Proof. vm_compute. by repeat split. Qed.

Lemma eviction_loop_never_ends_with_nothing_to_evict_witness :
  fst (put100 "lung" "a" 1%nat clogged) = Hang.
Proof.
  apply (eviction_loop_never_ends_with_nothing_to_evict flat40 noKeysBytes 100%N 1000
           "lung" "a" 1%nat clogged).
  - reflexivity.
  - intros c. vm_compute. discriminate.
  - intros k c Hin.
    assert (Hks : indexKeys (storage clogged) = ["x"%string]) by (vm_compute; reflexivity).
    rewrite Hks in Hin. apply list_elem_of_singleton in Hin. subst k.
    vm_compute. discriminate.
  - vm_compute. discriminate.
Defined.

Lemma sweep_returns_the_number_of_expired_records_witness :
  exists n w', clearExpiredDiagnoses (advance 5000 three) = (Ret n, w')
               /\ fst (clearExpiredDiagnoses w') = Ret O.
Proof.
  destruct (sweep_returns_the_number_of_expired_records (advance 5000 three))
    as (w' & E & _ & _ & _ & E').
  - apply Good_advance, Good_three.
  - eexists _, w'. split; [exact E | exact E'].
Defined.

(** At time 5000 the three records have expired: the sweep returns 3 and
    leaves an empty index. *)
Example sweep_of_three :
  fst (clearExpiredDiagnoses (advance 5000 three)) = Ret 3%nat
  /\ indexKeys (storage (snd (clearExpiredDiagnoses (advance 5000 three)))) = [].
Proof. vm_compute. by repeat split. Qed.


Lemma clear_all_empties_a_consistent_cache_witness :
  exists w', clearAllDiagnosisCache three = (Ret true, w')
             /\ fst (getDiagnosisCacheSize flat40 noKeysBytes w') = Ret 0%N.
Proof.
  destruct (clear_all_empties_a_consistent_cache flat40 noKeysBytes three)
    as (w' & E & _ & _ & _ & Hsize & _).
  - apply Good_three.
  - exists w'. split; [exact E | exact Hsize].
Defined.

Lemma clear_all_keeps_what_the_index_does_not_list_witness :
  exists w', clearAllDiagnosisCache orphaned = (Ret true, w')
             /\ fst (getCachedDiagnosis "a" (advance 500 w')) = Ret (Hit 7%nat).
Proof.
  destruct (clear_all_keeps_what_the_index_does_not_list orphaned) as (w' & E & _ & _ & H).
  - reflexivity.
  - intros c. vm_compute. discriminate.
  - exists w'. split; [exact E|].
    apply (H "a"%string (mkCached "lung" "1s00g" 7%nat 1 1001) 500).
    + apply (bool_decide_unpack _). vm_compute. exact I.
    + vm_compute. discriminate.
    + vm_compute. reflexivity.
    + vm_compute. discriminate.
Defined.

Lemma listing_returns_the_live_records_newest_first_witness :
  exists l w', getAllCachedDiagnoses (advance 1002 three) = (Ret l, w')
               /\ newestFirst l
               /\ storage w' = storage (snd (clearExpiredDiagnoses (advance 1002 three))).
Proof.
  destruct (listing_returns_the_live_records_newest_first (advance 1002 three))
    as (l & w' & E & _ & Hsorted & _ & _ & Hs).
  - apply Good_advance, Good_three.
  - exists l, w'. split; [exact E|]. split; [exact Hsorted | exact Hs].
Defined.

(** At time 1002 the first of the three records has expired: the listing
    returns the other two, the newer first, and forgets the first. *)
Example listing_of_three :
  fst (getAllCachedDiagnoses (advance 1002 three))
  = Ret [(mkCached "lung" "1tbim" 3%nat 3 1003, "1tbim"%string);
         (mkCached "lung" "1snrj" 2%nat 2 1002, "1snrj"%string)]
  /\ indexKeys (storage (snd (getAllCachedDiagnoses (advance 1002 three))))
     = ["1snrj"; "1tbim"]%string.
Proof. vm_compute. by repeat split. Qed.

Lemma record_in_the_index_slot_disables_the_cache_witness :
  fst (getAllCachedDiagnoses overwritten) = Throw TypeError
  /\ fst (put100 "lung" "z" 10%nat overwritten) = Ret false
  /\ fst (clearAllDiagnosisCache overwritten) = Ret false.
Proof.
  destruct (record_in_the_index_slot_disables_the_cache flat40 noKeysBytes 100%N 1000
              (mkCached "lung" "index" 9%nat 9 1009) overwritten)
    as (_ & _ & Hlist & Hput & (Hclear & _) & _).
  - reflexivity.
  - vm_compute. reflexivity.
  - split; [exact Hlist|]. split; [apply Hput | exact Hclear].
Defined.

Lemma fingerprint_index_overwrites_the_index_witness :
  exists w', put100 "lung" "U8L7xn" 9%nat (advance 9 three) = (Ret false, w')
             /\ indexKeys (storage w') = [].
Proof.
  destruct (fingerprint_index_overwrites_the_index flat40 noKeysBytes 100%N 1000
              "lung" "U8L7xn" 9%nat (advance 9 three)) as (_ & w' & E & _ & Hks).
  - apply Good_advance, Good_three.
  - reflexivity.
  - vm_compute. reflexivity.
  - exists w'. split; [exact E | exact Hks].
Defined.

Lemma rejected_index_write_leaves_an_unlisted_record_witness :
  exists w', put100 "lung" "a" 7%nat grudging = (Ret true, w')
             /\ indexKeys (storage w') = indexKeys (storage grudging)
             /\ fst (getDiagnosisCacheSize flat40 noKeysBytes w')
                = Ret (totalBytes flat40 noKeysBytes (storage grudging)).
Proof.
  destruct (rejected_index_write_leaves_an_unlisted_record flat40 noKeysBytes 100%N 1000
              "lung" "a" 7%nat QuotaExceededError [] grudging)
    as (w' & E & _ & Hks & Hsize & _).
  - reflexivity.
  - intros c. vm_compute. discriminate.
  - reflexivity.
  - reflexivity.
  - apply (bool_decide_unpack _). vm_compute. exact I.
  - vm_compute. discriminate.
  - exists w'. split; [exact E|]. split; [exact Hks | exact Hsize].
Defined.

Lemma fingerprint_ignores_what_is_not_sampled_witness :
  generateImageHash (filler 5000%N +:+ "a" +:+ filler 5001%N)
  = generateImageHash (filler 5000%N +:+ "b" +:+ filler 5001%N).
Proof.
  destruct (fingerprint_ignores_what_is_not_sampled (D := nat) flat40 noKeysBytes 100%N 1000
              (filler 5000) "a" "b" (filler 5001%N)) as (H & _).
  - reflexivity.
  - cbv zeta. left. split; vm_compute; discriminate.
  - exact H.
Defined.

Lemma eviction_loop_ends_within_the_index_or_never_witness :
  fst (evictWhileFull flat40 noKeysBytes 100%N 10 three)
  = fst (evictWhileFull flat40 noKeysBytes 100%N (S (indexLength (storage three))) three).
Proof.
  destruct (eviction_loop_ends_within_the_index_or_never flat40 noKeysBytes 100%N 10 three)
    as (H & _).
  - apply Nat.ltb_lt. vm_compute. reflexivity.
  - exact H.
Defined.

Lemma eviction_loop_removes_the_oldest_records_witness :
  exists w', evictWhileFull flat40 noKeysBytes 100%N (S (indexLength (storage three))) three
             = (Ret tt, w').
Proof.
  destruct (eviction_loop_removes_the_oldest_records flat40 noKeysBytes 100%N three)
    as (w' & E & _).
  - apply Good_three.
  - reflexivity.
  - exists w'. exact E.
Defined.

Lemma size_counts_the_indexed_records_only_witness :
  fst (getDiagnosisCacheSize flat40 (fun ks => 1000%N) three)
  = fst (getDiagnosisCacheSize flat40 noKeysBytes three).
Proof.
  destruct (size_counts_the_indexed_records_only flat40 noKeysBytes three) as (_ & H).
  - apply Good_three.
  - apply H.
Defined.


Lemma statistics_describe_the_live_records_witness :
  exists st w',
    getDiagnosisCacheStats flat40 noKeysBytes (fun n => n) (fun n => n) (advance 1002 three)
    = (Ret st, w')
    /\ storage w' = storage (snd (clearExpiredDiagnoses (advance 1002 three))).
Proof.
  destruct (statistics_describe_the_live_records flat40 noKeysBytes (fun n => n) (fun n => n)
              (advance 1002 three))
    as (st & w' & E & Hs & _).
  - apply Good_advance, Good_three.
  - exists st, w'. split; [exact E | exact Hs].
Defined.

(** At time 1002 two of the three records are alive, both of the lung. *)
Example statistics_of_three :
  let st := fst (getDiagnosisCacheStats flat40 noKeysBytes (fun n => n) (fun n => n)
                   (advance 1002 three)) in
  match st with
  | Ret st =>
      totalDiagnoses st = 2%nat /\ totalSizeMB st = 80%N
      /\ oldestDiagnosisDate st = Some 2 /\ newestDiagnosisDate st = Some 3
      /\ diagnosisCountByOrgan st !! "lung"%string = Some (Count 2)
  | _ => False
  end.
Proof. vm_compute. by repeat split. Qed.

(** A record of an organ called "constructor" is listed and counted in the
    total, but its count by organ is not a number. *)
Example statistics_of_an_inherited_name :
  let st := fst (getDiagnosisCacheStats flat40 noKeysBytes (fun n => n) (fun n => n)
                   (after 1 "constructor" "a" 1%nat browser)) in
  match st with
  | Ret st =>
      totalDiagnoses st = 1%nat
      /\ diagnosisCountByOrgan st !! "constructor"%string = Some NotANumber
  | _ => False
  end.
Proof. vm_compute. by repeat split. Qed.
